(** * Othello: engine, negamax search and game window
    (othelloplayer.py, othello.py)

    A shallow embedding of the board engine ([Othello]), the search
    ([negamax], [get_best_move]), the player adapter ([ComputerPlayer]),
    the game window ([App]) and the command line
    ([parse_command_line_args]).

    - Python integers are [Z]; a board is a list of rows, a row a list of
      cells (0 empty, 1 white, 2 black, any other integer is accepted by
      the code and treated as "neither empty nor the player").
    - A coordinate is a pair [(x, y)]; the cell is [board[y][x]].
    - Exceptions and non-termination are explicit: every operation returns
      an [outcome].  [Timeout] is only produced by fuel exhaustion.
    - [float("inf")] and its negation are the two extra points of [ext].
    - [random.shuffle] is a parameter: a function from the state of the
      random source and a length to a reordering and the next state.
    - The methods are given twice: on the contents of a board, and, for
      the statements about aliasing, on row objects in a store; the
      second refines the first ([h_play_move_mutates],
      [h_get_children_spawns], [h_negamax_refines], [h_pick_move_refines]).
    - Python strings are [string], [str] of an integer is its decimal
      form ([pretty]); [int] of a string is a parameter.
    - Of the window, the state its methods decide on is kept (board,
      player to move, seats, buttons, banner, scheduled calls); images
      and colours are left out. *)

From stdpp Require Import base numbers list sorting strings pretty.
From Stdlib Require Import ZArith Lia Permutation Ascii.

Local Open Scope Z_scope.

(** ** Outcomes: value, raised exception, or fuel exhausted *)

Inductive exn : Type := IndexError | KeyError | AssertionError.

Inductive outcome (A : Type) : Type :=
| Done (a : A)
| Raise (e : exn)
| Timeout.

Arguments Done {A} a.
Arguments Raise {A} e.
Arguments Timeout {A}.

Definition bind {A B : Type} (m : outcome A) (k : A -> outcome B) : outcome B :=
  match m with
  | Done a => k a
  | Raise e => Raise e
  | Timeout => Timeout
  end.

Notation "'let*' x ':=' m 'in' k" := (bind m (fun x => k))
  (at level 10, x pattern, m at level 100, k at level 200).

(** ** Python sequences *)

(** [len(l)] *)
Definition len {A : Type} (l : list A) : Z := Z.of_nat (length l).

(** [range(lo, lo + n)] *)
Definition range (lo : Z) (n : nat) : list Z := seqZ lo (Z.of_nat n).

(** [l[i]]: a negative index counts from the end, anything outside
    [-len(l), len(l))] raises [IndexError]. *)
Definition py_index {A : Type} (l : list A) (i : Z) : outcome A :=
  let j := if i <? 0 then i + len l else i in
  if j <? 0 then Raise IndexError
  else match l !! Z.to_nat j with
       | Some v => Done v
       | None => Raise IndexError
       end.

(** [l[i] = v] on a list, same index rule. *)
Definition py_setitem {A : Type} (l : list A) (i : Z) (v : A) : outcome (list A) :=
  let j := if i <? 0 then i + len l else i in
  if j <? 0 then Raise IndexError
  else if j <? len l then Done (<[Z.to_nat j := v]> l)
  else Raise IndexError.

(** ** Board engine *)

Abbreviation board := (list (list Z)).
Abbreviation location := (Z * Z)%type.

(** [get_location_type(location, board_width)] *)
Definition get_location_type (loc : location) (board_width : Z) : Z :=
  let in_corners (v : Z) := (v =? 0) || (v =? board_width - 1) in
  if in_corners loc.1 && in_corners loc.2 then 3
  else if in_corners loc.1 || in_corners loc.2 then 2
  else 1.

(** [Othello.__init__(board)] when a board is given ([width] left at its
    default [None]): an empty grid is falsy, so the constructor falls into
    the width branch and its [assert(width != None)] fails. *)
Definition Othello_init (grid : board) : outcome board :=
  match grid with
  | [] => Raise AssertionError
  | _ => Done (map (fun row => map (fun x => x) row) grid)
  end.

(** [Othello.__init__(None, width)]: the starting position. *)
Definition Othello_start (width : Z) : outcome board :=
  if negb (width mod 2 =? 0) then Raise AssertionError
  else
    let b0 := replicate (Z.to_nat width) (replicate (Z.to_nat width) 0) in
    let m := width / 2 - 1 in
    let put (b : outcome board) (x y v : Z) : outcome board :=
      let* b' := b in
      let* row := py_index b' y in
      let* row' := py_setitem row x v in
      py_setitem b' y row' in
    put (put (put (put (Done b0) m m 1) (m + 1) (m + 1) 1) m (m + 1) 2) (m + 1) m 2.

(** [is_on_board]: the conjunction short-circuits, so [self.board[0]] is
    only evaluated once [0 <= y < len(self.board)] is known. *)
Definition is_on_board (b : board) (loc : location) : outcome bool :=
  if negb (0 <=? loc.1) then Done false
  else if negb (0 <=? loc.2) then Done false
  else if negb (loc.2 + 1 <=? len b) then Done false
  else let* row0 := py_index b 0 in Done (loc.1 + 1 <=? len row0).

(** The [while(True)] loop of [get_flipped] for one offset [(x, y)],
    entered with [temp_loc] and the discs collected so far. *)
Fixpoint walk (fuel : nat) (b : board) (player x y : Z)
    (temp_loc : location) (flip : list location) : outcome (list location) :=
  match fuel with
  | O => Timeout
  | S fuel' =>
      let* on := is_on_board b temp_loc in
      if negb on then Done []
      else
        let* row := py_index b temp_loc.2 in
        let* tile := py_index row temp_loc.1 in
        if tile =? 0 then Done []
        else if tile =? player then Done flip
        else walk fuel' b player x y
               (temp_loc.1 + x, temp_loc.2 + y) (flip ++ [temp_loc])
  end.

(** [for x in range(-1, 2): for y in range(-1, 2)]: nine offsets, the
    centre [(0, 0)] included. *)
Definition offsets : list (Z * Z) :=
  x ← range (-1) 3; y ← range (-1) 3; [(x, y)].

Fixpoint flipped_loop (fuel : nat) (b : board) (loc : location) (player : Z)
    (offs : list (Z * Z)) (flipped : list location) : outcome (list location) :=
  match offs with
  | [] => Done flipped
  | (x, y) :: rest =>
      let* flip := walk fuel b player x y (loc.1 + x, loc.2 + y) [] in
      flipped_loop fuel b loc player rest (flipped ++ flip)
  end.

(** [get_flipped] with [fuel] iterations allowed to each inner loop. *)
Definition get_flipped_fuel (fuel : nat) (b : board) (loc : location)
    (player : Z) : outcome (list location) :=
  flipped_loop fuel b loc player offsets [].

(** More iterations than any walk that moves can make on this board. *)
Definition walk_bound (b : board) : nat :=
  S (length b + length (default [] (b !! 0%nat))).

Definition get_flipped (b : board) (loc : location) (player : Z)
  : outcome (list location) :=
  get_flipped_fuel (walk_bound b) b loc player.

(** [_get_available_moves]: row-major scan, [y] outer and [x] inner; a
    cell is tested with [get_flipped] only when it is empty. *)
Fixpoint available_row (b : board) (player y : Z) (xs : list Z)
    (available : list location) : outcome (list location) :=
  match xs with
  | [] => Done available
  | x :: xs' =>
      let* row := py_index b y in
      let* cell := py_index row x in
      if cell =? 0 then
        let* flipped := get_flipped b (x, y) player in
        match flipped with
        | [] => available_row b player y xs' available
        | _ :: _ => available_row b player y xs' (available ++ [(x, y)])
        end
      else available_row b player y xs' available
  end.

Fixpoint available_rows (b : board) (player : Z) (ys : list Z)
    (available : list location) : outcome (list location) :=
  match ys with
  | [] => Done available
  | y :: ys' =>
      let* row0 := py_index b 0 in
      let* available' := available_row b player y (range 0 (length row0)) available in
      available_rows b player ys' available'
  end.

Definition _get_available_moves (b : board) (player : Z) : outcome (list location) :=
  available_rows b player (range 0 (length b)) [].

(** [self.board[loc[1]][loc[0]] = v]: the row object is fetched and
    mutated in place; the rows of one engine are distinct objects (the
    constructor builds each of them), so only that row changes. *)
Definition set_cell (b : board) (loc : location) (v : Z) : outcome board :=
  let* row := py_index b loc.2 in
  let* row' := py_setitem row loc.1 v in
  py_setitem b loc.2 row'.

Fixpoint flip_all (b : board) (flipped : list location) (player : Z) : outcome board :=
  match flipped with
  | [] => Done b
  | flip :: rest =>
      let* b' := set_cell b flip player in
      flip_all b' rest player
  end.

(** [play_move]: the disc is placed first, the flips are computed on the
    board that already holds it. *)
Definition play_move (b : board) (loc : location) (player : Z) : outcome board :=
  let* b1 := set_cell b loc player in
  let* flipped := get_flipped b1 loc player in
  flip_all b1 flipped player.

(** [get_children] *)
Fixpoint children_loop (b : board) (player : Z) (moves : list location)
    (children : list board) : outcome (list board) :=
  match moves with
  | [] => Done children
  | move :: rest =>
      let* child := Othello_init b in
      let* child' := play_move child move player in
      children_loop b player rest (children ++ [child'])
  end.

Definition get_children (b : board) (player : Z) : outcome (list board) :=
  let* moves := _get_available_moves b player in
  children_loop b player moves [].

(** [get_state_value] *)
Definition get_state_value (b : board) (player : Z) : Z :=
  foldl (fun value row =>
           foldl (fun value cell => if cell =? player then value + 1 else value)
                 value row)
        0 b.

(** [_is_state_terminal] *)
Definition _is_state_terminal (b : board) : outcome bool :=
  let num_empties := get_state_value b 0 in
  if num_empties =? 0 then Done true
  else
    let* moves1 := _get_available_moves b 1 in
    match moves1 with
    | _ :: _ => Done false
    | [] =>
        let* moves2 := _get_available_moves b 2 in
        match moves2 with
        | _ :: _ => Done false
        | [] => Done true
        end
    end.

(** [str] of an integer, the line feed, and [s[:-1]]. *)
Definition str (z : Z) : string := pretty z.

Definition newline : Ascii.ascii := Ascii.ascii_of_nat 10.

Fixpoint drop_last (s : string) : string :=
  match s with
  | EmptyString => EmptyString
  | String c s' =>
      match s' with
      | EmptyString => EmptyString
      | String _ _ => String c (drop_last s')
      end
  end.

(** [to_string]: a line with the column numbers, then one line per row
    with the row number and the cells. *)
Definition to_string (b : board) : outcome string :=
  let* row0 := py_index b 0 in
  let output :=
    foldl (fun output i => output +:+ (str i +:+ " ")) "  " (range 0 (length row0)) in
  let output := drop_last output +:+ String newline EmptyString in
  let '(output, _) :=
    foldl (fun '(output, i) row =>
             let line :=
               foldl (fun line cell => line +:+ (str cell +:+ " ")) (str i +:+ " ") row in
             (output +:+ (drop_last line +:+ String newline EmptyString), i + 1))
          (output, 0) b in
  Done output.

(** ** Search engine *)

(** Scores: Python integers together with [float("inf")] and its negation. *)
Inductive ext : Type := NegInf | Fin (z : Z) | PosInf.

(** unary minus *)
Definition eneg (v : ext) : ext :=
  match v with
  | NegInf => PosInf
  | Fin z => Fin (- z)
  | PosInf => NegInf
  end.

(** [v < w] *)
Definition elt (v w : ext) : bool :=
  match v, w with
  | NegInf, NegInf => false
  | NegInf, _ => true
  | Fin _, NegInf => false
  | Fin x, Fin y => x <? y
  | Fin _, PosInf => true
  | PosInf, _ => false
  end.

(** [v <= w] *)
Definition ele (v w : ext) : bool := negb (elt w v).

(** [v == w] *)
Definition eeq (v w : ext) : bool :=
  match v, w with
  | NegInf, NegInf => true
  | Fin x, Fin y => x =? y
  | PosInf, PosInf => true
  | _, _ => false
  end.

(** [max(v, w)]: the first argument is kept unless the second is greater. *)
Definition emax (v w : ext) : ext := if elt v w then w else v.

(** [players = {1:2, 2:1}; players[player]] *)
Definition players (player : Z) : outcome Z :=
  if player =? 1 then Done 2
  else if player =? 2 then Done 1
  else Raise KeyError.

Section Search.

(** The state of the random generator, and the order [random.shuffle]
    gives to a list of [n] elements from a state: the result lists the
    old positions in their new order. *)
Context {G : Type}.
Variable shuffle_order : G -> nat -> list nat * G.

Definition shuffle {A : Type} (g : G) (l : list A) : list A * G :=
  let '(order, g') := shuffle_order g (length l) in
  (omap (fun i => l !! i) order, g').

(** The [for child in children] loop of [negamax]; [recur] is the
    recursive call [child.negamax(players[player], depth-1, _, _, isPruning)]. *)
Fixpoint negamax_loop (recur : board -> ext -> ext -> G -> outcome (ext * G))
    (children : list board) (best a b : ext) (isPruning : bool) (g : G)
  : outcome (ext * G) :=
  match children with
  | [] => Done (best, g)
  | child :: rest =>
      let* (value, g') := recur child (eneg b) (eneg a) g in
      let best' := emax best value in
      if isPruning then
        let a' := emax a value in
        if ele b a' then Done (best', g')
        else negamax_loop recur rest best' a' b isPruning g'
      else negamax_loop recur rest best' a b isPruning g'
  end.

(** [negamax]; [fuel] bounds the recursion depth. *)
Fixpoint negamax (fuel : nat) (self : board) (player depth : Z) (a b : ext)
    (isPruning : bool) (g : G) : outcome (ext * G) :=
  match fuel with
  | O => Timeout
  | S fuel' =>
      let* game_is_over := _is_state_terminal self in
      if (depth =? 0) || game_is_over
      then Done (Fin (get_state_value self player), g)
      else
        let* opponent := players player in
        let* children := get_children self opponent in
        let '(children', g1) := shuffle g children in
        let* (best, g2) :=
          negamax_loop
            (fun child a' b' g' =>
               negamax fuel' child opponent (depth - 1) a' b' isPruning g')
            children' NegInf a b isPruning g1 in
        Done (eneg best, g2)
  end.

(** The [for move in moves] loop of [get_best_move].  [if not move:
    continue] never fires: a move is a pair, and a non-empty tuple is
    truthy. *)
Fixpoint best_move_loop (fuel : nat) (self : board) (player plies : Z)
    (moves : list location) (best_move : option location * ext) (g : G)
  : outcome ((option location * ext) * G) :=
  match moves with
  | [] => Done (best_move, g)
  | move :: rest =>
      let* child := Othello_init self in
      let* child' := play_move child move player in
      let* (score, g') :=
        negamax fuel child' player (plies - 1) NegInf PosInf true g in
      let best1 := if elt best_move.2 score then (Some move, score) else best_move in
      let best2 :=
        if eeq score best1.2 then
          match best1.1 with
          | None => (Some move, score)
          | Some held =>
              if get_location_type held (len self) <? get_location_type move (len self)
              then (Some move, score)
              else best1
          end
        else best1 in
      best_move_loop fuel self player plies rest best2 g'
  end.

Definition get_best_move (fuel : nat) (self : board) (player plies : Z) (g : G)
  : outcome (option location * G) :=
  let* moves := _get_available_moves self player in
  let* (best_move, g') :=
    best_move_loop fuel self player plies moves (None, NegInf) g in
  Done (best_move.1, g').

(** ** Player adapter *)

Record ComputerPlayer : Type := {
  player_ID : Z;
  difficulty_level : Z
}.

(** [ComputerPlayer.__init__]; a level of [None] is the option [None]. *)
Definition ComputerPlayer_init (id : Z) (level : option Z) : outcome ComputerPlayer :=
  if negb ((id =? 1) || (id =? 2)) then Raise AssertionError
  else
    match level with
    | None => Done {| player_ID := id; difficulty_level := 1 |}
    | Some n =>
        if n <? 1 then Done {| player_ID := id; difficulty_level := 1 |}
        else Done {| player_ID := id; difficulty_level := n |}
    end.

Definition pick_move (fuel : nat) (cp : ComputerPlayer) (grid : board) (g : G)
  : outcome (option location * G) :=
  let* othello := Othello_init grid in
  get_best_move fuel othello (player_ID cp) (difficulty_level cp) g.

End Search.

(** ** The engine with its objects

    The definitions above work on the contents of a board.  To speak of
    aliasing, the same methods are given here on objects: a row is a list
    object in a store, addressed by its position; a grid is the list of
    the addresses of its rows (no method assigns to the outer list of a
    grid, so it is kept as a value).  Methods that only read are applied
    to the contents [read h self]; the methods that allocate or write
    thread the store. *)

Abbreviation heap := (list (list Z)).
Abbreviation grid := (list nat).

(** The contents of a grid. *)
Definition read (h : heap) (gr : grid) : board :=
  (fun a => default [] (h !! a)) <$> gr.

(** [Othello.__init__(board)]: [[[x for x in row] for row in board]]
    allocates one new row per row of the argument. *)
Definition h_Othello_init (h : heap) (gr : grid) : outcome (heap * grid) :=
  match gr with
  | [] => Raise AssertionError
  | _ => Done (h ++ map (fun row => map (fun x => x) row) (read h gr),
               seq (length h) (length gr))
  end.

(** [self.board[loc[1]][loc[0]] = v]: the row object is looked up, then
    written in place. *)
Definition h_set_cell (h : heap) (self : grid) (loc : location) (v : Z)
  : outcome heap :=
  let* a := py_index self loc.2 in
  let* row' := py_setitem (default [] (h !! a)) loc.1 v in
  Done (<[a := row']> h).

Fixpoint h_flip_all (h : heap) (self : grid) (flipped : list location)
    (player : Z) : outcome heap :=
  match flipped with
  | [] => Done h
  | flip :: rest =>
      let* h' := h_set_cell h self flip player in
      h_flip_all h' self rest player
  end.

Definition h_play_move (h : heap) (self : grid) (loc : location) (player : Z)
  : outcome heap :=
  let* h1 := h_set_cell h self loc player in
  let* flipped := get_flipped (read h1 self) loc player in
  h_flip_all h1 self flipped player.

Fixpoint h_children_loop (h : heap) (self : grid) (player : Z)
    (moves : list location) (children : list grid) : outcome (heap * list grid) :=
  match moves with
  | [] => Done (h, children)
  | move :: rest =>
      let* (h1, child) := h_Othello_init h self in
      let* h2 := h_play_move h1 child move player in
      h_children_loop h2 self player rest (children ++ [child])
  end.

Definition h_get_children (h : heap) (self : grid) (player : Z)
  : outcome (heap * list grid) :=
  let* moves := _get_available_moves (read h self) player in
  h_children_loop h self player moves [].

Section HeapSearch.

Context {G : Type}.
Variable shuffle_order : G -> nat -> list nat * G.

Fixpoint h_negamax_loop
    (recur : heap -> grid -> ext -> ext -> G -> outcome (heap * (ext * G)))
    (h : heap) (children : list grid) (best a b : ext) (isPruning : bool) (g : G)
  : outcome (heap * (ext * G)) :=
  match children with
  | [] => Done (h, (best, g))
  | child :: rest =>
      let* (h1, (value, g')) := recur h child (eneg b) (eneg a) g in
      let best' := emax best value in
      if isPruning then
        let a' := emax a value in
        if ele b a' then Done (h1, (best', g'))
        else h_negamax_loop recur h1 rest best' a' b isPruning g'
      else h_negamax_loop recur h1 rest best' a b isPruning g'
  end.

Fixpoint h_negamax (fuel : nat) (h : heap) (self : grid) (player depth : Z)
    (a b : ext) (isPruning : bool) (g : G) : outcome (heap * (ext * G)) :=
  match fuel with
  | O => Timeout
  | S fuel' =>
      let* game_is_over := _is_state_terminal (read h self) in
      if (depth =? 0) || game_is_over
      then Done (h, (Fin (get_state_value (read h self) player), g))
      else
        let* opponent := players player in
        let* (h1, children) := h_get_children h self opponent in
        let '(children', g1) := shuffle shuffle_order g children in
        let* (h2, (best, g2)) :=
          h_negamax_loop
            (fun h' child a' b' g' =>
               h_negamax fuel' h' child opponent (depth - 1) a' b' isPruning g')
            h1 children' NegInf a b isPruning g1 in
        Done (h2, (eneg best, g2))
  end.

Fixpoint h_best_move_loop (fuel : nat) (h : heap) (self : grid) (player plies : Z)
    (moves : list location) (best_move : option location * ext) (g : G)
  : outcome (heap * ((option location * ext) * G)) :=
  match moves with
  | [] => Done (h, (best_move, g))
  | move :: rest =>
      let* (h1, child) := h_Othello_init h self in
      let* h2 := h_play_move h1 child move player in
      let* (h3, (score, g')) :=
        h_negamax fuel h2 child player (plies - 1) NegInf PosInf true g in
      let best1 := if elt best_move.2 score then (Some move, score) else best_move in
      let best2 :=
        if eeq score best1.2 then
          match best1.1 with
          | None => (Some move, score)
          | Some held =>
              if get_location_type held (len self) <? get_location_type move (len self)
              then (Some move, score)
              else best1
          end
        else best1 in
      h_best_move_loop fuel h3 self player plies rest best2 g'
  end.

Definition h_get_best_move (fuel : nat) (h : heap) (self : grid)
    (player plies : Z) (g : G) : outcome (heap * (option location * G)) :=
  let* moves := _get_available_moves (read h self) player in
  let* (h', (best_move, g')) :=
    h_best_move_loop fuel h self player plies moves (None, NegInf) g in
  Done (h', (best_move.1, g')).

(** [ComputerPlayer.pick_move(board)] on the caller's grid. *)
Definition h_pick_move (fuel : nat) (cp : ComputerPlayer) (h : heap) (gr : grid)
    (g : G) : outcome (heap * (option location * G)) :=
  let* (h1, othello) := h_Othello_init h gr in
  h_get_best_move fuel h1 othello (player_ID cp) (difficulty_level cp) g.

End HeapSearch.

(** Every object of [h] is in [h'] with the same contents. *)
Definition extends (h h' : heap) : Prop :=
  forall (a : nat) (row : list Z), h !! a = Some row -> h' !! a = Some row.

(** The rows of a grid exist. *)
Definition valid (h : heap) (gr : grid) : Prop := Forall (fun a => (a < length h)%nat) gr.

(** A grid built by the constructor: its rows exist and are distinct
    objects. *)
Definition instance (h : heap) (self : grid) : Prop := NoDup self /\ valid h self.

(** A store-level run [hm] does what the content-level run [m] does: the
    same exception or lack of fuel, or the same value, in a store that
    extends the one it started from. *)
Definition refines {A : Type} (h : heap) (hm : outcome (heap * A)) (m : outcome A)
  : Prop :=
  match m with
  | Done r => exists h', hm = Done (h', r) /\ extends h h'
  | Raise e => hm = Raise e
  | Timeout => hm = Timeout
  end.

(** A store-level write [hm] on the rows of [self] does what the
    content-level run [m] does to the contents, and touches no other
    object. *)
Definition mutates (h : heap) (self : grid) (hm : outcome heap) (m : outcome board)
  : Prop :=
  match m with
  | Done b' =>
      exists h', hm = Done h' /\ read h' self = b' /\ length h' = length h /\
                 forall a, a ∉ self -> h' !! a = h !! a
  | Raise e => hm = Raise e
  | Timeout => hm = Timeout
  end.

(** The rows of a grid were allocated after the store had [n] objects. *)
Definition fresh (n : nat) (gr : grid) : Prop := Forall (fun a => (n <= a)%nat) gr.

(** A store-level run [hm] that builds engines does what the
    content-level run [m] does: the engines it returns hold the boards
    [m] returns, on rows allocated after the first [n] objects. *)
Definition spawns (n : nat) (h : heap) (hm : outcome (heap * list grid))
    (m : outcome (list board)) : Prop :=
  match m with
  | Done bs =>
      exists h' cs, hm = Done (h', cs) /\ extends h h' /\ read h' <$> cs = bs /\
                    Forall (instance h') cs /\ Forall (fresh n) cs
  | Raise e => hm = Raise e
  | Timeout => hm = Timeout
  end.

(** The two statements [child = Othello(self.board)] and
    [child.play_move(move, player)] that [get_children] and
    [get_best_move] share. *)
Definition h_child (h : heap) (self : grid) (move : location) (player : Z)
  : outcome (heap * grid) :=
  let* (h1, child) := h_Othello_init h self in
  let* h2 := h_play_move h1 child move player in
  Done (h2, child).

(** ** The game window (othello.py)

    [App] keeps a board of its own and carries a copy of the engine's
    [is_on_board], [get_flipped] and [_get_available_moves].  Of the
    window we keep what its methods decide on: the board, the player to
    move, the seats, the moves that have a "play" button, the text of
    the banner and the number of calls of [_do_computer_turn] scheduled
    with [after].  Images, canvas items and the dictionary [discs]
    (written, never read) are left out, and the calls into Tk are taken
    to succeed. *)

(** Exceptions of the window: those of the engine, [TypeError] (a
    subscript on [None]), [AttributeError] (a method or attribute that
    is not there) and [ValueError] ([int] of a malformed string). *)
Inductive app_exn : Type := Engine (e : exn) | TypeError | AttributeError | ValueError.

Inductive result (A : Type) : Type :=
| Ok (a : A)
| Fail (e : app_exn)
| Diverge.

Arguments Ok {A} a.
Arguments Fail {A} e.
Arguments Diverge {A}.

Definition rbind {A B : Type} (m : result A) (k : A -> result B) : result B :=
  match m with
  | Ok a => k a
  | Fail e => Fail e
  | Diverge => Diverge
  end.

Notation "'let+' x ':=' m 'in' k" := (rbind m (fun x => k))
  (at level 10, x pattern, m at level 100, k at level 200).

Definition lift {A : Type} (m : outcome A) : result A :=
  match m with
  | Done a => Ok a
  | Raise e => Fail (Engine e)
  | Timeout => Diverge
  end.

(** [PLAYERS = {1: "White", 2: "Black"}; PLAYERS[k]] *)
Definition PLAYERS (k : Z) : outcome string :=
  if k =? 1 then Done "White"
  else if k =? 2 then Done "Black"
  else Raise KeyError.

(** An entry of the tuple [self.players]: [None], a [HumanPlayer] or a
    loaded [ComputerPlayer]. *)
Inductive seat : Type := NoPlayer | HumanPlayer | Computer (cp : ComputerPlayer).

(** [App_players] is [None] as long as the attribute [players] has not
    been assigned. *)
Record App : Type := {
  App_board : board;
  current_player : Z;
  App_players : option (list seat);
  buttons : list location;
  top_banner : string;
  scheduled : nat
}.

Definition set_board (b : board) (s : App) : App :=
  {| App_board := b; current_player := current_player s;
     App_players := App_players s; buttons := buttons s;
     top_banner := top_banner s; scheduled := scheduled s |}.

Definition set_current_player (p : Z) (s : App) : App :=
  {| App_board := App_board s; current_player := p;
     App_players := App_players s; buttons := buttons s;
     top_banner := top_banner s; scheduled := scheduled s |}.

Definition set_buttons (bs : list location) (s : App) : App :=
  {| App_board := App_board s; current_player := current_player s;
     App_players := App_players s; buttons := bs;
     top_banner := top_banner s; scheduled := scheduled s |}.

Definition set_top_banner (text : string) (s : App) : App :=
  {| App_board := App_board s; current_player := current_player s;
     App_players := App_players s; buttons := buttons s;
     top_banner := text; scheduled := scheduled s |}.

(** [self.after(50, self._do_computer_turn)] *)
Definition schedule (s : App) : App :=
  {| App_board := App_board s; current_player := current_player s;
     App_players := App_players s; buttons := buttons s;
     top_banner := top_banner s; scheduled := S (scheduled s) |}.

(** [App._is_on_board] *)
Definition _is_on_board (b : board) (loc : location) : outcome bool :=
  if negb (0 <=? loc.1) then Done false
  else if negb (0 <=? loc.2) then Done false
  else if negb (loc.2 + 1 <=? len b) then Done false
  else let* row0 := py_index b 0 in Done (loc.1 + 1 <=? len row0).

(** The [while(True)] loop of [App._get_flipped]. *)
Fixpoint App_walk (fuel : nat) (b : board) (player x y : Z)
    (temp_loc : location) (flip : list location) : outcome (list location) :=
  match fuel with
  | O => Timeout
  | S fuel' =>
      let* on := _is_on_board b temp_loc in
      if negb on then Done []
      else
        let* row := py_index b temp_loc.2 in
        let* tile := py_index row temp_loc.1 in
        if tile =? 0 then Done []
        else if tile =? player then Done flip
        else App_walk fuel' b player x y
               (temp_loc.1 + x, temp_loc.2 + y) (flip ++ [temp_loc])
  end.

Fixpoint App_flipped_loop (fuel : nat) (b : board) (loc : location) (player : Z)
    (offs : list (Z * Z)) (flipped : list location) : outcome (list location) :=
  match offs with
  | [] => Done flipped
  | (x, y) :: rest =>
      let* flip := App_walk fuel b player x y (loc.1 + x, loc.2 + y) [] in
      App_flipped_loop fuel b loc player rest (flipped ++ flip)
  end.

(** [App._get_flipped], each inner loop with the iterations
    [walk_bound] allows. *)
Definition _get_flipped (b : board) (loc : location) (player : Z)
  : outcome (list location) :=
  App_flipped_loop (walk_bound b) b loc player offsets [].

(** [App._get_valid_moves] *)
Fixpoint valid_row (b : board) (player y : Z) (xs : list Z)
    (available : list location) : outcome (list location) :=
  match xs with
  | [] => Done available
  | x :: xs' =>
      let* row := py_index b y in
      let* cell := py_index row x in
      if cell =? 0 then
        let* flipped := _get_flipped b (x, y) player in
        match flipped with
        | [] => valid_row b player y xs' available
        | _ :: _ => valid_row b player y xs' (available ++ [(x, y)])
        end
      else valid_row b player y xs' available
  end.

Fixpoint valid_rows (b : board) (player : Z) (ys : list Z)
    (available : list location) : outcome (list location) :=
  match ys with
  | [] => Done available
  | y :: ys' =>
      let* row0 := py_index b 0 in
      let* available' := valid_row b player y (range 0 (length row0)) available in
      valid_rows b player ys' available'
  end.

Definition _get_valid_moves (b : board) (player : Z) : outcome (list location) :=
  valid_rows b player (range 0 (length b)) [].

(** [App._flip_token]: a cell that holds 1 becomes 2, any other cell
    becomes 1. *)
Definition _flip_token (b : board) (loc : location) : outcome board :=
  let* row := py_index b loc.2 in
  let* v := py_index row loc.1 in
  if v =? 1 then set_cell b loc 2 else set_cell b loc 1.

(** [for flip in self._get_flipped(location, player_num):
    self._flip_token(flip)] *)
Fixpoint flip_tokens (b : board) (flipped : list location) : outcome board :=
  match flipped with
  | [] => Done b
  | flip :: rest =>
      let* b' := _flip_token b flip in
      flip_tokens b' rest
  end.

(** The loops of [App._declare_victory] over the cells; the dictionary
    [tokens = {1:0, 2:0}] is the pair of its two values.  ([cell is not
    0] is [cell != 0] on integers.) *)
Fixpoint count_row (row : list Z) (tokens : Z * Z) : outcome (Z * Z) :=
  match row with
  | [] => Done tokens
  | cell :: rest =>
      if cell =? 0 then count_row rest tokens
      else if cell =? 1 then count_row rest (tokens.1 + 1, tokens.2)
      else if cell =? 2 then count_row rest (tokens.1, tokens.2 + 1)
      else Raise KeyError
  end.

Fixpoint count_rows (b : board) (tokens : Z * Z) : outcome (Z * Z) :=
  match b with
  | [] => Done tokens
  | row :: rest =>
      let* tokens' := count_row row tokens in
      count_rows rest tokens'
  end.

(** [App._declare_victory] *)
Definition _declare_victory (s : App) : result App :=
  let+ tokens := lift (count_rows (App_board s) (0, 0)) in
  let winstring := " player wins," in
  let winstring :=
    if tokens.2 <? tokens.1 then "White" +:+ winstring
    else if tokens.1 <? tokens.2 then "Black" +:+ winstring
    else "tie game," in
  let winstring :=
    winstring +:+ (" with " +:+ pretty (Z.max tokens.1 tokens.2) +:+ " tokens!") in
  Ok (set_top_banner winstring s).

(** [App._set_player]; [fuel] bounds the calls through [_swap_player].
    The test [not self._get_valid_moves(1) and not
    self._get_valid_moves(2)] short-circuits. *)
Fixpoint _set_player (fuel : nat) (player_id : Z) (s : App) : result App :=
  match fuel with
  | O => Diverge
  | S fuel' =>
      let s := set_current_player player_id s in
      let _swap_player (s : App) : result App :=
        if current_player s =? 1 then _set_player fuel' 2 s
        else _set_player fuel' 1 s in
      let+ valid_moves := lift (_get_valid_moves (App_board s) player_id) in
      match valid_moves with
      | [] =>
          let+ moves1 := lift (_get_valid_moves (App_board s) 1) in
          match moves1 with
          | _ :: _ => _swap_player s
          | [] =>
              let+ moves2 := lift (_get_valid_moves (App_board s) 2) in
              match moves2 with
              | _ :: _ => _swap_player s
              | [] => _declare_victory s
              end
          end
      | _ :: _ =>
          let+ seats :=
            match App_players s with
            | Some seats => Ok seats
            | None => Fail AttributeError
            end in
          let+ player := lift (py_index seats player_id) in
          match player with
          | HumanPlayer =>
              let+ name := lift (PLAYERS (current_player s)) in
              let s := set_top_banner (name +:+ "'s turn") s in
              Ok (set_buttons (buttons s ++ valid_moves) s)
          | _ =>
              let+ name := lift (PLAYERS (current_player s)) in
              let s := set_top_banner (name +:+ " player is thinking...") s in
              Ok (schedule s)
          end
      end
  end.

(** [App._swap_player] *)
Definition _swap_player (fuel : nat) (s : App) : result App :=
  if current_player s =? 1 then _set_player fuel 2 s
  else _set_player fuel 1 s.

(** [App._place_disc]; [player_num] is [None] when the argument is left
    out. *)
Definition _place_disc (fuel : nat) (location : location) (player_num : option Z)
    (game_started : bool) (s : App) : result App :=
  let s := set_buttons [] s in
  let player_num := default (current_player s) player_num in
  let+ b1 := lift (set_cell (App_board s) location player_num) in
  let s := set_board b1 s in
  let+ flipped := lift (_get_flipped (App_board s) location player_num) in
  let+ b2 := lift (flip_tokens (App_board s) flipped) in
  let s := set_board b2 s in
  if game_started then _swap_player fuel s else Ok s.

Section AppSearch.

Context {G : Type}.
Variable shuffle_order : G -> nat -> list nat * G.

(** [App._do_computer_turn]; the tuple of tuples handed to [pick_move]
    has the contents of the board.  A seat without [pick_move] raises
    [AttributeError]; the answer [None] raises [TypeError] in
    [_is_on_board]. *)
Definition _do_computer_turn (fuel : nat) (s : App) (g : G) : result (App * G) :=
  let+ seats :=
    match App_players s with
    | Some seats => Ok seats
    | None => Fail AttributeError
    end in
  let+ player := lift (py_index seats (current_player s)) in
  match player with
  | Computer cp =>
      let+ (move, g') := lift (pick_move shuffle_order fuel cp (App_board s) g) in
      match move with
      | None => Fail TypeError
      | Some move =>
          let+ on := lift (_is_on_board (App_board s) move) in
          if negb on then Fail (Engine AssertionError)
          else
            let+ row := lift (py_index (App_board s) move.2) in
            let+ v := lift (py_index row move.1) in
            if negb (v =? 0) then Fail (Engine AssertionError)
            else
              let+ name := lift (PLAYERS (current_player s)) in
              let s := set_top_banner (name +:+ " player is thinking...") s in
              let+ s' := _place_disc fuel move None true s in
              Ok (s', g')
      end
  | _ => Fail AttributeError
  end.

End AppSearch.

(** [App.__init__], the part that sets the seats, builds the board and
    opens the game; [players] is [None] when the argument is left out or
    [None].  With more than three players the attribute [players] is
    never assigned.  Black (2) moves first. *)
Definition App_init (fuel : nat) (players : option (list seat)) (grid_size : Z)
  : result App :=
  let seats :=
    match players with
    | None | Some [] => Some [NoPlayer; HumanPlayer; HumanPlayer]
    | Some [p] => Some [NoPlayer; HumanPlayer; p]
    | Some [p; q] => Some [NoPlayer; p; q]
    | Some [p; q; r] => Some [p; q; r]
    | Some _ => None
    end in
  let s := {| App_board := replicate (Z.to_nat grid_size) (replicate (Z.to_nat grid_size) 0);
              current_player := 0; App_players := seats; buttons := [];
              top_banner := ""; scheduled := 0 |} in
  let m := Z.quot grid_size 2 - 1 in
  let+ s := _place_disc fuel (m, m) (Some 1) false s in
  let+ s := _place_disc fuel (m + 1, m + 1) (Some 1) false s in
  let+ s := _place_disc fuel (m, m + 1) (Some 2) false s in
  let+ s := _place_disc fuel (m + 1, m) (Some 2) false s in
  _set_player fuel 2 s.

(** ** The command line (othello.py) *)

Definition DEFAULT_AI_LEVEL : Z := 4.
Definition DEFAULT_AI_FILE : string := "othelloplayer".

(** [s.rstrip(chars)]: the longest suffix made of characters of [chars]
    is removed. *)
Fixpoint rstrip (chars : list Ascii.ascii) (s : string) : string :=
  match s with
  | EmptyString => EmptyString
  | String c s' =>
      match rstrip chars s' with
      | EmptyString =>
          if bool_decide (c ∈ chars) then EmptyString else String c EmptyString
      | r => String c r
      end
  end.

(** [s.split(sep)] for a separator of one character. *)
Fixpoint split (sep : Ascii.ascii) (s : string) : list string :=
  match s with
  | EmptyString => [EmptyString]
  | String c s' =>
      if bool_decide (c = sep) then EmptyString :: split sep s'
      else
        match split sep s' with
        | [] => [String c EmptyString]
        | w :: ws => String c w :: ws
        end
  end.

(** [args.index(x)]: the position of the first occurrence,
    [ValueError] when there is none. *)
Fixpoint index (x : string) (args : list string) : result nat :=
  match args with
  | [] => Fail ValueError
  | a :: rest =>
      if bool_decide (a = x) then Ok 0%nat
      else let+ i := index x rest in Ok (S i)
  end.

(** [args[args.index(x) + 1]] *)
Definition arg_after (x : string) (args : list string) : result string :=
  let+ i := index x args in
  lift (py_index args (Z.of_nat i + 1)).

Section CommandLine.

(** [int(s)] on a string: the integer it denotes, or [None] where
    Python raises [ValueError]. *)
Variable int : string -> option Z.

Definition to_int (s : string) : result Z :=
  match int s with
  | Some n => Ok n
  | None => Fail ValueError
  end.

(** [parse_command_line_args]; the result is [(print_help, players,
    levels, colors)], a missing file or colour list being [None]. *)
Definition parse_command_line_args (args : list string)
  : result (bool * (option string * option string) * (Z * Z) * option (list string)) :=
  let print_help := bool_decide ("-h" ∈ args) || bool_decide ("--help" ∈ args) in
  let+ ai_file :=
    if bool_decide ("-f" ∈ args) then
      let+ a := arg_after "-f" args in Ok (rstrip ["."; "p"; "y"]%char a)
    else Ok DEFAULT_AI_FILE in
  let players :=
    if bool_decide ("-0" ∈ args) then (Some ai_file, Some ai_file)
    else if bool_decide ("-2" ∈ args) then (None, None)
    else (None, Some ai_file) in
  let+ levels :=
    if bool_decide ("-l" ∈ args) then
      let+ a := arg_after "-l" args in
      match split ","%char a with
      | [] => Fail (Engine IndexError)
      | [l0] =>
          let+ n0 := to_int l0 in
          let+ n1 := to_int l0 in
          Ok (n0, n1)
      | l0 :: l1 :: _ =>
          let+ n0 := to_int l0 in
          let+ n1 := to_int l1 in
          Ok (n0, n1)
      end
    else Ok (DEFAULT_AI_LEVEL, DEFAULT_AI_LEVEL) in
  let+ colors :=
    if bool_decide ("-c" ∈ args) then
      let+ a := arg_after "-c" args in Ok (Some (split ","%char a))
    else Ok None in
  Ok (print_help, players, levels, colors).

End CommandLine.

(** ** Vocabulary of the properties *)

(** Every row is as long as the first one. *)
Definition rect (b : board) : Prop :=
  Forall (fun row => length row = length (default [] (b !! 0%nat))) b.

(** The value [is_on_board] computes, without the outcome wrapper. *)
Definition on_board (b : board) (loc : location) : bool :=
  (0 <=? loc.1) && (0 <=? loc.2) && (loc.2 + 1 <=? len b)
  && (loc.1 + 1 <=? len (default [] (b !! 0%nat))).

(** The content of a cell addressed with non-negative coordinates. *)
Definition cell (b : board) (loc : location) : option Z :=
  row ← b !! Z.to_nat loc.2; row !! Z.to_nat loc.1.

(** What one iteration of the walk reads at [t]: [None] off the board,
    otherwise the tile. *)
Definition probe (b : board) (t : location) : outcome (option Z) :=
  let* on := is_on_board b t in
  if negb on then Done None
  else
    let* row := py_index b t.2 in
    let* tile := py_index row t.1 in
    Done (Some tile).

(** [k] steps from [loc] along the offset [d]. *)
Definition ahead (loc : location) (d : Z * Z) (k : Z) : location :=
  (loc.1 + k * d.1, loc.2 + k * d.2).

(** A disc that is neither empty nor the player's. *)
Definition opposing (player v : Z) : Prop := v <> 0 /\ v <> player.

(** [n - 1 >= 1] opposing discs from [loc] along [d], closed by a disc of
    [player] at distance [n]. *)
Definition sandwich (b : board) (player : Z) (loc : location) (d : Z * Z) (n : Z) : Prop :=
  2 <= n /\
  (forall j, 1 <= j < n ->
     on_board b (ahead loc d j) = true /\
     exists v, cell b (ahead loc d j) = Some v /\ opposing player v) /\
  on_board b (ahead loc d n) = true /\
  cell b (ahead loc d n) = Some player.

(** The eight compass offsets. *)
Definition compass (d : Z * Z) : Prop :=
  (-1 <= d.1 <= 1) /\ (-1 <= d.2 <= 1) /\ d <> (0, 0).

(** Number of on-board cells left from [t] along [d], [t] included
    (meaningful for a compass offset). *)
Definition reach (b : board) (d : Z * Z) (t : location) : Z :=
  if d.1 =? 1 then len (default [] (b !! 0%nat)) - t.1
  else if d.1 =? -1 then t.1 + 1
  else if d.2 =? 1 then len b - t.2
  else t.2 + 1.

(** A cell of the board that holds an opposing disc. *)
Definition opposing_at (b : board) (player : Z) (c : location) : Prop :=
  on_board b c = true /\ exists v, cell b c = Some v /\ opposing player v.

(** The cell at [c] stops a walk without closing it: off the board, or
    empty. *)
Definition open_end (b : board) (c : location) : Prop :=
  on_board b c = false \/ cell b c = Some 0.

(** What a walk started at [t] with [flip] collected may return: nothing
    when the run of opposing discs ends off the board or on an empty cell,
    everything collected when it ends on a disc of [player]. *)
Definition walk_result (b : board) (player : Z) (d : Z * Z) (t : location)
    (flip r : list location) : Prop :=
  exists n : nat,
    (forall j : nat, (j < n)%nat -> opposing_at b player (ahead t d (Z.of_nat j))) /\
    ((open_end b (ahead t d (Z.of_nat n)) /\ r = []) \/
     (on_board b (ahead t d (Z.of_nat n)) = true /\
      cell b (ahead t d (Z.of_nat n)) = Some player /\ player <> 0 /\
      r = flip ++ map (fun j => ahead t d (Z.of_nat j)) (seq 0 n))).

(** The inner loop of [get_flipped] for the offset [d], and the list it
    adds to [flipped]. *)
Definition flips_along (b : board) (loc : location) (player : Z) (d : Z * Z)
  : outcome (list location) :=
  walk (walk_bound b) b player d.1 d.2 (loc.1 + d.1, loc.2 + d.2) [].

Definition contribution (b : board) (loc : location) (player : Z) (d : Z * Z)
  : list location :=
  match flips_along b loc player d with
  | Done l => l
  | _ => []
  end.

(** The coordinate is off the board, empty, or already the player's: the
    cases in which the callers of [get_flipped] reach it. *)
Definition settled (b : board) (player : Z) (loc : location) : Prop :=
  on_board b loc = false \/ cell b loc = Some 0 \/ cell b loc = Some player.

(** The board with the cell at [loc] set to [v] (coordinates counted
    from the top left), and with a list of cells set to [v]. *)
Definition put (b : board) (loc : location) (v : Z) : board :=
  alter (fun row => <[Z.to_nat loc.1 := v]> row) (Z.to_nat loc.2) b.

Definition put_all (b : board) (locs : list location) (v : Z) : board :=
  foldl (fun b' c => put b' c v) b locs.

(** Discs of [player] in a row, and on the board. *)
Fixpoint tally_row (player : Z) (row : list Z) : Z :=
  match row with
  | [] => 0
  | c :: row' => (if c =? player then 1 else 0) + tally_row player row'
  end.

Fixpoint tally (player : Z) (b : board) : Z :=
  match b with
  | [] => 0
  | row :: b' => tally_row player row + tally player b'
  end.

(** The coordinates of the board in scan order: rows top to bottom, each
    row left to right. *)
Definition coords (b : board) : list location :=
  y ← range 0 (length b);
  x ← range 0 (length (default [] (b !! 0%nat)));
  [(x, y)].

(** An empty cell where the player's disc would flip something. *)
Definition legal_move (b : board) (player : Z) (c : location) : Prop :=
  cell b c = Some 0 /\ offsets ≫= contribution b c player <> [].

#[local] Instance legal_move_dec (b : board) (player : Z) (c : location) :
  Decision (legal_move b player c).
Proof. unfold legal_move. apply _. Defined.

(** The order on scores as propositions. *)
Definition le_ext (v w : ext) : Prop :=
  match v, w with
  | NegInf, _ => True
  | _, PosInf => True
  | Fin x, Fin y => x <= y
  | _, _ => False
  end.

Definition lt_ext (v w : ext) : Prop :=
  match v, w with
  | NegInf, NegInf => False
  | NegInf, _ => True
  | Fin x, Fin y => x < y
  | Fin _, PosInf => True
  | _, _ => False
  end.

(** What a pruned call promises about its value [v] when the full-width
    value is [vt] and the caller holds the window [(a, b)]: exact inside
    the window, on the right side of the bound it crosses otherwise. *)
Definition val_ok (a b v vt : ext) : Prop :=
  (lt_ext v b -> le_ext vt v) /\ (lt_ext a v -> le_ext v vt).

(** The same for the running maximum [r] of a loop entered with the
    window [(a, b)], [rt] being the full-width maximum. *)
Definition best_ok (a b r rt : ext) : Prop :=
  (lt_ext a r -> le_ext r rt) /\ (lt_ext r b -> le_ext rt r).

(** State of the pruned loop: [a0] is the alpha the node was entered
    with, [best] and [a] the loop variables, [tb] the full-width maximum
    of the children visited so far. *)
Definition loop_inv (a0 b best a tb : ext) : Prop :=
  le_ext best a /\ lt_ext a b /\ le_ext tb best /\
  (lt_ext a0 best -> tb = best) /\ (a = a0 \/ a = best).

(** The board after [player] has moved at [m]. *)
Definition after (b : board) (player : Z) (m : location) : board :=
  put_all (put b m player) (offsets ≫= contribution b m player) player.

(** The update [get_best_move] applies to [best_move] for one move and
    its score. *)
Definition better (width : Z) (best_move : option location * ext)
    (move : location) (score : ext) : option location * ext :=
  let best1 := if elt best_move.2 score then (Some move, score) else best_move in
  if eeq score best1.2 then
    match best1.1 with
    | None => (Some move, score)
    | Some held =>
        if get_location_type held width <? get_location_type move width
        then (Some move, score)
        else best1
    end
  else best1.

Definition choose (width : Z) (sc : location -> ext) (moves : list location)
    (best_move : option location * ext) : option location * ext :=
  foldl (fun acc m => better width acc m (sc m)) best_move moves.

(** [m'] is preferred to [m]: a greater score, or the same score and a
    greater location class. *)
Definition beats (width : Z) (sc : location -> ext) (m' m : location) : Prop :=
  lt_ext (sc m) (sc m') \/
  (sc m' = sc m /\ get_location_type m width < get_location_type m' width).

(** [best_move] after the moves [pre]: nothing yet, or the first move
    of [pre] that no move of [pre] beats. *)
Definition first_best (width : Z) (sc : location -> ext) (pre : list location)
    (best_move : option location * ext) : Prop :=
  match best_move.1 with
  | None => pre = [] /\ best_move.2 = NegInf
  | Some m =>
      best_move.2 = sc m /\
      exists i : nat, pre !! i = Some m /\
        forall (j : nat) m', pre !! j = Some m' ->
          ~ beats width sc m' m /\ ((j < i)%nat -> beats width sc m m')
  end.

(** The position a Python index denotes in a sequence of [n] elements. *)
Definition py_pos (n : nat) (i : Z) : option nat :=
  let j := if i <? 0 then i + Z.of_nat n else i in
  if j <? 0 then None
  else if j <? Z.of_nat n then Some (Z.to_nat j)
  else None.

(** [m] comes before [m'] in the scan of the board: an earlier row, or
    the same row and an earlier column. *)
Definition scan_before (m m' : location) : Prop :=
  m.2 < m'.2 \/ (m.2 = m'.2 /\ m.1 < m'.1).

(** Every cell is empty, white or black. *)
Definition valid_cells (b : board) : Prop :=
  Forall (Forall (fun v => v = 0 \/ v = 1 \/ v = 2)) b.

#[local] Instance valid_cells_dec (b : board) : Decision (valid_cells b).
Proof. unfold valid_cells. apply _. Defined.

(** The board of side [width] with the four opening discs. *)
Definition start_board (width : Z) : board :=
  let m := width / 2 - 1 in
  put (put (put (put (replicate (Z.to_nat width) (replicate (Z.to_nat width) 0))
                     (m, m) 1) (m + 1, m + 1) 1) (m, m + 1) 2) (m + 1, m) 2.

(** [c] is one of the four cells whose top left corner is [(m, m)], and
    every disc of [b] is on one of them. *)
Definition in_block (m : Z) (c : location) : Prop :=
  m <= c.1 <= m + 1 /\ m <= c.2 <= m + 1.

Definition confined (m : Z) (b : board) : Prop :=
  forall c w, on_board b c = true -> cell b c = Some w -> w <> 0 -> in_block m c.

(** The cell of the starting position of side [width] at [c]. *)
Definition start_cell (width : Z) (c : location) : Z :=
  let m := width / 2 - 1 in
  if decide (c = (m, m) \/ c = (m + 1, m + 1)) then 1
  else if decide (c = (m, m + 1) \/ c = (m + 1, m)) then 2
  else 0.

(** The cell a pair of Python indices denotes on the board: each index
    may count from the end. *)
Definition wrapped (b : board) (loc : location) : option location :=
  j ← py_pos (length b) loc.2;
  i ← py_pos (length (default [] (b !! 0%nat))) loc.1;
  Some (Z.of_nat i, Z.of_nat j).

(** The colour [_swap_player] hands the turn to. *)
Definition other (p : Z) : Z := if p =? 1 then 2 else 1.

(** The side to move once [_set_player p] has looked at the board: [p]
    when it has a move, else the other side when that has one, else
    nobody. *)
Definition mover (b : board) (p : Z) : option Z :=
  match filter (legal_move b p) (coords b) with
  | _ :: _ => Some p
  | [] =>
      match filter (legal_move b (other p)) (coords b) with
      | _ :: _ => Some (other p)
      | [] => None
      end
  end.

(** The text of the banner at the end of a game with [white] and
    [black] discs on the board. *)
Definition victory_text (white black : Z) : string :=
  (if black <? white then "White player wins,"
   else if white <? black then "Black player wins,"
   else "tie game,")
  +:+ " with " +:+ pretty (Z.max white black) +:+ " tokens!".

(** The seat of a colour. *)
Definition seat_of (s : App) (q : Z) : option seat :=
  seats ← App_players s; seats !! Z.to_nat q.

(** The state of a window in play: a rectangular board of cells 0, 1
    and 2, and a seat for each colour, a computer player sitting where
    its identifier says. *)
Definition in_play (s : App) : Prop :=
  rect (App_board s) /\ valid_cells (App_board s) /\
  forall q, q = 1 \/ q = 2 ->
    exists p, seat_of s q = Some p /\
              forall cp, p = Computer cp -> player_ID cp = q.

(** What [_set_player] tells the side [q] that is to move with [moves]:
    a person gets a button for each move, a computer player gets its
    turn scheduled. *)
Definition announce (q : Z) (p : seat) (name : string) (moves : list location)
    (s : App) : App :=
  match p with
  | HumanPlayer =>
      set_buttons (buttons s ++ moves)
        (set_top_banner (name +:+ "'s turn") (set_current_player q s))
  | _ =>
      schedule (set_top_banner (name +:+ " player is thinking...")
                  (set_current_player q s))
  end.

(** Both colours are played by computer players. *)
Definition computers (s : App) : Prop :=
  forall q, q = 1 \/ q = 2 -> exists cp, seat_of s q = Some (Computer cp).

(** The scheduled call of [_do_computer_turn] runs. *)
Definition fire {G : Type} (shuffle_order : G -> nat -> list nat * G) (fuel : nat)
    (st : App * G) : result (App * G) :=
  match scheduled st.1 with
  | O => Ok st
  | S n =>
      _do_computer_turn shuffle_order fuel
        {| App_board := App_board st.1; current_player := current_player st.1;
           App_players := App_players st.1; buttons := buttons st.1;
           top_banner := top_banner st.1; scheduled := n |} st.2
  end.

(** [n] scheduled calls in a row. *)
Fixpoint fire_n {G : Type} (shuffle_order : G -> nat -> list nat * G) (fuel n : nat)
    (st : App * G) : result (App * G) :=
  match n with
  | O => Ok st
  | S n' =>
      let+ st' := fire shuffle_order fuel st in
      fire_n shuffle_order fuel n' st'
  end.

(** The button of [move] is pressed. *)
Definition press (fuel : nat) (move : location) (s : App) : result App :=
  _place_disc fuel move None true s.

(** What the event loop can deliver to the window: the press of a
    button, which calls [_place_disc] with the button's move, or the
    expiry of a timer set by [after].  A press of a button that does not
    exist and an expiry without a timer do not happen and change
    nothing. *)
Inductive event : Type := Press (move : location) | Tick.

Definition handle {G : Type} (shuffle_order : G -> nat -> list nat * G) (fuel : nat)
    (e : event) (st : App * G) : result (App * G) :=
  match e with
  | Press move =>
      if decide (move ∈ buttons st.1) then
        let+ s' := press fuel move st.1 in Ok (s', st.2)
      else Ok st
  | Tick => fire shuffle_order fuel st
  end.

Fixpoint play {G : Type} (shuffle_order : G -> nat -> list nat * G) (fuel : nat)
    (events : list event) (st : App * G) : result (App * G) :=
  match events with
  | [] => Ok st
  | e :: rest =>
      let+ st' := handle shuffle_order fuel e st in
      play shuffle_order fuel rest st'
  end.

(** Each colour is played by a person or by a computer player. *)
Definition seated (s : App) : Prop :=
  forall q, q = 1 \/ q = 2 ->
    seat_of s q = Some HumanPlayer \/ exists cp, seat_of s q = Some (Computer cp).

(** The states between two events of a game: the game is over and
    nothing is pending; or a person is to move and has a button for each
    of its moves; or a computer player is to move and its turn is
    scheduled. *)
Definition ready (s : App) : Prop :=
  in_play s /\ seated s /\
  (current_player s = 1 \/ current_player s = 2) /\
  let b := App_board s in
  let moves := filter (legal_move b (current_player s)) (coords b) in
  (scheduled s = 0%nat /\ buttons s = [] /\ mover b 1 = None) \/
  (moves <> [] /\ seat_of s (current_player s) = Some HumanPlayer /\
   scheduled s = 0%nat /\ buttons s = moves) \/
  (moves <> [] /\ (exists cp, seat_of s (current_player s) = Some (Computer cp)) /\
   scheduled s = 1%nat /\ buttons s = []).

(** The last character of a string, and the strings made of characters
    of [chars] only. *)
Fixpoint last_char (s : string) : option Ascii.ascii :=
  match s with
  | EmptyString => None
  | String c s' =>
      match last_char s' with
      | None => Some c
      | Some l => Some l
      end
  end.

Fixpoint all_in (chars : list Ascii.ascii) (s : string) : Prop :=
  match s with
  | EmptyString => True
  | String c s' => c ∈ chars /\ all_in chars s'
  end.

(** The options of the command line that [parse_command_line_args]
    looks for. *)
Definition options : list string := ["-h"; "--help"; "-f"; "-0"; "-2"; "-l"; "-c"].

(** Occurrences of a character in a string. *)
Fixpoint count_char (c : Ascii.ascii) (s : string) : nat :=
  match s with
  | EmptyString => 0
  | String x s' => (if bool_decide (x = c) then 1 else 0) + count_char c s'
  end.

(** The classes of the cells of a square board of side [w], in the
    words of the rules: a corner (both coordinates are 0 or [w - 1]) is
    worth 3, an edge (exactly one coordinate is 0 or [w - 1]) is worth
    2, an interior cell is worth 1. *)
Definition location_class (w : Z) (c : location) : Z :=
  if decide ((c.1 = 0 \/ c.1 = w - 1) /\ (c.2 = 0 \/ c.2 = w - 1)) then 3
  else if decide ((c.1 = 0 \/ c.1 = w - 1) \/ (c.2 = 0 \/ c.2 = w - 1)) then 2
  else 1.

(** ** Example positions *)

(** The 8x8 starting position. *)
Definition start8 : board :=
  match Othello_start 8 with Done b => b | _ => [] end.

(** White (1) can play (2, 0); black (2) has no move. *)
Definition pass_board : board :=
  [[1; 2; 0; 0]; [1; 1; 1; 1]; [1; 1; 1; 1]; [1; 1; 1; 1]].

(** Black (2) has two moves of the same score, the edge (1, 0) first in
    the scan and the corner (3, 0) after it. *)
Definition tie_board : board :=
  [[0; 0; 0; 0]; [0; 1; 0; 1]; [0; 2; 0; 2]; [0; 0; 0; 0]].

(** The 4x4 starting position. *)
Definition start4 : board :=
  match Othello_start 4 with Done b => b | _ => [] end.

(** A shuffle that reverses and one that keeps the order, on a generator
    without state. *)
Definition rev_order (g : unit) (n : nat) : list nat * unit := (reverse (seq 0 n), g).
Definition id_order (g : unit) (n : nat) : list nat * unit := (seq 0 n, g).

(** Two computer players, and a 4x4 window where black, a computer
    player, has been given the turn. *)
Definition white_cp : ComputerPlayer := {| player_ID := 1; difficulty_level := 1 |}.
Definition black_cp : ComputerPlayer := {| player_ID := 2; difficulty_level := 2 |}.

Definition window4 : App :=
  {| App_board := start4; current_player := 2;
     App_players := Some [NoPlayer; Computer white_cp; Computer black_cp];
     buttons := []; top_banner := "Black player is thinking..."; scheduled := 1 |}.

(** * Properties *)

(** ** Indexing and the board accessors *)

Lemma bind_Done {A B : Type} (m : outcome A) (k : A -> outcome B) (r : B) :
  bind m k = Done r -> exists a, m = Done a /\ k a = Done r.
Proof. destruct m; simpl; intros H; try discriminate. eauto. Qed.

Lemma py_index_nonneg {A : Type} (l : list A) (i : Z) :
  0 <= i ->
  py_index l i = match l !! Z.to_nat i with Some v => Done v | None => Raise IndexError end.
Proof.
  intros Hi. unfold py_index.
  destruct (Z.ltb_spec i 0); [lia|].
  destruct (Z.ltb_spec i 0); [lia|]. reflexivity.
Qed.

Lemma py_setitem_nonneg {A : Type} (l : list A) (i : Z) (v : A) :
  0 <= i < len l -> py_setitem l i v = Done (<[Z.to_nat i := v]> l).
Proof.
  intros Hi. unfold py_setitem.
  destruct (Z.ltb_spec i 0); [lia|].
  destruct (Z.ltb_spec i 0); [lia|].
  destruct (Z.ltb_spec i (len l)); [reflexivity|lia].
Qed.

Lemma is_on_board_eq (b : board) (loc : location) :
  is_on_board b loc = Done (on_board b loc).
Proof.
  unfold is_on_board, on_board.
  destruct (Z.leb_spec 0 loc.1); simpl; [|reflexivity].
  destruct (Z.leb_spec 0 loc.2); simpl; [|reflexivity].
  destruct (Z.leb_spec (loc.2 + 1) (len b)); simpl; [|reflexivity].
  rewrite py_index_nonneg by lia. simpl.
  destruct b as [|row0 b']; [unfold len in *; simpl in *; lia|].
  reflexivity.
Qed.

Lemma on_board_spec (b : board) (loc : location) :
  on_board b loc = true <->
  0 <= loc.1 < len (default [] (b !! 0%nat)) /\ 0 <= loc.2 < len b.
Proof.
  unfold on_board. rewrite !andb_true_iff, !Z.leb_le. lia.
Qed.

Lemma rect_row (b : board) (i : nat) (row : list Z) :
  rect b -> b !! i = Some row -> length row = length (default [] (b !! 0%nat)).
Proof.
  intros Hr Hi. unfold rect in Hr. rewrite Forall_lookup in Hr. eauto.
Qed.

Lemma on_board_cell (b : board) (loc : location) :
  rect b -> on_board b loc = true ->
  exists row v, b !! Z.to_nat loc.2 = Some row /\
                row !! Z.to_nat loc.1 = Some v /\
                cell b loc = Some v.
Proof.
  intros Hr Hon. apply on_board_spec in Hon as [Hx Hy]. unfold len in *.
  destruct (lookup_lt_is_Some_2 b (Z.to_nat loc.2)) as [row Hrow]; [lia|].
  pose proof (rect_row _ _ _ Hr Hrow) as Hlen.
  destruct (lookup_lt_is_Some_2 row (Z.to_nat loc.1)) as [v Hv]; [lia|].
  exists row, v. unfold cell. rewrite Hrow. simpl. auto.
Qed.

Lemma probe_off (b : board) (t : location) :
  on_board b t = false -> probe b t = Done None.
Proof. intros H. unfold probe. rewrite is_on_board_eq. simpl. rewrite H. reflexivity. Qed.

Lemma probe_on (b : board) (t : location) :
  rect b -> on_board b t = true ->
  exists v, cell b t = Some v /\ probe b t = Done (Some v).
Proof.
  intros Hr Hon. destruct (on_board_cell _ _ Hr Hon) as (row & v & Hrow & Hv & Hc).
  exists v. split; [assumption|].
  apply on_board_spec in Hon as [Hx Hy].
  unfold probe. rewrite is_on_board_eq. simpl.
  assert (on_board b t = true) as -> by (apply on_board_spec; lia). simpl.
  rewrite py_index_nonneg by lia. rewrite Hrow. simpl.
  rewrite py_index_nonneg by lia. rewrite Hv. reflexivity.
Qed.

Lemma walk_unfold (fuel : nat) (b : board) (player x y : Z) (t : location)
    (flip : list location) :
  walk (S fuel) b player x y t flip =
  let* o := probe b t in
  match o with
  | None => Done []
  | Some tile =>
      if tile =? 0 then Done []
      else if tile =? player then Done flip
      else walk fuel b player x y (t.1 + x, t.2 + y) (flip ++ [t])
  end.
Proof.
  simpl. unfold probe.
  destruct (is_on_board b t) as [on| |]; simpl; try reflexivity.
  destruct on; simpl; [|reflexivity].
  destruct (py_index b t.2) as [row| |]; simpl; try reflexivity.
  destruct (py_index row t.1) as [tile| |]; simpl; reflexivity.
Qed.

(** ** Termination of the walks *)

Lemma probe_cases (b : board) (t : location) :
  (on_board b t = false /\ probe b t = Done None) \/
  (on_board b t = true /\
   ((exists tile, probe b t = Done (Some tile)) \/ probe b t = Raise IndexError)).
Proof.
  destruct (on_board b t) eqn:Hon.
  - right. split; [reflexivity|].
    unfold probe. rewrite is_on_board_eq, Hon. simpl.
    apply on_board_spec in Hon as [Hx Hy].
    rewrite py_index_nonneg by lia.
    destruct (b !! Z.to_nat t.2) as [row|]; simpl; [|auto].
    rewrite py_index_nonneg by lia.
    destruct (row !! Z.to_nat t.1) as [v|]; simpl; eauto.
  - left. split; [reflexivity|]. apply probe_off. assumption.
Qed.

Lemma reach_on_board (b : board) (d : Z * Z) (t : location) :
  compass d -> on_board b t = true ->
  1 <= reach b d t < Z.of_nat (S (length b + length (default [] (b !! 0%nat)))).
Proof.
  intros (Hx & Hy & Hne) Hon. apply on_board_spec in Hon. unfold len in *.
  unfold reach, len.
  destruct (Z.eqb_spec d.1 1); [lia|].
  destruct (Z.eqb_spec d.1 (-1)); [lia|].
  destruct (Z.eqb_spec d.2 1); [lia|].
  assert (d.1 = 0) by lia.
  assert (d.2 <> 0) by (intros ?; apply Hne; destruct d; simpl in *; congruence).
  lia.
Qed.

Lemma reach_ahead (b : board) (d : Z * Z) (t : location) :
  compass d -> reach b d (t.1 + d.1, t.2 + d.2) = reach b d t - 1.
Proof.
  intros (Hx & Hy & Hne). unfold reach. simpl.
  destruct (Z.eqb_spec d.1 1); [lia|].
  destruct (Z.eqb_spec d.1 (-1)); [lia|].
  destruct (Z.eqb_spec d.2 1); [lia|].
  assert (d.1 = 0) by lia.
  assert (d.2 <> 0) by (intros ?; apply Hne; destruct d; simpl in *; congruence).
  lia.
Qed.

(** Along a compass offset the walk leaves the board before the fuel
    runs out, whatever the board holds. *)
Lemma walk_compass_no_timeout (b : board) (player x y : Z) :
  compass (x, y) ->
  forall (fuel : nat) (t : location) (flip : list location),
    (1 <= fuel)%nat ->
    (on_board b t = true -> reach b (x, y) t < Z.of_nat fuel) ->
    walk fuel b player x y t flip <> Timeout.
Proof.
  intros Hc. induction fuel as [|fuel IH]; intros t flip Hpos Hreach; [lia|].
  rewrite walk_unfold.
  destruct (probe_cases b t) as [[Hoff ->]|[Hon [[tile ->]| ->]]]; simpl; try discriminate.
  destruct (tile =? 0); [discriminate|].
  destruct (tile =? player); [discriminate|].
  specialize (Hreach Hon).
  pose proof (reach_on_board b (x, y) t Hc Hon) as Hr.
  apply IH; [lia|].
  intros _. pose proof (reach_ahead b (x, y) t Hc) as He. simpl in He. lia.
Qed.

(** Once a walk has an outcome, more fuel does not change it. *)
Lemma walk_mono (b : board) (player x y : Z) :
  forall (fuel fuel' : nat) (t : location) (flip : list location),
    (fuel <= fuel')%nat ->
    walk fuel b player x y t flip <> Timeout ->
    walk fuel' b player x y t flip = walk fuel b player x y t flip.
Proof.
  induction fuel as [|fuel IH]; intros fuel' t flip Hle Hnt; [simpl in Hnt; congruence|].
  destruct fuel' as [|fuel']; [lia|].
  rewrite !walk_unfold in *.
  destruct (probe b t) as [[tile|]| |]; simpl in *; try reflexivity.
  destruct (tile =? 0); [reflexivity|].
  destruct (tile =? player); [reflexivity|].
  apply IH; [lia|assumption].
Qed.

(** The centre offset never moves: its walk stops at once or never. *)
Lemma walk_centre (b : board) (player : Z) (t : location) :
  forall (fuel : nat) (flip : list location),
    walk (S fuel) b player 0 0 t flip =
    let* o := probe b t in
    match o with
    | None => Done []
    | Some tile =>
        if tile =? 0 then Done []
        else if tile =? player then Done flip
        else Timeout
    end.
Proof.
  assert (Ht : (t.1 + 0, t.2 + 0) = t) by (destruct t; simpl; f_equal; lia).
  induction fuel as [|fuel IH]; intros flip; rewrite walk_unfold.
  - destruct (probe b t) as [[tile|]| |]; simpl; try reflexivity.
  - destruct (probe b t) as [[tile|]| |] eqn:Hp; cbn [bind]; try reflexivity.
    destruct (tile =? 0) eqn:H0; [reflexivity|].
    destruct (tile =? player) eqn:H1; [reflexivity|].
    rewrite Ht, IH. cbn [bind]. rewrite H0, H1. reflexivity.
Qed.

Lemma offsets_cases (d : Z * Z) :
  d ∈ offsets -> d = (0, 0) \/ compass d.
Proof.
  intros Hd. unfold offsets in Hd. cbn in Hd.
  repeat (apply elem_of_cons in Hd as [->|Hd];
          [first [left; reflexivity
                 |right; unfold compass; simpl; repeat split; (lia || discriminate)]|]).
  inversion Hd.
Qed.

(** Any fuel from [walk_bound] on gives a walk the same outcome. *)
Lemma walk_stable (b : board) (player : Z) (d : Z * Z) (t : location)
    (flip : list location) (fuel : nat) :
  d ∈ offsets -> (walk_bound b <= fuel)%nat ->
  walk fuel b player d.1 d.2 t flip = walk (walk_bound b) b player d.1 d.2 t flip.
Proof.
  intros Hd Hle. destruct (offsets_cases d Hd) as [->|Hc].
  - cbn [fst snd]. destruct fuel as [|fuel]; [unfold walk_bound in Hle; lia|].
    unfold walk_bound. rewrite !walk_centre. reflexivity.
  - apply walk_mono; [assumption|].
    destruct d as [x y]. apply walk_compass_no_timeout; [assumption|unfold walk_bound; lia|].
    intros Hon. cbn [fst snd].
    pose proof (reach_on_board b (x, y) t Hc Hon). unfold walk_bound. lia.
Qed.

Lemma flipped_loop_stable (b : board) (loc : location) (player : Z) (fuel : nat) :
  (walk_bound b <= fuel)%nat ->
  forall (offs : list (Z * Z)) (flipped : list location),
    (forall d, d ∈ offs -> d ∈ offsets) ->
    flipped_loop fuel b loc player offs flipped =
    flipped_loop (walk_bound b) b loc player offs flipped.
Proof.
  intros Hle. induction offs as [|[x y] offs IH]; intros flipped Hin; [reflexivity|].
  cbn [flipped_loop].
  pose proof (walk_stable b player (x, y) (loc.1 + x, loc.2 + y) [] fuel) as Hw.
  cbn [fst snd] in Hw. rewrite Hw by (auto; apply Hin; left).
  destruct (walk (walk_bound b) b player x y _ []); cbn [bind]; try reflexivity.
  apply IH. intros d Hd. apply Hin. right. assumption.
Qed.

(** [get_flipped] stands for every run with enough fuel: beyond
    [walk_bound] the outcome, [Timeout] included, no longer depends on the
    fuel. *)
Lemma get_flipped_fuel_stable (b : board) (loc : location) (player : Z) (fuel : nat) :
  (walk_bound b <= fuel)%nat ->
  get_flipped_fuel fuel b loc player = get_flipped b loc player.
Proof.
  intros Hle. unfold get_flipped, get_flipped_fuel.
  apply flipped_loop_stable; auto.
Qed.

(** ** What a walk returns on a rectangular board *)

Lemma ahead_0 (t : location) (d : Z * Z) : ahead t d 0 = t.
Proof. destruct t as [tx ty]. unfold ahead. simpl. f_equal; lia. Qed.

Lemma ahead_S (t : location) (d : Z * Z) (j : nat) :
  ahead t d (Z.of_nat (S j)) = ahead (t.1 + d.1, t.2 + d.2) d (Z.of_nat j).
Proof. unfold ahead. simpl fst. simpl snd. f_equal; lia. Qed.

Lemma walk_rect (b : board) (player x y : Z) :
  rect b -> compass (x, y) ->
  forall (fuel : nat) (t : location) (flip : list location),
    (1 <= fuel)%nat ->
    (on_board b t = true -> reach b (x, y) t < Z.of_nat fuel) ->
    exists r, walk fuel b player x y t flip = Done r /\
              walk_result b player (x, y) t flip r.
Proof.
  intros Hr Hc. induction fuel as [|fuel IH]; intros t flip Hpos Hreach; [lia|].
  rewrite walk_unfold.
  destruct (on_board b t) eqn:Hon.
  - destruct (probe_on b t Hr Hon) as (v & Hv & ->). cbn [bind].
    destruct (Z.eqb_spec v 0) as [->|Hv0].
    { exists []. split; [reflexivity|]. exists 0%nat. split; [intros; lia|].
      left. rewrite ahead_0. split; [right; assumption|reflexivity]. }
    destruct (Z.eqb_spec v player) as [->|Hvp].
    { exists flip. split; [reflexivity|]. exists 0%nat. split; [intros; lia|].
      right. rewrite ahead_0. simpl. rewrite app_nil_r. auto. }
    specialize (Hreach eq_refl).
    pose proof (reach_on_board b (x, y) t Hc Hon) as Hrb.
    pose proof (reach_ahead b (x, y) t Hc) as Hra. cbn [fst snd] in Hra.
    destruct (IH (t.1 + x, t.2 + y) (flip ++ [t])) as (r & Hw & n & Hopp & Hend);
      [lia|intros _; lia|].
    exists r. split; [assumption|]. exists (S n). split.
    + intros [|j] Hj.
      * rewrite ahead_0. split; [assumption|]. exists v. repeat split; assumption.
      * rewrite ahead_S. apply Hopp. lia.
    + rewrite ahead_S. cbn [fst snd].
      destruct Hend as [[Ho ->]|(Hon' & Hc' & Hp & ->)]; [left; auto|].
      right. repeat split; try assumption.
      rewrite <- app_assoc. f_equal. cbn [seq map app]. rewrite ahead_0. f_equal.
      rewrite <- seq_shift, map_map. apply map_ext. intros j. symmetry. apply ahead_S.
  - rewrite (probe_off b t Hon). cbn [bind].
    exists []. split; [reflexivity|]. exists 0%nat. split; [intros; lia|].
    left. rewrite ahead_0. split; [left; assumption|reflexivity].
Qed.

(** ** The flip set on a rectangular board *)

Lemma flips_along_compass (b : board) (loc : location) (player : Z) (d : Z * Z) :
  rect b -> compass d ->
  flips_along b loc player d = Done (contribution b loc player d) /\
  walk_result b player d (ahead loc d 1) [] (contribution b loc player d).
Proof.
  intros Hr Hc. destruct d as [x y].
  destruct (walk_rect b player x y Hr Hc (walk_bound b) (loc.1 + x, loc.2 + y) [])
    as (r & Hw & Hres).
  - unfold walk_bound. lia.
  - intros Hon. pose proof (reach_on_board b (x, y) _ Hc Hon). unfold walk_bound. lia.
  - unfold contribution, flips_along. cbn [fst snd]. rewrite Hw. split; [reflexivity|].
    replace (ahead loc (x, y) 1) with (loc.1 + x, loc.2 + y); [assumption|].
    unfold ahead. cbn [fst snd]. f_equal; lia.
Qed.

Lemma flips_along_centre (b : board) (loc : location) (player : Z) :
  rect b -> settled b player loc ->
  flips_along b loc player (0, 0) = Done [] /\ contribution b loc player (0, 0) = [].
Proof.
  intros Hr Hs.
  assert (flips_along b loc player (0, 0) = Done []) as H.
  { unfold flips_along, walk_bound. cbn [fst snd]. rewrite walk_centre.
    replace (loc.1 + 0, loc.2 + 0) with loc by (destruct loc; simpl; f_equal; lia).
    destruct (on_board b loc) eqn:Hon.
    - destruct (probe_on b loc Hr Hon) as (v & Hv & ->). cbn [bind].
      destruct Hs as [Hs|[Hs|Hs]]; [congruence| |];
        rewrite Hv in Hs; injection Hs as ->; [reflexivity|].
      rewrite Z.eqb_refl. destruct (player =? 0); reflexivity.
    - rewrite (probe_off b loc Hon). reflexivity. }
  split; [assumption|]. unfold contribution. rewrite H. reflexivity.
Qed.

Lemma flipped_loop_bind (b : board) (loc : location) (player : Z) :
  forall (offs : list (Z * Z)) (flipped : list location),
    (forall d, d ∈ offs -> flips_along b loc player d = Done (contribution b loc player d)) ->
    flipped_loop (walk_bound b) b loc player offs flipped =
    Done (flipped ++ (offs ≫= contribution b loc player)).
Proof.
  induction offs as [|[x y] offs IH]; intros flipped Hall.
  - simpl. rewrite app_nil_r. reflexivity.
  - cbn [flipped_loop]. pose proof (Hall (x, y) ltac:(left)) as H.
    unfold flips_along in H. cbn [fst snd] in H. rewrite H. cbn [bind].
    rewrite IH by (intros d Hd; apply Hall; right; assumption).
    rewrite <- app_assoc. reflexivity.
Qed.

(** On a rectangular board, from a settled coordinate, [get_flipped]
    returns the contributions of the nine offsets in order. *)
Lemma get_flipped_rect (b : board) (loc : location) (player : Z) :
  rect b -> settled b player loc ->
  get_flipped b loc player = Done (offsets ≫= contribution b loc player).
Proof.
  intros Hr Hs. unfold get_flipped, get_flipped_fuel.
  rewrite flipped_loop_bind; [reflexivity|].
  intros d Hd. destruct (offsets_cases d Hd) as [->|Hc].
  - destruct (flips_along_centre b loc player Hr Hs) as [-> ->]. reflexivity.
  - apply flips_along_compass; assumption.
Qed.

(** The elements of one contribution, counted from [loc]. *)
Lemma contribution_elem (b : board) (loc : location) (player : Z) (d : Z * Z)
    (c : location) :
  rect b -> compass d -> c ∈ contribution b loc player d ->
  exists n k, sandwich b player loc d n /\ 1 <= k < n /\ c = ahead loc d k.
Proof.
  intros Hr Hc Hin.
  destruct (flips_along_compass b loc player d Hr Hc) as [_ (n & Hopp & Hend)].
  assert (Hsh : forall j : nat, ahead (ahead loc d 1) d (Z.of_nat j) = ahead loc d (Z.of_nat j + 1)).
  { intros j. unfold ahead. cbn [fst snd]. f_equal; lia. }
  destruct Hend as [[_ He]|(Hon & Hp & _ & He)]; rewrite He in Hin.
  - inversion Hin.
  - cbn [app] in Hin. apply list_elem_of_fmap in Hin as (j & -> & Hj).
    apply elem_of_seq in Hj.
    exists (Z.of_nat n + 1), (Z.of_nat j + 1). split; [|split; [lia|apply Hsh]].
    split; [lia|]. split; [|rewrite <- Hsh; auto].
    intros i Hi. replace i with (Z.of_nat (Z.to_nat (i - 1)) + 1) by lia.
    rewrite <- Hsh. apply Hopp. lia.
Qed.

Lemma offsets_NoDup : NoDup offsets.
Proof. apply (bool_decide_unpack _). vm_compute. exact I. Qed.

Lemma ahead_ahead_1 (loc : location) (d : Z * Z) (j : Z) :
  ahead (ahead loc d 1) d j = ahead loc d (j + 1).
Proof. unfold ahead. cbn [fst snd]. f_equal; lia. Qed.

(** A run of opposing discs that ends off the board or on an empty cell
    gives nothing. *)
Lemma contribution_open (b : board) (loc : location) (player : Z) (d : Z * Z) (m : Z) :
  rect b -> compass d -> 1 <= m ->
  (forall j, 1 <= j < m -> opposing_at b player (ahead loc d j)) ->
  open_end b (ahead loc d m) ->
  contribution b loc player d = [].
Proof.
  intros Hr Hc Hm Hrun Hopen.
  destruct (flips_along_compass b loc player d Hr Hc) as [_ (n & Hopp & Hend)].
  destruct Hend as [[_ He]|(Hon & Hp & Hp0 & He)]; [assumption|exfalso].
  rewrite ahead_ahead_1 in Hon, Hp.
  destruct (Z.lt_trichotomy (Z.of_nat n + 1) m) as [Hlt|[Heq|Hgt]].
  - destruct (Hrun (Z.of_nat n + 1)) as (_ & v & Hv & _ & Hne); [lia|]. congruence.
  - subst m. destruct Hopen as [Hoff|H0]; congruence.
  - destruct (Hopp (Z.to_nat (m - 1))) as (Hon' & v & Hv & Hv0 & _); [lia|].
    rewrite ahead_ahead_1 in Hon', Hv.
    replace (Z.of_nat (Z.to_nat (m - 1)) + 1) with m in * by lia.
    destruct Hopen as [Hoff|H0]; congruence.
Qed.

(** A disc of the player right next to the coordinate gives nothing. *)
Lemma contribution_adjacent (b : board) (loc : location) (player : Z) (d : Z * Z) :
  rect b -> compass d ->
  cell b (ahead loc d 1) = Some player ->
  contribution b loc player d = [].
Proof.
  intros Hr Hc Hadj.
  destruct (flips_along_compass b loc player d Hr Hc) as [_ (n & Hopp & Hend)].
  destruct Hend as [[_ He]|(Hon & Hp & Hp0 & He)]; [assumption|].
  destruct n as [|n]; [assumption|exfalso].
  destruct (Hopp 0%nat) as (_ & v & Hv & _ & Hne); [lia|].
  rewrite ahead_0 in Hv. congruence.
Qed.

Lemma no_raise_walk (b : board) (player x y : Z) :
  rect b ->
  forall (fuel : nat) (t : location) (flip : list location) (e : exn),
    walk fuel b player x y t flip <> Raise e.
Proof.
  intros Hr. induction fuel as [|fuel IH]; intros t flip e; [discriminate|].
  rewrite walk_unfold.
  destruct (on_board b t) eqn:Hon.
  - destruct (probe_on b t Hr Hon) as (v & _ & ->). cbn [bind].
    destruct (v =? 0); [discriminate|]. destruct (v =? player); [discriminate|]. apply IH.
  - rewrite (probe_off b t Hon). discriminate.
Qed.

(** On a disc that is neither empty nor the player's, the centre offset
    keeps [get_flipped] in its loop whatever the fuel. *)
Lemma get_flipped_opposing_diverges (b : board) (loc : location) (player : Z) :
  rect b -> opposing_at b player loc ->
  forall fuel : nat, get_flipped_fuel fuel b loc player = Timeout.
Proof.
  intros Hr (Hon & v & Hv & Hv0 & Hvp) fuel. unfold get_flipped_fuel.
  assert (Hcentre : forall flip, walk fuel b player 0 0 (loc.1 + 0, loc.2 + 0) flip = Timeout).
  { intros flip. destruct fuel as [|fuel]; [reflexivity|]. rewrite walk_centre.
    replace (loc.1 + 0, loc.2 + 0) with loc by (destruct loc; simpl; f_equal; lia).
    destruct (probe_on b loc Hr Hon) as (v' & Hv' & ->). cbn [bind].
    assert (v' = v) as -> by congruence.
    destruct (Z.eqb_spec v 0); [contradiction|].
    destruct (Z.eqb_spec v player); [contradiction|]. reflexivity. }
  assert (Hloop : forall offs flipped,
             (0, 0) ∈ offs -> flipped_loop fuel b loc player offs flipped = Timeout).
  { induction offs as [|[x y] offs IH]; intros flipped Hin; [inversion Hin|].
    cbn [flipped_loop]. apply elem_of_cons in Hin as [Heq|Hin].
    - injection Heq as <- <-. rewrite Hcentre. reflexivity.
    - destruct (walk fuel b player x y (loc.1 + x, loc.2 + y) []) eqn:Hw; cbn [bind].
      + apply IH. assumption.
      + exfalso. exact (no_raise_walk b player x y Hr _ _ _ _ Hw).
      + reflexivity. }
  apply Hloop. apply list_elem_of_In. vm_compute. tauto.
Qed.

(** Every coordinate [get_flipped] returns from a settled coordinate of a
    rectangular board is sandwiched along a compass offset. *)
Lemma flipped_elem (b : board) (player : Z) (loc c : location) :
  rect b -> settled b player loc ->
  c ∈ offsets ≫= contribution b loc player ->
  opposing_at b player c /\
  exists d n k, compass d /\ sandwich b player loc d n /\ 1 <= k < n /\ c = ahead loc d k.
Proof.
  intros Hr Hs Hc. apply list_elem_of_bind in Hc as (d & Hc & Hd).
  destruct (offsets_cases d Hd) as [->|Hcomp].
  - destruct (flips_along_centre b loc player Hr Hs) as [_ He].
    rewrite He in Hc. inversion Hc.
  - destruct (contribution_elem b loc player d c Hr Hcomp Hc) as (n & k & Hsw & Hk & ->).
    split; [|eauto 8].
    destruct Hsw as (_ & Hrun & _). destruct (Hrun k Hk) as [Hon' Hv].
    split; assumption.
Qed.

Lemma rect_start8 : rect start8.
Proof. vm_compute. repeat constructor. Qed.

(** C3 (defect): [get_flipped] visits nine offsets, the centre included.
    On the 8x8 starting position, asked for the flips of black (2) at
    (3, 3), a cell that holds a white disc, the centre walk never leaves
    that cell: no amount of fuel lets [get_flipped] return. *)
Theorem get_flipped_centre_never_returns :
  forall fuel : nat, get_flipped_fuel fuel start8 (3, 3) 2 = Timeout.
Proof.
  apply get_flipped_opposing_diverges; [exact rect_start8|].
  split; [reflexivity|]. exists 1. split; [reflexivity|]. split; discriminate.
Qed.

(** C5: on a rectangular board, for a player 1 or 2 and an empty on-board
    coordinate, [get_flipped] returns; every coordinate it returns lies
    along one of the eight compass offsets, holds an opposing disc, and
    sits strictly between the coordinate and a disc of the player with
    only opposing discs in between; an offset whose run of opposing discs
    ends off the board or on an empty cell, or whose first cell already
    holds the player's disc, contributes nothing. *)
Theorem get_flipped_sandwiched (b : board) (player : Z) (loc : location) :
  rect b -> player = 1 \/ player = 2 ->
  on_board b loc = true -> cell b loc = Some 0 ->
  exists flipped,
    get_flipped b loc player = Done flipped /\
    flipped = offsets ≫= contribution b loc player /\
    (forall c, c ∈ flipped ->
       opposing_at b player c /\
       exists d n k, compass d /\ sandwich b player loc d n /\
                     1 <= k < n /\ c = ahead loc d k) /\
    (forall d, d ∈ offsets ->
       (exists m, 1 <= m /\
                  (forall j, 1 <= j < m -> opposing_at b player (ahead loc d j)) /\
                  open_end b (ahead loc d m)) \/
       cell b (ahead loc d 1) = Some player ->
       contribution b loc player d = []).
Proof.
  intros Hr Hp Hon H0.
  assert (Hs : settled b player loc) by (right; left; assumption).
  exists (offsets ≫= contribution b loc player).
  split; [apply get_flipped_rect; assumption|]. split; [reflexivity|]. split.
  - intros c Hc. apply flipped_elem; assumption.
  - intros d Hd Hcase. destruct (offsets_cases d Hd) as [->|Hcomp].
    + apply flips_along_centre; assumption.
    + destruct Hcase as [(m & Hm & Hrun & Hopen)|Hadj].
      * eapply contribution_open; eassumption.
      * apply contribution_adjacent; assumption.
Qed.

(** ** Writing cells *)

Lemma put_length (b : board) (loc : location) (v : Z) :
  length (put b loc v) = length b.
Proof. unfold put. apply length_alter. Qed.

Lemma put_row_lengths (b : board) (loc : location) (v : Z) :
  map length (put b loc v) = map length b.
Proof.
  unfold put. generalize (Z.to_nat loc.2) as i. induction b as [|row b IH]; intros i.
  - reflexivity.
  - destruct i as [|i]; simpl.
    + rewrite length_insert. reflexivity.
    + f_equal. apply IH.
Qed.

Lemma put_row0 (b : board) (loc : location) (v : Z) :
  length (default [] (put b loc v !! 0%nat)) = length (default [] (b !! 0%nat)).
Proof.
  unfold put. destruct b as [|row b]; [reflexivity|].
  destruct (Z.to_nat loc.2); simpl; [apply length_insert|reflexivity].
Qed.

Lemma rect_put (b : board) (loc : location) (v : Z) :
  rect b -> rect (put b loc v).
Proof.
  unfold rect. rewrite !Forall_lookup. intros Hr i row Hi.
  rewrite put_row0. unfold put in Hi.
  destruct (decide (Z.to_nat loc.2 = i)) as [<-|Hne].
  - rewrite list_lookup_alter_eq in Hi.
    destruct (b !! Z.to_nat loc.2) as [row'|] eqn:Hrow; [|discriminate].
    simpl in Hi. injection Hi as <-. rewrite length_insert. eauto.
  - rewrite list_lookup_alter_ne in Hi by assumption. eauto.
Qed.

Lemma on_board_put (b : board) (loc c : location) (v : Z) :
  on_board (put b loc v) c = on_board b c.
Proof. unfold on_board, len. rewrite put_length, put_row0. reflexivity. Qed.

Lemma walk_bound_put (b : board) (loc : location) (v : Z) :
  walk_bound (put b loc v) = walk_bound b.
Proof. unfold walk_bound. rewrite put_length, put_row0. reflexivity. Qed.

Lemma cell_put_eq (b : board) (loc : location) (v : Z) :
  rect b -> on_board b loc = true -> cell (put b loc v) loc = Some v.
Proof.
  intros Hr Hon. destruct (on_board_cell b loc Hr Hon) as (row & old & Hrow & Hold & _).
  unfold cell, put. rewrite list_lookup_alter_eq, Hrow. simpl.
  apply list_lookup_insert_eq. eapply lookup_lt_Some. eassumption.
Qed.

Lemma cell_put_ne (b : board) (loc c : location) (v : Z) :
  0 <= loc.1 -> 0 <= loc.2 -> 0 <= c.1 -> 0 <= c.2 -> c <> loc ->
  cell (put b loc v) c = cell b c.
Proof.
  intros Hx Hy Hcx Hcy Hne. unfold cell, put.
  destruct (decide (Z.to_nat loc.2 = Z.to_nat c.2)) as [Heq|Hney].
  - rewrite Heq, list_lookup_alter_eq.
    destruct (b !! Z.to_nat c.2) as [row|]; [|reflexivity]. simpl.
    apply list_lookup_insert_ne. intros Hex. apply Hne.
    destruct c, loc. simpl in *. f_equal; lia.
  - rewrite list_lookup_alter_ne by assumption. reflexivity.
Qed.

Lemma set_cell_put (b : board) (loc : location) (v : Z) :
  rect b -> on_board b loc = true -> set_cell b loc v = Done (put b loc v).
Proof.
  intros Hr Hon. destruct (on_board_cell b loc Hr Hon) as (row & old & Hrow & Hold & _).
  pose proof (rect_row b _ row Hr Hrow) as Hlen.
  apply on_board_spec in Hon as [Hx Hy].
  unfold set_cell. rewrite py_index_nonneg by lia. rewrite Hrow. cbn [bind].
  rewrite py_setitem_nonneg by (unfold len in *; lia). cbn [bind].
  rewrite py_setitem_nonneg by lia. f_equal.
  unfold put. revert Hrow. generalize (Z.to_nat loc.2) as i.
  clear. induction b as [|r b IH]; intros i Hrow; [discriminate|].
  destruct i as [|i]; simpl in *.
  - injection Hrow as ->. reflexivity.
  - f_equal. apply IH. assumption.
Qed.

Lemma rect_put_all (b : board) (locs : list location) (v : Z) :
  rect b -> rect (put_all b locs v).
Proof.
  revert b. induction locs as [|c locs IH]; intros b Hr; [assumption|].
  simpl. apply IH. apply rect_put. assumption.
Qed.

Lemma on_board_put_all (b : board) (locs : list location) (c : location) (v : Z) :
  on_board (put_all b locs v) c = on_board b c.
Proof.
  revert b. induction locs as [|l locs IH]; intros b; [reflexivity|].
  simpl. rewrite IH. apply on_board_put.
Qed.

Lemma put_all_row_lengths (b : board) (locs : list location) (v : Z) :
  map length (put_all b locs v) = map length b.
Proof.
  revert b. induction locs as [|l locs IH]; intros b; [reflexivity|].
  simpl. rewrite IH. apply put_row_lengths.
Qed.

Lemma flip_all_put_all (b : board) (locs : list location) (v : Z) :
  rect b -> (forall c, c ∈ locs -> on_board b c = true) ->
  flip_all b locs v = Done (put_all b locs v).
Proof.
  revert b. induction locs as [|c locs IH]; intros b Hr Hon; [reflexivity|].
  cbn [flip_all]. rewrite set_cell_put by (auto; apply Hon; left). cbn [bind].
  apply IH; [apply rect_put; assumption|].
  intros c' Hc'. rewrite on_board_put. apply Hon. right. assumption.
Qed.

Lemma cell_put_all (b : board) (locs : list location) (c : location) (v : Z) :
  rect b -> on_board b c = true ->
  (forall l, l ∈ locs -> on_board b l = true) ->
  cell (put_all b locs v) c = if decide (c ∈ locs) then Some v else cell b c.
Proof.
  revert b. induction locs as [|l locs IH]; intros b Hr Hc Hon.
  - simpl. destruct (decide (c ∈ [])) as [Hin|_]; [inversion Hin|reflexivity].
  - cbn [put_all foldl]. fold (put_all (put b l v) locs v).
    assert (Hl : on_board b l = true) by (apply Hon; left).
    rewrite IH; [|apply rect_put; assumption|rewrite on_board_put; assumption|
                 intros l' Hl'; rewrite on_board_put; apply Hon; right; assumption].
    destruct (decide (c ∈ locs)) as [Hin|Hnin].
    + rewrite decide_True by (right; assumption). reflexivity.
    + destruct (decide (c = l)) as [->|Hne].
      * rewrite decide_True by left. apply cell_put_eq; assumption.
      * rewrite decide_False by (intros Hin; apply elem_of_cons in Hin as [?|?]; contradiction).
        apply on_board_spec in Hc, Hl. apply cell_put_ne; tauto || lia.
Qed.

(** ** Playing a move *)

Lemma play_move_rect (b : board) (player : Z) (loc : location) :
  rect b -> on_board b loc = true ->
  let flipped := offsets ≫= contribution (put b loc player) loc player in
  get_flipped (put b loc player) loc player = Done flipped /\
  play_move b loc player = Done (put_all (put b loc player) flipped player) /\
  (forall c, c ∈ flipped -> on_board b c = true).
Proof.
  intros Hr Hon flipped.
  assert (Hr1 : rect (put b loc player)) by (apply rect_put; assumption).
  assert (Hs : settled (put b loc player) player loc).
  { right; right. apply cell_put_eq; assumption. }
  assert (Hfl : get_flipped (put b loc player) loc player = Done flipped)
    by (apply get_flipped_rect; assumption).
  assert (Hin : forall c, c ∈ flipped -> on_board (put b loc player) c = true).
  { intros c Hc. destruct (flipped_elem _ _ _ _ Hr1 Hs Hc) as [[Hon' _] _]. assumption. }
  split; [assumption|]. split.
  - unfold play_move. rewrite set_cell_put by assumption. cbn [bind].
    rewrite Hfl. cbn [bind]. apply flip_all_put_all; assumption.
  - intros c Hc. rewrite <- (on_board_put b loc c player). auto.
Qed.

(** C10: on a rectangular board and for an on-board coordinate,
    [play_move] returns a board of the same dimensions in which the cell
    at the coordinate and the cells of the flip set it computed (the
    value of [get_flipped] once the disc is placed) hold the player, and
    every other cell holds what it held before. *)
Theorem play_move_frame (b : board) (player : Z) (loc : location) :
  rect b -> player = 1 \/ player = 2 -> on_board b loc = true ->
  exists b' flipped,
    play_move b loc player = Done b' /\
    get_flipped (put b loc player) loc player = Done flipped /\
    (forall c, on_board b c = true ->
       cell b' c = if decide (c = loc \/ c ∈ flipped) then Some player else cell b c) /\
    map length b' = map length b.
Proof.
  intros Hr _ Hon.
  destruct (play_move_rect b player loc Hr Hon) as (Hfl & Hpm & Hin).
  set (flipped := offsets ≫= contribution (put b loc player) loc player) in *.
  exists (put_all (put b loc player) flipped player), flipped.
  split; [assumption|]. split; [assumption|]. split.
  - intros c Hc.
    rewrite cell_put_all;
      [|apply rect_put; assumption|rewrite on_board_put; assumption|
       intros l Hl; rewrite on_board_put; auto].
    destruct (decide (c ∈ flipped)) as [Hcf|Hcf].
    + rewrite decide_True by (right; assumption). reflexivity.
    + destruct (decide (c = loc)) as [->|Hne].
      * rewrite decide_True by (left; reflexivity). apply cell_put_eq; assumption.
      * rewrite decide_False by tauto.
        apply on_board_spec in Hc, Hon. apply cell_put_ne; tauto || lia.
  - rewrite put_all_row_lengths. apply put_row_lengths.
Qed.

(** ** Counting discs *)

Lemma get_state_value_tally (b : board) (player : Z) :
  get_state_value b player = tally player b.
Proof.
  unfold get_state_value.
  assert (Hrow : forall row acc,
             foldl (fun value cell => if cell =? player then value + 1 else value) acc row
             = acc + tally_row player row).
  { induction row as [|c row IH]; intros acc; simpl; [lia|].
    rewrite IH. destruct (c =? player); lia. }
  assert (Hb : forall b acc,
             foldl (fun value row =>
                      foldl (fun value cell => if cell =? player then value + 1 else value)
                            value row) acc b
             = acc + tally player b).
  { clear b. induction b as [|row b IH]; intros acc; simpl; [lia|].
    rewrite IH, Hrow. lia. }
  rewrite Hb. lia.
Qed.

Lemma tally_row_insert (player : Z) (row : list Z) (i : nat) (old v : Z) :
  row !! i = Some old ->
  tally_row player (<[i := v]> row) =
  tally_row player row - (if old =? player then 1 else 0) + (if v =? player then 1 else 0).
Proof.
  revert i. induction row as [|c row IH]; intros i Hi; [discriminate|].
  destruct i as [|i]; simpl in *.
  - injection Hi as ->. lia.
  - rewrite (IH i Hi). lia.
Qed.

Lemma tally_put (player : Z) (b : board) (loc : location) (old v : Z) :
  cell b loc = Some old ->
  tally player (put b loc v) =
  tally player b - (if old =? player then 1 else 0) + (if v =? player then 1 else 0).
Proof.
  unfold cell, put. generalize (Z.to_nat loc.2) as i.
  induction b as [|row b IH]; intros i Hc; [discriminate|].
  destruct i as [|i]; simpl in *.
  - rewrite (tally_row_insert player row _ old v Hc). lia.
  - pose proof (IH i Hc) as IHi. unfold alter in IHi. lia.
Qed.

Lemma tally_put_all (player : Z) (locs : list location) :
  forall b : board,
    rect b -> NoDup locs ->
    (forall c, c ∈ locs ->
       on_board b c = true /\ exists old, cell b c = Some old /\ old <> player) ->
    tally player (put_all b locs player) = tally player b + len locs.
Proof.
  induction locs as [|c locs IH]; intros b Hr Hnd Hall; [simpl; unfold len; simpl; lia|].
  cbn [put_all foldl]. fold (put_all (put b c player) locs player).
  apply NoDup_cons in Hnd as [Hnin Hnd].
  destruct (Hall c ltac:(left)) as (Hon & old & Hold & Hne).
  rewrite IH; [|apply rect_put; assumption|assumption|].
  - rewrite (tally_put player b c old player Hold), Z.eqb_refl.
    destruct (Z.eqb_spec old player); [contradiction|].
    unfold len. simpl length. lia.
  - intros c' Hc'. destruct (Hall c' ltac:(right; assumption)) as (Hon' & old' & Hold' & Hne').
    rewrite on_board_put. split; [assumption|]. exists old'. split; [|assumption].
    rewrite <- Hold'. apply on_board_spec in Hon, Hon'.
    apply cell_put_ne; try tauto || lia. intros ->. contradiction.
Qed.

(** ** Geometry of the compass offsets *)

Lemma compass_cases (d : Z * Z) :
  compass d ->
  (d.1 = -1 \/ d.1 = 0 \/ d.1 = 1) /\ (d.2 = -1 \/ d.2 = 0 \/ d.2 = 1) /\
  (d.1 <> 0 \/ d.2 <> 0).
Proof.
  intros (Hx & Hy & Hne). repeat split; try lia.
  destruct (Z.eq_dec d.1 0) as [H1|H1]; [|left; assumption].
  right. intros H2. apply Hne. destruct d. simpl in *. congruence.
Qed.

Lemma ahead_apart (loc : location) (d : Z * Z) (k : Z) :
  compass d -> 1 <= k -> ahead loc d k <> loc.
Proof.
  intros Hc Hk Heq. apply compass_cases in Hc as (Hx & Hy & Hne).
  destruct loc as [lx ly]. unfold ahead in Heq. cbn [fst snd] in Heq.
  injection Heq as Ex Ey. nia.
Qed.

Lemma ahead_inj (loc : location) (d1 d2 : Z * Z) (k1 k2 : Z) :
  compass d1 -> compass d2 -> 1 <= k1 -> 1 <= k2 ->
  ahead loc d1 k1 = ahead loc d2 k2 -> d1 = d2 /\ k1 = k2.
Proof.
  intros Hc1 Hc2 Hk1 Hk2 Heq.
  apply compass_cases in Hc1 as (Hx1 & Hy1 & Hne1).
  apply compass_cases in Hc2 as (Hx2 & Hy2 & Hne2).
  destruct d1 as [x1 y1], d2 as [x2 y2]. unfold ahead in Heq. cbn [fst snd] in *.
  injection Heq as Ex Ey.
  assert (k1 * x1 = k2 * x2) as Ex' by lia.
  assert (k1 * y1 = k2 * y2) as Ey' by lia. clear Ex Ey.
  destruct Hx1 as [-> | [-> | ->]], Hy1 as [-> | [-> | ->]],
           Hx2 as [-> | [-> | ->]], Hy2 as [-> | [-> | ->]];
    try lia; split; try f_equal; lia.
Qed.

(** ** The flip set before and after the disc is placed *)

Lemma probe_put (b : board) (loc t : location) (v : Z) :
  rect b -> on_board b loc = true -> t <> loc ->
  probe (put b loc v) t = probe b t.
Proof.
  intros Hr Hon Hne. destruct (on_board b t) eqn:Ht.
  - destruct (probe_on b t Hr Ht) as (w & Hw & ->).
    destruct (probe_on (put b loc v) t) as (w' & Hw' & ->);
      [apply rect_put; assumption|rewrite on_board_put; assumption|].
    apply on_board_spec in Hon, Ht.
    rewrite cell_put_ne in Hw' by (tauto || lia). congruence.
  - rewrite !probe_off; [reflexivity|assumption|rewrite on_board_put; assumption].
Qed.

Lemma walk_put (b : board) (loc : location) (player v x y : Z) :
  rect b -> on_board b loc = true -> compass (x, y) ->
  forall (fuel : nat) (k : Z) (flip : list location),
    1 <= k ->
    walk fuel (put b loc v) player x y (ahead loc (x, y) k) flip =
    walk fuel b player x y (ahead loc (x, y) k) flip.
Proof.
  intros Hr Hon Hc. induction fuel as [|fuel IH]; intros k flip Hk; [reflexivity|].
  rewrite !walk_unfold.
  rewrite probe_put by (auto using ahead_apart).
  destruct (probe b (ahead loc (x, y) k)) as [[tile|]| |]; cbn [bind]; try reflexivity.
  destruct (tile =? 0); [reflexivity|]. destruct (tile =? player); [reflexivity|].
  replace ((ahead loc (x, y) k).1 + x, (ahead loc (x, y) k).2 + y)
    with (ahead loc (x, y) (k + 1))
    by (unfold ahead; cbn [fst snd]; f_equal; lia).
  apply IH. lia.
Qed.

Lemma contribution_put (b : board) (loc : location) (player v : Z) (d : Z * Z) :
  rect b -> on_board b loc = true -> compass d ->
  contribution (put b loc v) loc player d = contribution b loc player d.
Proof.
  intros Hr Hon Hc. destruct d as [x y].
  unfold contribution, flips_along. rewrite walk_bound_put. cbn [fst snd].
  replace (loc.1 + x, loc.2 + y) with (ahead loc (x, y) 1)
    by (unfold ahead; cbn [fst snd]; f_equal; lia).
  rewrite walk_put by (auto; lia). reflexivity.
Qed.

Lemma bind_ext_in {A B : Type} (f g : A -> list B) (l : list A) :
  (forall x, x ∈ l -> f x = g x) -> l ≫= f = l ≫= g.
Proof.
  induction l as [|x l IH]; intros H; [reflexivity|].
  change ((x :: l) ≫= f) with (f x ++ (l ≫= f)).
  change ((x :: l) ≫= g) with (g x ++ (l ≫= g)).
  rewrite (H x) by left. rewrite IH; [reflexivity|].
  intros y Hy. apply H. right. assumption.
Qed.

(** Placing the player's disc on an empty cell does not change the flip
    set computed there. *)
Lemma flipped_put (b : board) (loc : location) (player : Z) :
  rect b -> on_board b loc = true -> settled b player loc ->
  offsets ≫= contribution (put b loc player) loc player =
  offsets ≫= contribution b loc player.
Proof.
  intros Hr Hon Hs. apply bind_ext_in. intros d Hd.
  destruct (offsets_cases d Hd) as [->|Hc].
  - destruct (flips_along_centre b loc player Hr Hs) as [_ ->].
    apply flips_along_centre; [apply rect_put; assumption|].
    right; right. apply cell_put_eq; assumption.
  - apply contribution_put; assumption.
Qed.

Lemma contribution_NoDup (b : board) (loc : location) (player : Z) (d : Z * Z) :
  rect b -> compass d -> NoDup (contribution b loc player d).
Proof.
  intros Hr Hc.
  destruct (flips_along_compass b loc player d Hr Hc) as [_ (n & _ & Hend)].
  destruct Hend as [[_ ->]|(_ & _ & _ & ->)]; [constructor|].
  cbn [app]. apply (NoDup_fmap_2_strong (fun j : nat => ahead (ahead loc d 1) d (Z.of_nat j))).
  - intros i j _ _ Heq. rewrite !ahead_ahead_1 in Heq.
    apply ahead_inj in Heq as [_ Heq]; (assumption || lia).
  - apply NoDup_seq.
Qed.

Lemma flipped_NoDup (b : board) (loc : location) (player : Z) :
  rect b -> settled b player loc ->
  NoDup (offsets ≫= contribution b loc player).
Proof.
  intros Hr Hs.
  assert (Hcentre : forall y, y ∈ contribution b loc player (0, 0) -> False).
  { intros y Hy. destruct (flips_along_centre b loc player Hr Hs) as [_ He].
    rewrite He in Hy. inversion Hy. }
  apply NoDup_bind; [| |apply offsets_NoDup].
  - intros d1 d2 y Hd1 Hd2 Hy1 Hy2.
    destruct (offsets_cases d1 Hd1) as [->|Hc1]; [destruct (Hcentre y Hy1)|].
    destruct (offsets_cases d2 Hd2) as [->|Hc2]; [destruct (Hcentre y Hy2)|].
    destruct (contribution_elem b loc player d1 y Hr Hc1 Hy1) as (n1 & k1 & _ & Hk1 & Heq1).
    destruct (contribution_elem b loc player d2 y Hr Hc2 Hy2) as (n2 & k2 & _ & Hk2 & Heq).
    rewrite Heq1 in Heq. apply ahead_inj in Heq as [Heq _]; (assumption || lia).
  - intros d Hd. destruct (offsets_cases d Hd) as [->|Hc].
    + destruct (flips_along_centre b loc player Hr Hs) as [_ ->]. constructor.
    + apply contribution_NoDup; assumption.
Qed.

(** C7: on a rectangular board, for a player 1 or 2 and an empty on-board
    coordinate, [play_move] raises the player's [get_state_value] by
    exactly one plus the number of coordinates in [get_flipped] of the
    board before the move, a list without repetition. *)
Theorem play_move_gain (b : board) (player : Z) (loc : location) :
  rect b -> player = 1 \/ player = 2 ->
  on_board b loc = true -> cell b loc = Some 0 ->
  exists b' flipped,
    get_flipped b loc player = Done flipped /\
    NoDup flipped /\
    play_move b loc player = Done b' /\
    get_state_value b' player = get_state_value b player + 1 + len flipped.
Proof.
  intros Hr Hp Hon H0.
  assert (Hs : settled b player loc) by (right; left; assumption).
  assert (Hr1 : rect (put b loc player)) by (apply rect_put; assumption).
  assert (Hs1 : settled (put b loc player) player loc).
  { right; right. apply cell_put_eq; assumption. }
  destruct (play_move_rect b player loc Hr Hon) as (_ & Hpm & Hin).
  set (flipped := offsets ≫= contribution (put b loc player) loc player) in *.
  exists (put_all (put b loc player) flipped player), flipped.
  split; [unfold flipped; rewrite flipped_put by assumption;
          apply get_flipped_rect; assumption|].
  split; [apply flipped_NoDup; assumption|]. split; [assumption|].
  rewrite !get_state_value_tally.
  rewrite tally_put_all; [|assumption|apply flipped_NoDup; assumption|].
  - rewrite (tally_put player b loc 0 player H0), Z.eqb_refl.
    destruct (Z.eqb_spec 0 player); lia.
  - intros c Hc. destruct (flipped_elem _ _ _ _ Hr1 Hs1 Hc) as [(Hon' & old & Hold & _ & Hne) _].
    eauto.
Qed.

(** ** Enumerating the moves *)

Lemma py_index_cell (b : board) (c : location) :
  rect b -> on_board b c = true ->
  exists row v, py_index b c.2 = Done row /\ py_index row c.1 = Done v /\
                cell b c = Some v.
Proof.
  intros Hr Hon. destruct (on_board_cell b c Hr Hon) as (row & v & Hrow & Hv & Hc).
  apply on_board_spec in Hon as [Hx Hy].
  exists row, v. rewrite !py_index_nonneg by lia. rewrite Hrow, Hv. auto.
Qed.

Lemma available_row_rect (b : board) (player y : Z) :
  rect b ->
  forall (xs : list Z) (available : list location),
    (forall x, x ∈ xs -> on_board b (x, y) = true) ->
    available_row b player y xs available =
    Done (available ++ filter (legal_move b player) ((fun x => (x, y)) <$> xs)).
Proof.
  intros Hr. induction xs as [|x xs IH]; intros available Hon.
  - simpl. rewrite app_nil_r. reflexivity.
  - cbn [available_row].
    destruct (py_index_cell b (x, y) Hr (Hon x ltac:(left))) as (row & v & Hrow & Hv & Hc).
    cbn [fst snd] in Hrow, Hv. rewrite Hrow. cbn [bind]. rewrite Hv. cbn [bind].
    assert (Hrest : forall x', x' ∈ xs -> on_board b (x', y) = true)
      by (intros x' Hx'; apply Hon; right; assumption).
    rewrite fmap_cons, filter_cons.
    destruct (Z.eqb_spec v 0) as [->|Hv0].
    + rewrite get_flipped_rect by (auto; right; left; assumption). cbn [bind].
      destruct (offsets ≫= contribution b (x, y) player) as [|f fl] eqn:Hfl.
      * rewrite decide_False by (unfold legal_move; rewrite Hfl; tauto).
        apply IH. assumption.
      * rewrite decide_True by (unfold legal_move; rewrite Hfl; split; [assumption|discriminate]).
        rewrite IH by assumption. rewrite <- app_assoc. reflexivity.
    + rewrite decide_False by (unfold legal_move; rewrite Hc; intros [H _]; congruence).
      apply IH. assumption.
Qed.

Lemma elem_of_range (lo : Z) (n : nat) (x : Z) :
  x ∈ range lo n <-> lo <= x < lo + Z.of_nat n.
Proof. unfold range. rewrite elem_of_seqZ. reflexivity. Qed.

Lemma available_rows_rect (b : board) (player : Z) :
  rect b ->
  forall (ys : list Z) (available : list location),
    (forall y, y ∈ ys -> 0 <= y < len b) ->
    available_rows b player ys available =
    Done (available ++
          filter (legal_move b player)
            (y ← ys; x ← range 0 (length (default [] (b !! 0%nat))); [(x, y)])).
Proof.
  intros Hr. induction ys as [|y ys IH]; intros available Hys.
  - simpl. rewrite app_nil_r. reflexivity.
  - cbn [available_rows].
    pose proof (Hys y ltac:(left)) as Hy.
    rewrite py_index_nonneg by lia.
    destruct b as [|row0 b'] eqn:Hb; [unfold len in Hy; simpl in Hy; lia|].
    rewrite <- Hb in *. assert (b !! 0%nat = Some row0) as H0 by (rewrite Hb; reflexivity).
    change (Z.to_nat 0) with 0%nat. rewrite H0 in IH |- *.
    cbn [bind default from_option id] in IH |- *.
    rewrite available_row_rect; [|assumption|].
    + cbn [bind]. rewrite IH by (intros y' Hy'; apply Hys; right; assumption).
      rewrite <- app_assoc. f_equal. f_equal.
      change ((y :: ys) ≫= ?f) with (f y ++ (ys ≫= f)).
      rewrite filter_app. f_equal.
    + intros x Hx. apply elem_of_range in Hx. apply on_board_spec.
      rewrite H0. cbn [fst snd default from_option id]. unfold len in *. lia.
Qed.

(** On a rectangular board the available moves are the legal ones, in
    scan order. *)
Lemma available_moves_rect (b : board) (player : Z) :
  rect b ->
  _get_available_moves b player = Done (filter (legal_move b player) (coords b)).
Proof.
  intros Hr. unfold _get_available_moves.
  rewrite available_rows_rect; [reflexivity|assumption|].
  intros y Hy. apply elem_of_range in Hy. unfold len. lia.
Qed.

Lemma elem_of_coords (b : board) (c : location) :
  c ∈ coords b <-> on_board b c = true.
Proof.
  unfold coords. rewrite list_elem_of_bind, on_board_spec. split.
  - intros (y & Hc & Hy). apply list_elem_of_bind in Hc as (x & Hc & Hx).
    apply list_elem_of_singleton in Hc as ->.
    apply elem_of_range in Hx, Hy. cbn [fst snd]. unfold len. lia.
  - intros [Hx Hy]. exists c.2. split; [|apply elem_of_range; unfold len in *; lia].
    apply list_elem_of_bind. exists c.1. split; [|apply elem_of_range; unfold len in *; lia].
    destruct c. left.
Qed.

(** ** Terminal positions *)

Lemma tally_row_nonneg (player : Z) (row : list Z) : 0 <= tally_row player row.
Proof. induction row as [|c row IH]; simpl; [lia|]. destruct (c =? player); lia. Qed.

Lemma tally_nonneg (player : Z) (b : board) : 0 <= tally player b.
Proof.
  induction b as [|row b IH]; simpl; [lia|].
  pose proof (tally_row_nonneg player row). lia.
Qed.

Lemma tally_row_zero (player : Z) (row : list Z) :
  tally_row player row = 0 <-> forall i : nat, row !! i <> Some player.
Proof.
  induction row as [|c row IH]; simpl.
  - split; [intros _ i; discriminate|reflexivity].
  - pose proof (tally_row_nonneg player row) as Hnn. split.
    + intros H [|i]; simpl.
      * destruct (Z.eqb_spec c player); [lia|congruence].
      * apply IH. destruct (c =? player); lia.
    + intros H. pose proof (H 0%nat) as H0. simpl in H0.
      destruct (Z.eqb_spec c player); [congruence|].
      apply IH. intros i. apply (H (S i)).
Qed.

Lemma tally_zero (player : Z) (b : board) :
  tally player b = 0 <-> forall c : location, cell b c <> Some player.
Proof.
  split.
  - intros Ht c Hc. unfold cell in Hc.
    revert Hc. generalize (Z.to_nat c.2) as i. revert Ht.
    induction b as [|row b IH]; intros Ht i Hc; [discriminate|].
    simpl in Ht. pose proof (tally_row_nonneg player row). pose proof (tally_nonneg player b).
    destruct i as [|i]; simpl in Hc.
    + assert (Hrow : tally_row player row = 0) by lia.
      rewrite tally_row_zero in Hrow. exact (Hrow _ Hc).
    + apply (IH ltac:(lia) i Hc).
  - intros Hall.
    assert (Hrows : forall (i : nat) row, b !! i = Some row -> tally_row player row = 0).
    { intros i row Hi. apply tally_row_zero. intros j Hj.
      apply (Hall (Z.of_nat j, Z.of_nat i)). unfold cell. cbn [fst snd].
      rewrite !Nat2Z.id, Hi. assumption. }
    clear Hall. induction b as [|row b IH]; [reflexivity|]. simpl.
    rewrite (Hrows 0%nat row eq_refl), IH; [reflexivity|].
    intros i r Hi. apply (Hrows (S i) r Hi).
Qed.

Lemma moves_need_empty (b : board) (player : Z) :
  filter (legal_move b player) (coords b) <> [] -> exists c, cell b c = Some 0.
Proof.
  destruct (filter (legal_move b player) (coords b)) as [|c l] eqn:Hf; [congruence|].
  intros _. exists c.
  assert (Hc : c ∈ filter (legal_move b player) (coords b)) by (rewrite Hf; left).
  apply list_elem_of_filter in Hc as [[Hc _] _]. assumption.
Qed.

Lemma is_state_terminal_rect (b : board) :
  rect b ->
  _is_state_terminal b =
  Done (if tally 0 b =? 0 then true
        else match filter (legal_move b 1) (coords b), filter (legal_move b 2) (coords b) with
             | [], [] => true
             | _, _ => false
             end).
Proof.
  intros Hr. unfold _is_state_terminal. rewrite get_state_value_tally.
  destruct (tally 0 b =? 0); [reflexivity|].
  rewrite !available_moves_rect by assumption. cbn [bind].
  destruct (filter (legal_move b 1) (coords b)); [|reflexivity].
  destruct (filter (legal_move b 2) (coords b)); reflexivity.
Qed.

(** C4: on a rectangular board [_is_state_terminal] returns, and returns
    true exactly when no cell is empty ([get_state_value(0)] is 0) or
    both [_get_available_moves(1)] and [_get_available_moves(2)] are
    empty; a position where exactly one player has a move is not
    terminal. *)
Theorem is_state_terminal_iff (b : board) :
  rect b ->
  exists moves1 moves2 t,
    _get_available_moves b 1 = Done moves1 /\
    _get_available_moves b 2 = Done moves2 /\
    _is_state_terminal b = Done t /\
    (get_state_value b 0 = 0 <-> forall c, cell b c <> Some 0) /\
    (t = true <-> get_state_value b 0 = 0 \/ (moves1 = [] /\ moves2 = [])) /\
    ((moves1 = [] /\ moves2 <> []) \/ (moves1 <> [] /\ moves2 = []) -> t = false).
Proof.
  intros Hr.
  exists (filter (legal_move b 1) (coords b)), (filter (legal_move b 2) (coords b)).
  eexists. split; [apply available_moves_rect; assumption|].
  split; [apply available_moves_rect; assumption|].
  split; [apply is_state_terminal_rect; assumption|].
  rewrite get_state_value_tally.
  split; [apply tally_zero|].
  pose proof (moves_need_empty b 1) as H1. pose proof (moves_need_empty b 2) as H2.
  pose proof (proj1 (tally_zero 0 b)) as Hz.
  destruct (Z.eqb_spec (tally 0 b) 0) as [H0|H0].
  - split; [tauto|]. specialize (Hz H0).
    intros [[_ Hm]|[Hm _]]; [destruct (H2 Hm) as [c Hc]|destruct (H1 Hm) as [c Hc]];
      destruct (Hz c Hc).
  - destruct (filter (legal_move b 1) (coords b)) as [|m1 l1];
      destruct (filter (legal_move b 2) (coords b)) as [|m2 l2];
      (split; [split; [try discriminate; auto|intros [?|[? ?]]; congruence]
              |intros [[? ?]|[? ?]]; congruence]).
Qed.

(** ** Arithmetic of scores *)

Lemma elt_lt (v w : ext) : elt v w = true <-> lt_ext v w.
Proof. destruct v, w; simpl; rewrite ?Z.ltb_lt; intuition discriminate. Qed.

Lemma ele_le (v w : ext) : ele v w = true <-> le_ext v w.
Proof.
  unfold ele. destruct v, w; simpl; rewrite ?negb_true_iff, ?Z.ltb_ge;
    intuition discriminate.
Qed.

Lemma ele_false (v w : ext) : ele v w = false <-> lt_ext w v.
Proof. unfold ele. rewrite negb_false_iff. apply elt_lt. Qed.

Lemma emax_Fin (x y : Z) : emax (Fin x) (Fin y) = Fin (Z.max x y).
Proof. unfold emax. simpl. destruct (Z.ltb_spec x y); f_equal; lia. Qed.

Lemma emax_NegInf_l (w : ext) : emax NegInf w = w.
Proof. destruct w; reflexivity. Qed.

Lemma emax_NegInf_r (v : ext) : emax v NegInf = v.
Proof. destruct v; reflexivity. Qed.

Lemma emax_PosInf_l (w : ext) : emax PosInf w = PosInf.
Proof. destruct w; reflexivity. Qed.

Lemma emax_PosInf_r (v : ext) : emax v PosInf = PosInf.
Proof. destruct v; reflexivity. Qed.

Create Rewrite HintDb ext_max.
#[local] Hint Rewrite emax_Fin emax_NegInf_l emax_NegInf_r emax_PosInf_l emax_PosInf_r
  : ext_max.

(** Case analysis on every score in sight, then linear arithmetic. *)
Ltac ext_arith :=
  intros;
  repeat match goal with v : ext |- _ => destruct v end;
  autorewrite with ext_max in *;
  cbn [le_ext lt_ext eneg] in *;
  try tauto;
  repeat match goal with
         | H : Fin _ = Fin _ |- _ => injection H as H
         | H : _ /\ _ |- _ => destruct H
         end;
  try discriminate;
  try (intuition (first [discriminate | congruence | lia | f_equal; lia]); fail).

Lemma le_ext_refl (v : ext) : le_ext v v.
Proof. ext_arith. Qed.

Lemma le_ext_trans (u v w : ext) : le_ext u v -> le_ext v w -> le_ext u w.
Proof. ext_arith. Qed.

Lemma emax_comm (v w : ext) : emax v w = emax w v.
Proof. ext_arith. Qed.

Lemma emax_assoc (u v w : ext) : emax (emax u v) w = emax u (emax v w).
Proof. ext_arith. Qed.

Lemma emax_ub_l (v w : ext) : le_ext v (emax v w).
Proof. ext_arith. Qed.

Lemma emax_ub_r (v w : ext) : le_ext w (emax v w).
Proof. ext_arith. Qed.

Lemma eneg_involutive (v : ext) : eneg (eneg v) = v.
Proof. destruct v; simpl; f_equal; lia. Qed.

Lemma lt_ext_eneg (v w : ext) : lt_ext v w -> lt_ext (eneg w) (eneg v).
Proof. ext_arith. Qed.

Lemma loop_inv_init (a b : ext) : lt_ext a b -> loop_inv a b NegInf a NegInf.
Proof. unfold loop_inv. ext_arith. Qed.

Lemma loop_inv_final (a0 b best a tb : ext) :
  loop_inv a0 b best a tb -> best_ok a0 b best tb.
Proof.
  unfold loop_inv, best_ok. intros (_ & _ & H3 & H4 & _). split.
  - intros H. rewrite (H4 H). apply le_ext_refl.
  - intros _. assumption.
Qed.

(** The cut: the child's value reaches beta. *)
Lemma loop_inv_cut (a0 b best a tb v vt t : ext) :
  loop_inv a0 b best a tb -> val_ok a b v vt ->
  le_ext b (emax a v) -> le_ext vt t ->
  best_ok a0 b (emax best v) t.
Proof.
  unfold loop_inv, val_ok, best_ok. intros (H1 & H2 & _) [_ Hv] Hcut Ht.
  assert (Hav : lt_ext a v) by (revert H2 Hcut; clear; ext_arith).
  specialize (Hv Hav).
  assert (Hbest : emax best v = v) by (revert H1 Hav; clear; ext_arith).
  rewrite Hbest. split.
  - intros _. eapply le_ext_trans; eassumption.
  - intros Hlt. exfalso. revert H2 Hcut Hav Hlt. clear. ext_arith.
Qed.

(** No cut: the loop goes on with the next child. *)
Lemma loop_inv_step (a0 b best a tb v vt : ext) :
  loop_inv a0 b best a tb -> val_ok a b v vt ->
  lt_ext (emax a v) b ->
  loop_inv a0 b (emax best v) (emax a v) (emax tb vt).
Proof.
  unfold loop_inv, val_ok. intros (H1 & H2 & H3 & H4 & H5) [Hv1 Hv2] Hlt.
  assert (Hvb : lt_ext v b) by (revert Hlt; clear; ext_arith).
  specialize (Hv1 Hvb).
  split; [revert H1; clear; ext_arith|].
  split; [assumption|].
  split; [revert H3 Hv1; clear; ext_arith|].
  split.
  - intros Ha0.
    assert (Hcase : le_ext v best \/ lt_ext best v) by (clear; ext_arith).
    destruct Hcase as [Hle|Hgt].
    + assert (emax best v = best) as Hb by (revert Hle; clear; ext_arith).
      rewrite Hb in *. rewrite (H4 Ha0).
      revert Hv1 Hle. clear. ext_arith.
    + assert (emax best v = v) as Hb by (revert Hgt; clear; ext_arith).
      rewrite Hb in *.
      assert (Hav : lt_ext a v) by (destruct H5; subst a; assumption).
      specialize (Hv2 Hav).
      revert H3 Hgt Hv1 Hv2. clear. ext_arith.
  - assert (Hcase : le_ext v a \/ lt_ext a v) by (clear; ext_arith).
    destruct Hcase as [Hle|Hgt].
    + assert (emax a v = a) as -> by (revert Hle; clear; ext_arith).
      destruct H5 as [-> | ->]; [left; reflexivity|right].
      revert Hle. clear. ext_arith.
    + right. revert H1 Hgt. clear. ext_arith.
Qed.

Lemma best_ok_val_ok (x y r rt : ext) :
  best_ok x y r rt -> val_ok (eneg y) (eneg x) (eneg r) (eneg rt).
Proof. unfold best_ok, val_ok. ext_arith. Qed.

Lemma val_ok_refl (a b v : ext) : val_ok a b v v.
Proof. unfold val_ok. split; intros _; apply le_ext_refl. Qed.

Lemma val_ok_full (v vt : ext) : val_ok NegInf PosInf v vt -> v = vt.
Proof. unfold val_ok. ext_arith. Qed.

Lemma foldl_emax_ge (l : list ext) (acc : ext) : le_ext acc (foldl emax acc l).
Proof.
  revert acc. induction l as [|v l IH]; intros acc; [apply le_ext_refl|].
  simpl. eapply le_ext_trans; [apply emax_ub_l|apply IH].
Qed.

Lemma foldl_emax_perm (l l' : list ext) :
  Permutation l l' -> forall acc, foldl emax acc l = foldl emax acc l'.
Proof.
  induction 1 as [|v l l' _ IH|v w l|l l' l'' _ IH1 _ IH2]; intros acc; simpl.
  - reflexivity.
  - apply IH.
  - f_equal. rewrite !emax_assoc. f_equal. apply emax_comm.
  - rewrite IH1. apply IH2.
Qed.

(** ** The child loop, with and without pruning *)

Section Loop.

Context {G : Type}.
Variable recur : board -> ext -> ext -> G -> outcome (ext * G).

(** the full-width value of each child *)
Variable vt : board -> ext.

Lemma negamax_loop_full (children : list board) :
  (forall c, c ∈ children ->
     forall x y g, exists g', recur c x y g = Done (vt c, g')) ->
  forall best a b g,
    exists g', negamax_loop recur children best a b false g
               = Done (foldl emax best (vt <$> children), g').
Proof.
  induction children as [|c children IH]; intros Hrec best a b g.
  - exists g. reflexivity.
  - cbn [negamax_loop].
    destruct (Hrec c ltac:(left) (eneg b) (eneg a) g) as [g' ->]. cbn [bind].
    apply IH. intros c' Hc'. apply Hrec. right. assumption.
Qed.

Lemma negamax_loop_pruned (a0 b : ext) (children : list board) :
  (forall c, c ∈ children ->
     forall x y g, lt_ext x y ->
       exists v g', recur c x y g = Done (v, g') /\
                    val_ok (eneg y) (eneg x) v (vt c)) ->
  forall best a tb g,
    loop_inv a0 b best a tb ->
    exists r g', negamax_loop recur children best a b true g = Done (r, g') /\
                 best_ok a0 b r (foldl emax tb (vt <$> children)).
Proof.
  induction children as [|c children IH]; intros Hrec best a tb g Hinv.
  - exists best, g. split; [reflexivity|]. eapply loop_inv_final. eassumption.
  - cbn [negamax_loop].
    assert (Hab : lt_ext a b) by (destruct Hinv as (_ & H & _); exact H).
    destruct (Hrec c ltac:(left) (eneg b) (eneg a) g (lt_ext_eneg _ _ Hab))
      as (v & g' & -> & Hv).
    rewrite !eneg_involutive in Hv. cbn [bind].
    destruct (ele b (emax a v)) eqn:Hcut.
    + exists (emax best v), g'. split; [reflexivity|].
      apply ele_le in Hcut. eapply loop_inv_cut; try eassumption.
      rewrite fmap_cons. cbn [foldl].
      eapply le_ext_trans; [apply emax_ub_r|apply foldl_emax_ge].
    + apply ele_false in Hcut. rewrite fmap_cons. cbn [foldl].
      apply IH; [intros c' Hc'; apply Hrec; right; assumption|].
      apply loop_inv_step; assumption.
Qed.

(** Two callees that agree wherever the first returns make the loop
    agree wherever it returns. *)
Lemma negamax_loop_mono (recur' : board -> ext -> ext -> G -> outcome (ext * G))
    (children : list board) :
  (forall c x y g r, recur c x y g = Done r -> recur' c x y g = Done r) ->
  forall best a b isPruning g r,
    negamax_loop recur children best a b isPruning g = Done r ->
    negamax_loop recur' children best a b isPruning g = Done r.
Proof.
  intros Hrec. induction children as [|c children IH];
    intros best a b isPruning g r H; [assumption|].
  cbn [negamax_loop] in *.
  apply bind_Done in H as ([v g'] & Hc & H).
  rewrite (Hrec _ _ _ _ _ Hc). cbn [bind].
  destruct isPruning; [destruct (ele b (emax a v))|]; auto.
Qed.

End Loop.

(** ** Children of a position *)

Lemma Othello_init_copy (grid : board) :
  grid <> [] -> Othello_init grid = Done grid.
Proof.
  intros Hne. destruct grid as [|row grid]; [congruence|].
  unfold Othello_init. f_equal.
  rewrite <- (map_id (row :: grid)) at 2. apply map_ext. intros r. apply map_id.
Qed.

Lemma on_board_nonempty (b : board) (c : location) :
  on_board b c = true -> b <> [].
Proof.
  intros Hon ->. apply on_board_spec in Hon. unfold len in Hon. simpl in Hon. lia.
Qed.

Lemma play_move_legal (b : board) (player : Z) (m : location) :
  rect b -> on_board b m = true -> cell b m = Some 0 ->
  play_move b m player = Done (after b player m).
Proof.
  intros Hr Hon H0. destruct (play_move_rect b player m Hr Hon) as (_ & -> & _).
  unfold after. rewrite flipped_put by (auto; right; left; assumption). reflexivity.
Qed.

Lemma rect_after (b : board) (player : Z) (m : location) :
  rect b -> rect (after b player m).
Proof. intros Hr. unfold after. apply rect_put_all, rect_put. assumption. Qed.

Lemma after_row_lengths (b : board) (player : Z) (m : location) :
  map length (after b player m) = map length b.
Proof. unfold after. rewrite put_all_row_lengths. apply put_row_lengths. Qed.

Lemma tally_put_all_keep (q v : Z) (locs : list location) :
  q <> v ->
  forall b : board,
    rect b ->
    (forall c, c ∈ locs ->
       on_board b c = true /\ exists old, cell b c = Some old /\ old <> q) ->
    tally q (put_all b locs v) = tally q b.
Proof.
  intros Hqv. induction locs as [|c locs IH]; intros b Hr Hall; [reflexivity|].
  cbn [put_all foldl]. fold (put_all (put b c v) locs v).
  destruct (Hall c ltac:(left)) as (Hon & old & Hold & Hne).
  rewrite IH; [|apply rect_put; assumption|].
  - rewrite (tally_put q b c old v Hold).
    destruct (Z.eqb_spec old q); [contradiction|].
    destruct (Z.eqb_spec v q); [congruence|]. lia.
  - intros c' Hc'. destruct (Hall c' ltac:(right; assumption)) as (Hon' & old' & Hold' & Hne').
    rewrite on_board_put. split; [assumption|].
    destruct (decide (c' = c)) as [->|Hcc].
    + exists v. split; [apply cell_put_eq; assumption|congruence].
    + exists old'. split; [|assumption]. rewrite <- Hold'.
      apply on_board_spec in Hon, Hon'. apply cell_put_ne; tauto || lia.
Qed.

(** A move fills one empty cell and empties none. *)
Lemma tally_after (b : board) (player : Z) (m : location) :
  rect b -> player <> 0 -> on_board b m = true -> cell b m = Some 0 ->
  tally 0 (after b player m) = tally 0 b - 1.
Proof.
  intros Hr Hp Hon H0. unfold after.
  assert (Hs : settled b player m) by (right; left; assumption).
  rewrite tally_put_all_keep; [|congruence|apply rect_put; assumption|].
  - rewrite (tally_put 0 b m 0 player H0).
    destruct (Z.eqb_spec player 0); [contradiction|]. simpl. lia.
  - intros c Hc.
    destruct (flipped_elem b player m c Hr Hs Hc) as [(Hon' & old & Hold & Hne0 & _) _].
    rewrite on_board_put. split; [assumption|]. exists old. split; [|assumption].
    rewrite <- Hold. apply on_board_spec in Hon, Hon'.
    apply cell_put_ne; try (tauto || lia). intros ->. congruence.
Qed.

Lemma legal_move_on_board (b : board) (player : Z) (m : location) :
  m ∈ filter (legal_move b player) (coords b) ->
  on_board b m = true /\ legal_move b player m.
Proof.
  intros Hm. apply list_elem_of_filter in Hm as [Hl Hc].
  apply elem_of_coords in Hc. auto.
Qed.

Lemma children_loop_rect (b : board) (player : Z) :
  rect b ->
  forall (moves : list location) (children : list board),
    (forall m, m ∈ moves -> on_board b m = true /\ cell b m = Some 0) ->
    children_loop b player moves children =
    Done (children ++ (after b player <$> moves)).
Proof.
  intros Hr. induction moves as [|m moves IH]; intros children Hall.
  - simpl. rewrite app_nil_r. reflexivity.
  - cbn [children_loop]. destruct (Hall m ltac:(left)) as [Hon H0].
    rewrite Othello_init_copy by (eapply on_board_nonempty; eassumption). cbn [bind].
    rewrite play_move_legal by assumption. cbn [bind].
    rewrite IH by (intros m' Hm'; apply Hall; right; assumption).
    rewrite fmap_cons, <- app_assoc. reflexivity.
Qed.

Lemma get_children_rect (b : board) (player : Z) :
  rect b ->
  get_children b player =
  Done (after b player <$> filter (legal_move b player) (coords b)).
Proof.
  intros Hr. unfold get_children. rewrite available_moves_rect by assumption.
  cbn [bind]. rewrite children_loop_rect; [reflexivity|assumption|].
  intros m Hm. apply legal_move_on_board in Hm as [Hon [H0 _]]. auto.
Qed.

Lemma child_smaller (b : board) (player : Z) (c : board) :
  rect b -> player <> 0 ->
  c ∈ after b player <$> filter (legal_move b player) (coords b) ->
  rect c /\ tally 0 c = tally 0 b - 1 /\ map length c = map length b.
Proof.
  intros Hr Hp Hc. apply list_elem_of_fmap in Hc as (m & -> & Hm).
  apply legal_move_on_board in Hm as [Hon [H0 _]].
  split; [apply rect_after; assumption|].
  split; [apply tally_after; assumption|apply after_row_lengths].
Qed.

(** ** Shuffling *)

Lemma omap_lookup_seq {A : Type} (l pre : list A) :
  omap (fun i => (pre ++ l) !! i) (seq (length pre) (length l)) = l.
Proof.
  revert pre. induction l as [|x l IH]; intros pre; [reflexivity|].
  cbn [length seq omap list_omap].
  rewrite list_lookup_middle by reflexivity. f_equal.
  specialize (IH (pre ++ [x])). rewrite <- app_assoc, length_app in IH.
  cbn [length app] in IH. rewrite Nat.add_1_r in IH. exact IH.
Qed.

Lemma shuffle_Permutation {G A : Type} (shuffle_order : G -> nat -> list nat * G)
    (g : G) (l : list A) :
  (forall g n, Permutation (shuffle_order g n).1 (seq 0 n)) ->
  Permutation (shuffle shuffle_order g l).1 l.
Proof.
  intros Hperm. unfold shuffle. specialize (Hperm g (length l)).
  destruct (shuffle_order g (length l)) as [order g']. cbn [fst] in *.
  rewrite Hperm. pose proof (omap_lookup_seq l []) as Hid.
  cbn [app length] in Hid. rewrite Hid. reflexivity.
Qed.

(** ** Negamax: full width against alpha-beta *)

Lemma players_valid (player : Z) :
  player = 1 \/ player = 2 ->
  exists opponent, players player = Done opponent /\
                   (opponent = 1 \/ opponent = 2) /\ opponent <> player.
Proof. intros [->| ->]; [exists 2|exists 1]; repeat split; auto; lia. Qed.

Section Pruning.

(** Two random sources, each with its own shuffle: [so] drives the
    pruned search, [so'] the full-width one. *)
Context {G G' : Type}.
Variable so : G -> nat -> list nat * G.
Variable so' : G' -> nat -> list nat * G'.
Hypothesis so_perm : forall g n, Permutation (so g n).1 (seq 0 n).
Hypothesis so'_perm : forall g n, Permutation (so' g n).1 (seq 0 n).

Lemma negamax_values (fuel : nat) :
  forall (b : board) (player depth : Z),
    rect b -> player = 1 \/ player = 2 -> tally 0 b < Z.of_nat fuel ->
    G' ->
    exists vt,
      (forall x y g, exists g',
          negamax so' fuel b player depth x y false g = Done (vt, g')) /\
      (forall x y g, lt_ext x y ->
         exists v g', negamax so fuel b player depth x y true g = Done (v, g') /\
                      val_ok (eneg y) (eneg x) v vt).
Proof.
  induction fuel as [|fuel IH]; intros b player depth Hr Hp Hfuel g0.
  { pose proof (tally_nonneg 0 b). lia. }
  cbn [negamax]. rewrite is_state_terminal_rect by assumption. cbn [bind].
  destruct ((depth =? 0) || _) eqn:Hleaf.
  { exists (Fin (get_state_value b player)). split.
    - intros x y g. exists g. reflexivity.
    - intros x y g _. exists (Fin (get_state_value b player)), g.
      split; [reflexivity|apply val_ok_refl]. }
  destruct (players_valid player Hp) as (opp & -> & Hopp & _). cbn [bind].
  rewrite get_children_rect by assumption. cbn [bind].
  set (cs := after b opp <$> filter (legal_move b opp) (coords b)).
  assert (Hopp0 : opp <> 0) by lia.
  set (vtc := fun c : board =>
                match negamax so' fuel c opp (depth - 1) NegInf PosInf false g0 with
                | Done (v, _) => v
                | _ => NegInf
                end).
  assert (Hchild : forall c, c ∈ cs ->
            (forall x y g, exists g',
                negamax so' fuel c opp (depth - 1) x y false g = Done (vtc c, g')) /\
            (forall x y g, lt_ext x y ->
               exists v g', negamax so fuel c opp (depth - 1) x y true g = Done (v, g') /\
                            val_ok (eneg y) (eneg x) v (vtc c))).
  { intros c Hc. destruct (child_smaller b opp c Hr Hopp0 Hc) as (Hrc & Htc & _).
    destruct (IH c opp (depth - 1) Hrc Hopp ltac:(lia) g0) as (vt & Hfull & Hpr).
    assert (vtc c = vt) as ->; [|split; assumption].
    unfold vtc. destruct (Hfull NegInf PosInf g0) as [g' ->]. reflexivity. }
  exists (eneg (foldl emax NegInf (vtc <$> cs))). split.
  - intros x y g.
    pose proof (shuffle_Permutation so' g cs so'_perm) as Hsh.
    destruct (shuffle so' g cs) as [cs' g1]. cbn [fst] in Hsh.
    destruct (negamax_loop_full
                (fun child a' b' g' => negamax so' fuel child opp (depth - 1) a' b' false g')
                vtc cs') with (best := NegInf) (a := x) (b := y) (g := g1) as [g2 ->].
    { intros c Hc. apply Hchild. rewrite <- Hsh. assumption. }
    cbn [bind]. exists g2. rewrite (foldl_emax_perm _ (vtc <$> cs)); [reflexivity|].
    apply fmap_Permutation. assumption.
  - intros x y g Hxy.
    pose proof (shuffle_Permutation so g cs so_perm) as Hsh.
    destruct (shuffle so g cs) as [cs' g1]. cbn [fst] in Hsh.
    destruct (negamax_loop_pruned
                (fun child a' b' g' => negamax so fuel child opp (depth - 1) a' b' true g')
                vtc x y cs') with (best := NegInf) (a := x) (tb := NegInf) (g := g1)
      as (r & g2 & -> & Hok).
    { intros c Hc. apply Hchild. rewrite <- Hsh. assumption. }
    { apply loop_inv_init. assumption. }
    cbn [bind]. exists (eneg r), g2. split; [reflexivity|].
    rewrite (foldl_emax_perm _ (vtc <$> cs)) in Hok
      by (apply fmap_Permutation; assumption).
    apply best_ok_val_ok. assumption.
Qed.

End Pruning.

Section Fuel.

Context {G : Type}.
Variable so : G -> nat -> list nat * G.

(** Once [negamax] returns, more fuel returns the same. *)
Lemma negamax_fuel_S (fuel : nat) :
  forall (b : board) (player depth : Z) (x y : ext) (isPruning : bool) (g : G) r,
    negamax so fuel b player depth x y isPruning g = Done r ->
    negamax so (S fuel) b player depth x y isPruning g = Done r.
Proof.
  induction fuel as [|fuel IH]; intros b player depth x y isPruning g r H;
    [discriminate|].
  cbn [negamax] in H. change (negamax so (S (S fuel))) with
    (fun self player depth a b isPruning g =>
       let* game_is_over := _is_state_terminal self in
       if (depth =? 0) || game_is_over
       then Done (Fin (get_state_value self player), g)
       else
         let* opponent := players player in
         let* children := get_children self opponent in
         let '(children', g1) := shuffle so g children in
         let* (best, g2) :=
           negamax_loop
             (fun child a' b' g' =>
                negamax so (S fuel) child opponent (depth - 1) a' b' isPruning g')
             children' NegInf a b isPruning g1 in
         Done (eneg best, g2)).
  cbn beta.
  destruct (_is_state_terminal b) as [t| |]; cbn [bind] in *; try discriminate.
  destruct ((depth =? 0) || t); [assumption|].
  destruct (players player) as [opp| |]; cbn [bind] in *; try discriminate.
  destruct (get_children b opp) as [cs| |]; cbn [bind] in *; try discriminate.
  destruct (shuffle so g cs) as [cs' g1].
  apply bind_Done in H as ([best g2] & Hloop & H).
  pose proof (negamax_loop_mono _
                (fun child a' b' g' =>
                   negamax so (S fuel) child opp (depth - 1) a' b' isPruning g')
                cs'
                (fun c x' y' g' r' => IH c opp (depth - 1) x' y' isPruning g' r')
                _ _ _ _ _ _ Hloop) as Hloop'.
  rewrite Hloop'. exact H.
Qed.

Lemma negamax_fuel_le (fuel fuel' : nat) (b : board) (player depth : Z)
    (x y : ext) (isPruning : bool) (g : G) r :
  (fuel <= fuel')%nat ->
  negamax so fuel b player depth x y isPruning g = Done r ->
  negamax so fuel' b player depth x y isPruning g = Done r.
Proof.
  induction 1 as [|fuel' _ IH]; intros H; [assumption|].
  apply negamax_fuel_S, IH, H.
Qed.

(** With no reply for the opponent on a position that is not terminal,
    the loop body never runs and the initial [-inf] comes back negated. *)
Lemma negamax_no_reply (fuel : nat) (b : board) (player opponent depth : Z)
    (x y : ext) (isPruning : bool) (g : G) :
  depth <> 0 ->
  _is_state_terminal b = Done false ->
  players player = Done opponent ->
  get_children b opponent = Done [] ->
  negamax so (S fuel) b player depth x y isPruning g
  = Done (PosInf, (shuffle so g ([] : list board)).2).
Proof.
  intros Hd Ht Hp Hc. cbn [negamax]. rewrite Ht. cbn [bind].
  destruct (Z.eqb_spec depth 0); [contradiction|]. cbn [orb].
  rewrite Hp. cbn [bind]. rewrite Hc. cbn [bind].
  unfold shuffle. cbn [length]. destruct (so g 0%nat) as [order g']. cbn [snd].
  assert (omap (fun i : nat => ([] : list board) !! i) order = []) as ->.
  { induction order as [|i order IHo]; [reflexivity|]. cbn. assumption. }
  reflexivity.
Qed.

End Fuel.

(** C1 (defect): [pass_board] is not terminal (white can play (2, 0)) and
    black, the side to move inside [negamax(1, 1, ...)], has no move.
    [negamax] does not go on with white on the same board: it visits no
    child and returns [+inf], the negated initial value of [best], for
    any window, pruning flag, shuffle and fuel. *)
Theorem negamax_pass_returns_sentinel :
  forall (G : Type) (so : G -> nat -> list nat * G) (fuel : nat) (x y : ext)
         (isPruning : bool) (g : G),
    _is_state_terminal pass_board = Done false /\
    _get_available_moves pass_board 2 = Done [] /\
    _get_available_moves pass_board 1 = Done [(2, 0)] /\
    exists g', negamax so (S fuel) pass_board 1 1 x y isPruning g = Done (PosInf, g').
Proof.
  intros G so fuel x y isPruning g.
  split; [vm_compute; reflexivity|]. split; [vm_compute; reflexivity|].
  split; [vm_compute; reflexivity|].
  eexists. apply (negamax_no_reply so fuel pass_board 1 2 1); try discriminate;
    vm_compute; reflexivity.
Qed.

(** C2: on a rectangular board, for a player 1 or 2 and any depth, once
    the fuel exceeds the number of empty cells, [negamax] over the window
    [(-inf, +inf)] with pruning returns the value that [negamax] without
    pruning returns, whatever the two shuffles and the states of the two
    random sources are. *)
Theorem pruning_preserves_value :
  forall (G G' : Type) (so : G -> nat -> list nat * G) (so' : G' -> nat -> list nat * G')
         (b : board) (player depth : Z) (fuel fuel' : nat) (g : G) (g' : G'),
    (forall g n, Permutation (so g n).1 (seq 0 n)) ->
    (forall g n, Permutation (so' g n).1 (seq 0 n)) ->
    rect b -> player = 1 \/ player = 2 ->
    get_state_value b 0 < Z.of_nat fuel -> get_state_value b 0 < Z.of_nat fuel' ->
    exists v g1 g1',
      negamax so fuel b player depth NegInf PosInf true g = Done (v, g1) /\
      negamax so' fuel' b player depth NegInf PosInf false g' = Done (v, g1').
Proof.
  intros G G' so so' b player depth fuel fuel' g g' Hso Hso' Hr Hp Hf Hf'.
  rewrite get_state_value_tally in Hf, Hf'.
  destruct (negamax_values so so' Hso Hso' fuel b player depth Hr Hp Hf g')
    as (vt & Hfull & Hpr).
  destruct (Hpr NegInf PosInf g I) as (v & g1 & Hv & Hok).
  apply val_ok_full in Hok. subst vt.
  destruct (Hfull NegInf PosInf g') as [g1' Hv'].
  destruct (negamax_values so' so' Hso' Hso' fuel' b player depth Hr Hp Hf' g')
    as (vt' & Hfull' & _).
  destruct (Hfull' NegInf PosInf g') as [g2' Hv2].
  exists v, g1, g2'. split; [assumption|].
  destruct (Nat.le_ge_cases fuel fuel') as [Hle|Hle].
  - rewrite (negamax_fuel_le so' fuel fuel' _ _ _ _ _ _ _ _ Hle Hv') in Hv2.
    injection Hv2 as <- <-. eapply negamax_fuel_le; eassumption.
  - pose proof (negamax_fuel_le so' fuel' fuel _ _ _ _ _ _ _ _ Hle Hv2) as Hv3.
    rewrite Hv' in Hv3. injection Hv3 as -> ->. assumption.
Qed.

(** ** Choosing the move *)

(** The three location classes: 3 when both coordinates are 0 or
    [board_width - 1], 2 when exactly one is, 1 otherwise. *)
Lemma get_location_type_class (loc : location) (board_width : Z) :
  let on_rim (v : Z) := v = 0 \/ v = board_width - 1 in
  (get_location_type loc board_width = 3 <-> on_rim loc.1 /\ on_rim loc.2) /\
  (get_location_type loc board_width = 2 <->
     (on_rim loc.1 /\ ~ on_rim loc.2) \/ (~ on_rim loc.1 /\ on_rim loc.2)) /\
  (get_location_type loc board_width = 1 <-> ~ on_rim loc.1 /\ ~ on_rim loc.2).
Proof.
  unfold get_location_type. cbn zeta.
  destruct (Z.eqb_spec loc.1 0), (Z.eqb_spec loc.1 (board_width - 1)),
    (Z.eqb_spec loc.2 0), (Z.eqb_spec loc.2 (board_width - 1));
    cbn [orb andb]; repeat split; intros; try lia; try tauto.
Qed.

(** [get_location_type] computes the class of the rules. *)
Lemma get_location_type_spec (loc : location) (board_width : Z) :
  get_location_type loc board_width = location_class board_width loc.
Proof.
  unfold get_location_type, location_class. cbn zeta.
  destruct (Z.eqb_spec loc.1 0), (Z.eqb_spec loc.1 (board_width - 1)),
    (Z.eqb_spec loc.2 0), (Z.eqb_spec loc.2 (board_width - 1));
    cbn [orb andb];
    repeat (destruct (decide _) as [?|?]); try reflexivity; exfalso; tauto.
Qed.

Lemma eeq_eq (v w : ext) : eeq v w = true <-> v = w.
Proof.
  destruct v, w; simpl; rewrite ?Z.eqb_eq; split; try congruence; try discriminate.
Qed.

Lemma lt_ext_irrefl (v : ext) : ~ lt_ext v v.
Proof. ext_arith. Qed.

Lemma le_ext_cases (v w : ext) : le_ext v w -> lt_ext v w \/ v = w.
Proof.
  destruct v as [|x|], w as [|y|]; simpl; intros H; try tauto.
  destruct (Z.eq_dec x y) as [->|Hne]; [right; reflexivity|left; lia].
Qed.

Lemma not_lt_ext (v w : ext) : ~ lt_ext v w <-> le_ext w v.
Proof. ext_arith. Qed.

Lemma lt_le_ext_trans (u v w : ext) : le_ext u v -> lt_ext v w -> lt_ext u w.
Proof. ext_arith. Qed.

Lemma lt_ext_asym (v w : ext) : lt_ext v w -> ~ lt_ext w v.
Proof. ext_arith. Qed.

Lemma lt_ext_neq (v w : ext) : lt_ext v w -> v <> w.
Proof. intros H ->. exact (lt_ext_irrefl _ H). Qed.

Lemma not_lt_NegInf (v : ext) : ~ lt_ext NegInf v -> v = NegInf.
Proof. ext_arith. Qed.

Section Choice.

Variable width : Z.
Variable sc : location -> ext.

Lemma beats_irrefl (m : location) : ~ beats width sc m m.
Proof. intros [H|[_ H]]; [exact (lt_ext_irrefl _ H)|lia]. Qed.

Lemma better_first (x : location) :
  better width (None, NegInf) x (sc x) = (Some x, sc x).
Proof.
  unfold better. cbn [fst snd].
  destruct (elt NegInf (sc x)) eqn:E; cbn [fst snd].
  - rewrite (proj2 (eeq_eq _ _) eq_refl), Z.ltb_irrefl. reflexivity.
  - assert (sc x = NegInf) as ->.
    { apply not_lt_NegInf. rewrite <- elt_lt. congruence. }
    reflexivity.
Qed.

Lemma better_first_best (pre : list location) (acc : option location * ext)
    (x : location) :
  first_best width sc pre acc ->
  first_best width sc (pre ++ [x]) (better width acc x (sc x)).
Proof.
  destruct acc as [[m|] s]; unfold first_best; cbn [fst snd].
  - intros (-> & i & Hi & Hall).
    assert (Hilt : (i < length pre)%nat) by (eapply lookup_lt_Some; eassumption).
    unfold better. cbn [fst snd].
    destruct (elt (sc m) (sc x)) eqn:E1; cbn [fst snd].
    + (* a greater score *)
      apply elt_lt in E1.
      rewrite (proj2 (eeq_eq _ _) eq_refl), Z.ltb_irrefl. cbn [fst snd].
      split; [reflexivity|]. exists (length pre).
      split; [apply list_lookup_middle; reflexivity|].
      intros j m' Hj. apply lookup_snoc_Some in Hj as [[Hjl Hj]|[-> <-]].
      * destruct (Hall j m' Hj) as [Hnb _].
        assert (Hlt : lt_ext (sc m') (sc x)).
        { eapply lt_le_ext_trans; [|exact E1]. apply not_lt_ext.
          intros H. apply Hnb. left. exact H. }
        split; [|intros _; left; exact Hlt].
        intros [H|[H _]]; [exact (lt_ext_asym _ _ Hlt H)|exact (lt_ext_neq _ _ Hlt H)].
      * split; [apply beats_irrefl|lia].
    + assert (Hle : le_ext (sc x) (sc m)).
      { apply not_lt_ext. rewrite <- elt_lt. congruence. }
      destruct (eeq (sc x) (sc m)) eqn:E2; cbn [fst snd].
      * apply eeq_eq in E2.
        destruct (Z.ltb_spec (get_location_type m width) (get_location_type x width))
          as [E3|E3]; cbn [fst snd].
        -- (* the same score, a greater class *)
           split; [reflexivity|]. exists (length pre).
           split; [apply list_lookup_middle; reflexivity|].
           intros j m' Hj. apply lookup_snoc_Some in Hj as [[Hjl Hj]|[-> <-]].
           ++ destruct (Hall j m' Hj) as [Hnb _]. split.
              ** intros [H|[H1 H2]]; apply Hnb; [left; rewrite <- E2; exact H|].
                 right. split; [congruence|lia].
              ** intros _.
                 assert (Hle' : le_ext (sc m') (sc m)).
                 { apply not_lt_ext. intros H. apply Hnb. left. exact H. }
                 destruct (le_ext_cases _ _ Hle') as [Hlt|Heq].
                 --- left. rewrite E2. exact Hlt.
                 --- right. split; [congruence|].
                     destruct (Z.lt_ge_cases (get_location_type m width)
                                 (get_location_type m' width)) as [Hc|Hc]; [|lia].
                     exfalso. apply Hnb. right. split; assumption.
           ++ split; [apply beats_irrefl|lia].
        -- (* the same score, no greater class: the held move stays *)
           split; [reflexivity|]. exists i.
           split; [apply lookup_app_l_Some; assumption|].
           intros j m' Hj. apply lookup_snoc_Some in Hj as [[Hjl Hj]|[-> <-]].
           ++ apply Hall. assumption.
           ++ split; [|lia]. intros [H|[_ H]]; [|lia].
              rewrite E2 in H. exact (lt_ext_irrefl _ H).
      * (* a smaller score *)
        split; [reflexivity|]. exists i.
        split; [apply lookup_app_l_Some; assumption|].
        intros j m' Hj. apply lookup_snoc_Some in Hj as [[Hjl Hj]|[-> <-]].
        -- apply Hall. assumption.
        -- split; [|lia]. intros [H|[H _]].
           ++ apply not_lt_ext in Hle. exact (Hle H).
           ++ apply eeq_eq in H. congruence.
  - intros [-> ->]. rewrite better_first. cbn [fst snd app].
    split; [reflexivity|]. exists 0%nat. split; [reflexivity|].
    intros [|j] m' Hj; [|discriminate]. injection Hj as <-.
    split; [apply beats_irrefl|lia].
Qed.

Lemma choose_first_best (rest pre : list location) (acc : option location * ext) :
  first_best width sc pre acc ->
  first_best width sc (pre ++ rest) (choose width sc rest acc).
Proof.
  revert pre acc. induction rest as [|x rest IH]; intros pre acc Hinv.
  - rewrite app_nil_r. exact Hinv.
  - cbn [choose foldl]. fold (choose width sc rest (better width acc x (sc x))).
    replace (pre ++ x :: rest) with ((pre ++ [x]) ++ rest)
      by (rewrite <- app_assoc; reflexivity).
    apply IH, better_first_best, Hinv.
Qed.

(** The move kept over a list of candidates. *)
Lemma choose_spec (moves : list location) :
  first_best width sc moves (choose width sc moves (None, NegInf)).
Proof.
  apply (choose_first_best moves []). unfold first_best. cbn [fst snd]. auto.
Qed.

End Choice.

Section BestMove.

Context {G : Type}.
Variable so : G -> nat -> list nat * G.
Hypothesis so_perm : forall g n, Permutation (so g n).1 (seq 0 n).

(** Over the full window the pruned search has one value, whatever the
    state of the random source. *)
Lemma root_value (fuel : nat) (b : board) (player depth : Z) :
  rect b -> player = 1 \/ player = 2 -> tally 0 b < Z.of_nat fuel -> G ->
  exists v, forall g, exists g',
      negamax so fuel b player depth NegInf PosInf true g = Done (v, g').
Proof.
  intros Hr Hp Hf g0.
  destruct (negamax_values so so so_perm so_perm fuel b player depth Hr Hp Hf g0)
    as (vt & _ & Hpr).
  exists vt. intros g. destruct (Hpr NegInf PosInf g I) as (v & g' & Hv & Hok).
  apply val_ok_full in Hok. subst v. exists g'. assumption.
Qed.

(** The score [get_best_move] gives to each move. *)
Lemma scores_exist (fuel : nat) (b : board) (player depth : Z) :
  rect b -> player = 1 \/ player = 2 -> tally 0 b <= Z.of_nat fuel -> G ->
  exists sc : location -> ext,
    forall m, on_board b m = true -> cell b m = Some 0 ->
      forall g, exists g',
        negamax so fuel (after b player m) player depth NegInf PosInf true g
        = Done (sc m, g').
Proof.
  intros Hr Hp Hf g0.
  exists (fun m =>
            match negamax so fuel (after b player m) player depth NegInf PosInf true g0 with
            | Done (v, _) => v
            | _ => NegInf
            end).
  intros m Hon H0 g.
  destruct (root_value fuel (after b player m) player depth) as [v Hv];
    [apply rect_after; assumption|assumption| |exact g0|].
  - rewrite tally_after by (auto; lia). lia.
  - destruct (Hv g0) as [g0' ->]. apply Hv.
Qed.

Lemma best_move_loop_choose (fuel : nat) (b : board) (player plies : Z)
    (sc : location -> ext) :
  rect b ->
  (forall m, on_board b m = true -> cell b m = Some 0 ->
     forall g, exists g',
       negamax so fuel (after b player m) player (plies - 1) NegInf PosInf true g
       = Done (sc m, g')) ->
  forall (moves : list location) (acc : option location * ext) (g : G),
    (forall m, m ∈ moves -> on_board b m = true /\ cell b m = Some 0) ->
    exists g', best_move_loop so fuel b player plies moves acc g
               = Done (choose (len b) sc moves acc, g').
Proof.
  intros Hr Hsc. induction moves as [|m moves IH]; intros acc g Hall.
  - exists g. reflexivity.
  - cbn [best_move_loop]. destruct (Hall m ltac:(left)) as [Hon H0].
    rewrite Othello_init_copy by (eapply on_board_nonempty; eassumption). cbn [bind].
    rewrite play_move_legal by assumption. cbn [bind].
    destruct (Hsc m Hon H0 g) as [g' ->]. cbn [bind].
    destruct (IH (better (len b) acc m (sc m)) g') as [g'' Hloop];
      [intros m' Hm'; apply Hall; right; assumption|].
    exists g''. exact Hloop.
Qed.

Lemma get_best_move_rect (fuel : nat) (b : board) (player plies : Z) :
  rect b -> player = 1 \/ player = 2 -> tally 0 b <= Z.of_nat fuel -> G ->
  exists sc : location -> ext,
    (forall m, on_board b m = true -> cell b m = Some 0 ->
       forall g, exists g',
         negamax so fuel (after b player m) player (plies - 1) NegInf PosInf true g
         = Done (sc m, g')) /\
    forall g, exists g',
      get_best_move so fuel b player plies g
      = Done ((choose (len b) sc (filter (legal_move b player) (coords b))
                      (None, NegInf)).1, g').
Proof.
  intros Hr Hp Hf g0.
  destruct (scores_exist fuel b player (plies - 1) Hr Hp Hf g0) as [sc Hsc].
  exists sc. split; [exact Hsc|]. intros g.
  unfold get_best_move. rewrite available_moves_rect by assumption. cbn [bind].
  destruct (best_move_loop_choose fuel b player plies sc Hr Hsc
              (filter (legal_move b player) (coords b)) (None, NegInf) g) as [g' ->].
  - intros m Hm. apply legal_move_on_board in Hm as [Hon [H0 _]]. auto.
  - cbn [bind]. exists g'. reflexivity.
Qed.

End BestMove.

(** C6: [get_best_move] scores every available move (the score does not
    depend on the state of the random source) and returns a move of the
    greatest score; among the moves of that score it returns one of the
    greatest location class, and among those the first in the list of
    [_get_available_moves], which is the legal moves in the row-major
    order [coords] of the board.  The class [get_location_type] gives a
    cell is the class of the rules, [location_class]: 3 for a corner
    (both coordinates are 0 or [len(board) - 1]), 2 for an edge (exactly
    one is), 1 for an interior cell; so at equal score a corner is
    chosen over an edge or an interior cell, and an edge over an
    interior cell. *)
Theorem best_move_tie_break :
  forall (G : Type) (so : G -> nat -> list nat * G) (b : board) (player plies : Z)
         (fuel : nat) (g : G),
    (forall g n, Permutation (so g n).1 (seq 0 n)) ->
    rect b -> player = 1 \/ player = 2 ->
    get_state_value b 0 <= Z.of_nat fuel ->
    (forall c : location,
       get_location_type c (len b) = location_class (len b) c /\
       (location_class (len b) c = 3 <->
          (c.1 = 0 \/ c.1 = len b - 1) /\ (c.2 = 0 \/ c.2 = len b - 1)) /\
       (location_class (len b) c = 2 <->
          ((c.1 = 0 \/ c.1 = len b - 1) /\ ~ (c.2 = 0 \/ c.2 = len b - 1)) \/
          (~ (c.1 = 0 \/ c.1 = len b - 1) /\ (c.2 = 0 \/ c.2 = len b - 1))) /\
       (location_class (len b) c = 1 <->
          ~ (c.1 = 0 \/ c.1 = len b - 1) /\ ~ (c.2 = 0 \/ c.2 = len b - 1))) /\
    exists (moves : list location) (sc : location -> ext) r g',
      _get_available_moves b player = Done moves /\
      moves = filter (legal_move b player) (coords b) /\
      (forall m, m ∈ moves ->
         play_move b m player = Done (after b player m) /\
         forall g1, exists g2,
           negamax so fuel (after b player m) player (plies - 1) NegInf PosInf true g1
           = Done (sc m, g2)) /\
      get_best_move so fuel b player plies g = Done (r, g') /\
      (moves <> [] -> r <> None) /\
      forall m, r = Some m ->
        exists i : nat, moves !! i = Some m /\
          forall (j : nat) m', moves !! j = Some m' ->
            le_ext (sc m') (sc m) /\
            (sc m' = sc m ->
               location_class (len b) m' <= location_class (len b) m /\
               (location_class (len b) m' = location_class (len b) m ->
                  (i <= j)%nat)).
Proof.
  intros G so b player plies fuel g Hso Hr Hp Hf.
  split.
  { intros c. split; [apply get_location_type_spec|].
    rewrite <- !get_location_type_spec. apply get_location_type_class. }
  rewrite get_state_value_tally in Hf.
  destruct (get_best_move_rect so Hso fuel b player plies Hr Hp Hf g) as (sc & Hsc & Hbm).
  destruct (Hbm g) as [g' Hg].
  set (moves := filter (legal_move b player) (coords b)) in *.
  exists moves, sc, (choose (len b) sc moves (None, NegInf)).1, g'.
  split; [apply available_moves_rect; assumption|]. split; [reflexivity|]. split.
  { intros m Hm. apply legal_move_on_board in Hm as [Hon [H0 _]].
    split; [apply play_move_legal; assumption|apply Hsc; assumption]. }
  split; [exact Hg|].
  pose proof (choose_spec (len b) sc moves) as Hfb. unfold first_best in Hfb.
  destruct (choose (len b) sc moves (None, NegInf)) as [[m|] s]; cbn [fst snd] in *.
  - split; [discriminate|]. intros m0 [= <-].
    destruct Hfb as (_ & i & Hi & Hall). exists i. split; [exact Hi|].
    intros j m' Hj. destruct (Hall j m' Hj) as [Hnb Hlt].
    rewrite <- !get_location_type_spec. split.
    + apply not_lt_ext. intros H. apply Hnb. left. exact H.
    + intros Heq. split.
      * destruct (Z.le_gt_cases (get_location_type m' (len b))
                    (get_location_type m (len b))) as [Hc|Hc]; [exact Hc|].
        exfalso. apply Hnb. right. split; [exact Heq|lia].
      * intros Hcl. destruct (Nat.le_gt_cases i j) as [Hij|Hij]; [exact Hij|].
        exfalso. destruct (Hlt Hij) as [H|[_ H]]; [|lia].
        rewrite Heq in H. exact (lt_ext_irrefl _ H).
  - destruct Hfb as [-> _]. split; [congruence|discriminate].
Qed.

(** C8: [get_best_move] returns [None] exactly when
    [_get_available_moves(player)] is empty; otherwise it returns one of
    the available moves, an on-board empty cell where [get_flipped] is
    not empty. *)
Theorem best_move_is_available :
  forall (G : Type) (so : G -> nat -> list nat * G) (b : board) (player plies : Z)
         (fuel : nat) (g : G),
    (forall g n, Permutation (so g n).1 (seq 0 n)) ->
    rect b -> player = 1 \/ player = 2 -> 1 <= plies ->
    get_state_value b 0 <= Z.of_nat fuel ->
    exists (moves : list location) r g',
      _get_available_moves b player = Done moves /\
      get_best_move so fuel b player plies g = Done (r, g') /\
      (r = None <-> moves = []) /\
      forall m, r = Some m ->
        m ∈ moves /\ on_board b m = true /\ cell b m = Some 0 /\
        exists flipped, get_flipped b m player = Done flipped /\ flipped <> [].
Proof.
  intros G so b player plies fuel g Hso Hr Hp _ Hf.
  rewrite get_state_value_tally in Hf.
  destruct (get_best_move_rect so Hso fuel b player plies Hr Hp Hf g) as (sc & Hsc & Hbm).
  destruct (Hbm g) as [g' Hg].
  set (moves := filter (legal_move b player) (coords b)) in *.
  exists moves, (choose (len b) sc moves (None, NegInf)).1, g'.
  split; [apply available_moves_rect; assumption|]. split; [exact Hg|].
  pose proof (choose_spec (len b) sc moves) as Hfb. unfold first_best in Hfb.
  destruct (choose (len b) sc moves (None, NegInf)) as [[m|] s]; cbn [fst snd] in *.
  - destruct Hfb as (_ & i & Hi & _).
    assert (Hm : m ∈ moves) by (apply list_elem_of_lookup; eauto).
    split; [split; [discriminate|intros He; rewrite He in Hm; inversion Hm]|].
    intros m0 [= <-]. split; [exact Hm|].
    apply legal_move_on_board in Hm as [Hon [H0 Hfl]].
    split; [exact Hon|]. split; [exact H0|].
    exists (offsets ≫= contribution b m player). split; [|exact Hfl].
    apply get_flipped_rect; [assumption|right; left; assumption].
  - destruct Hfb as [-> _]. split; [tauto|discriminate].
Qed.

(** ** The store: constructor and writes *)

Lemma extends_refl (h : heap) : extends h h.
Proof. intros a row H. exact H. Qed.

Lemma extends_trans (h1 h2 h3 : heap) : extends h1 h2 -> extends h2 h3 -> extends h1 h3.
Proof. intros H12 H23 a row H. apply H23, H12, H. Qed.

Lemma extends_length (h h' : heap) : extends h h' -> (length h <= length h')%nat.
Proof.
  intros He. destruct (length h) as [|n] eqn:Hn; [lia|].
  destruct (lookup_lt_is_Some_2 h n) as [row Hrow]; [lia|].
  apply He, lookup_lt_Some in Hrow. lia.
Qed.

Lemma extends_app (h rows : heap) : extends h (h ++ rows).
Proof. intros a row H. apply lookup_app_l_Some. exact H. Qed.

Lemma valid_extends (h h' : heap) (gr : grid) :
  valid h gr -> extends h h' -> valid h' gr.
Proof.
  unfold valid. intros Hv He. apply extends_length in He.
  eapply Forall_impl; [exact Hv|]. cbn beta. intros a Ha. lia.
Qed.

Lemma read_extends (h h' : heap) (gr : grid) :
  valid h gr -> extends h h' -> read h' gr = read h gr.
Proof.
  unfold valid, read. intros Hv He. apply Forall_fmap_ext.
  eapply Forall_impl; [exact Hv|]. cbn beta. intros a Ha.
  destruct (lookup_lt_is_Some_2 h a Ha) as [row Hrow].
  rewrite (He a row Hrow), Hrow. reflexivity.
Qed.

Lemma read_length (h : heap) (gr : grid) : length (read h gr) = length gr.
Proof. unfold read. apply length_fmap. Qed.

Lemma map_copy (b : board) : map (fun row => map (fun x => x) row) b = b.
Proof.
  rewrite <- (map_id b) at 2. apply map_ext. intros r. apply map_id.
Qed.

Lemma read_fresh (h rows : heap) :
  read (h ++ rows) (seq (length h) (length rows)) = rows.
Proof.
  unfold read. apply list_eq. intros i. rewrite list_lookup_fmap.
  destruct (decide (i < length rows)%nat) as [Hi|Hi].
  - rewrite lookup_seq_lt by assumption. cbn [fmap option_fmap option_map].
    rewrite lookup_app_r by lia.
    replace (length h + i - length h)%nat with i by lia.
    destruct (lookup_lt_is_Some_2 rows i Hi) as [row ->]. reflexivity.
  - rewrite lookup_seq_ge by lia. rewrite lookup_ge_None_2 by lia. reflexivity.
Qed.

(** The constructor on a non-empty grid: fresh, distinct rows with the
    contents of the argument; nothing that existed is touched. *)
Lemma h_Othello_init_spec (h : heap) (gr : grid) :
  gr <> [] ->
  let h' := h ++ read h gr in
  let self := seq (length h) (length gr) in
  h_Othello_init h gr = Done (h', self) /\
  Othello_init (read h gr) = Done (read h gr) /\
  read h' self = read h gr /\
  instance h' self /\ extends h h' /\
  (forall a, a ∈ self -> (length h <= a)%nat).
Proof.
  intros Hne h' self.
  assert (Hrne : read h gr <> []).
  { intros H. apply (f_equal length) in H. rewrite read_length in H.
    destruct gr; [congruence|discriminate]. }
  split; [|split; [apply Othello_init_copy; exact Hrne|]].
  - unfold h_Othello_init. rewrite map_copy. destruct gr; [congruence|reflexivity].
  - split.
    + unfold h', self. rewrite <- (read_length h gr). apply read_fresh.
    + split; [split|split].
      * apply NoDup_seq.
      * unfold valid, self, h'. apply Forall_forall. intros a Ha.
        apply elem_of_seq in Ha. rewrite length_app, read_length. lia.
      * apply extends_app.
      * intros a Ha. apply elem_of_seq in Ha. lia.
Qed.

Lemma h_Othello_init_empty (h : heap) :
  h_Othello_init h [] = Raise AssertionError /\
  Othello_init (read h []) = Raise AssertionError.
Proof. split; reflexivity. Qed.

Lemma py_pos_lt (n : nat) (i : Z) (j : nat) :
  py_pos n i = Some j -> (j < n)%nat.
Proof.
  unfold py_pos. destruct (Z.ltb_spec (if i <? 0 then i + Z.of_nat n else i) 0);
    [discriminate|].
  destruct (Z.ltb_spec (if i <? 0 then i + Z.of_nat n else i) (Z.of_nat n));
    [|discriminate].
  intros [= <-]. lia.
Qed.

Lemma py_index_pos {A : Type} (l : list A) (i : Z) :
  py_index l i =
  match py_pos (length l) i with
  | Some j => match l !! j with Some v => Done v | None => Raise IndexError end
  | None => Raise IndexError
  end.
Proof.
  unfold py_index, py_pos, len.
  set (j := if i <? 0 then i + Z.of_nat (length l) else i).
  destruct (Z.ltb_spec j 0); [reflexivity|].
  destruct (Z.ltb_spec j (Z.of_nat (length l))); [reflexivity|].
  rewrite lookup_ge_None_2 by lia. reflexivity.
Qed.

Lemma py_setitem_pos {A : Type} (l : list A) (i : Z) (w : A) :
  py_setitem l i w =
  match py_pos (length l) i with
  | Some j => Done (<[j := w]> l)
  | None => Raise IndexError
  end.
Proof.
  unfold py_setitem, py_pos, len.
  set (j := if i <? 0 then i + Z.of_nat (length l) else i).
  destruct (Z.ltb_spec j 0); [reflexivity|].
  destruct (Z.ltb_spec j (Z.of_nat (length l))); reflexivity.
Qed.

Lemma py_index_fmap {A B : Type} (f : A -> B) (l : list A) (i : Z) :
  py_index (f <$> l) i = let* v := py_index l i in Done (f v).
Proof.
  unfold py_index, len. rewrite length_fmap.
  destruct (_ <? 0); [reflexivity|]. rewrite list_lookup_fmap.
  destruct (l !! _); reflexivity.
Qed.

Lemma read_insert (h : heap) (self : grid) (j a : nat) (row : list Z) :
  NoDup self -> self !! j = Some a -> (a < length h)%nat ->
  read (<[a := row]> h) self = <[j := row]> (read h self).
Proof.
  intros Hnd Hj Ha. unfold read. apply list_eq. intros k.
  rewrite list_lookup_fmap.
  destruct (decide (k = j)) as [->|Hkj].
  - rewrite Hj. cbn. rewrite list_lookup_insert_eq by assumption.
    rewrite list_lookup_insert_eq; [reflexivity|].
    rewrite length_fmap. eapply lookup_lt_Some. eassumption.
  - rewrite list_lookup_insert_ne by congruence. rewrite list_lookup_fmap.
    destruct (self !! k) as [a'|] eqn:Hk; [|reflexivity]. cbn.
    rewrite list_lookup_insert_ne; [reflexivity|].
    intros ->. apply Hkj. eapply NoDup_lookup; eassumption.
Qed.

Lemma instance_same_length (h h' : heap) (self : grid) :
  instance h self -> length h' = length h -> instance h' self.
Proof. unfold instance, valid. intros [Hnd Hv] Hl. rewrite Hl. auto. Qed.

Lemma h_set_cell_mutates (h : heap) (self : grid) (loc : location) (v : Z) :
  instance h self ->
  mutates h self (h_set_cell h self loc v) (set_cell (read h self) loc v).
Proof.
  intros [Hnd Hv]. unfold h_set_cell, set_cell.
  unfold read at 1. rewrite py_index_fmap, py_index_pos.
  destruct (py_pos (length self) loc.2) as [j|] eqn:Hpos; [|reflexivity].
  destruct (lookup_lt_is_Some_2 self j (py_pos_lt _ _ _ Hpos)) as [a Hj].
  rewrite Hj. cbn [bind].
  assert (Ha : (a < length h)%nat).
  { unfold valid in Hv. rewrite Forall_forall in Hv. apply Hv.
    apply list_elem_of_lookup. eauto. }
  destruct (py_setitem (default [] (h !! a)) loc.1 v) as [row'| |]; cbn [bind];
    [|reflexivity|reflexivity].
  rewrite py_setitem_pos, read_length, Hpos.
  exists (<[a := row']> h). split; [reflexivity|]. split; [|split].
  - apply read_insert; assumption.
  - apply length_insert.
  - intros a' Ha'. apply list_lookup_insert_ne. intros ->. apply Ha'.
    apply list_elem_of_lookup. eauto.
Qed.

Lemma mutates_then (h : heap) (self : grid) (hm : outcome heap) (m : outcome board)
    (hk : heap -> outcome heap) (k : board -> outcome board) :
  instance h self ->
  mutates h self hm m ->
  (forall h', instance h' self -> mutates h' self (hk h') (k (read h' self))) ->
  mutates h self (bind hm hk) (bind m k).
Proof.
  intros Hi Hm Hk. destruct m as [b'| |]; cbn [mutates] in Hm.
  - destruct Hm as (h' & -> & <- & Hlen & Hframe). cbn [bind].
    specialize (Hk h' (instance_same_length _ _ _ Hi Hlen)).
    destruct (k (read h' self)) as [b''| |]; cbn [mutates] in *; [|assumption|assumption].
    destruct Hk as (h'' & -> & Hr & Hlen' & Hframe').
    exists h''. split; [reflexivity|]. split; [assumption|]. split; [congruence|].
    intros a Ha. rewrite Hframe', Hframe by assumption. reflexivity.
  - subst hm. reflexivity.
  - subst hm. reflexivity.
Qed.

Lemma h_flip_all_mutates (flipped : list location) (player : Z) (self : grid) :
  forall h : heap,
    instance h self ->
    mutates h self (h_flip_all h self flipped player)
            (flip_all (read h self) flipped player).
Proof.
  induction flipped as [|c flipped IH]; intros h Hi.
  - exists h. auto.
  - cbn [h_flip_all flip_all].
    apply (mutates_then h self _ _ (fun h' => h_flip_all h' self flipped player)
             (fun b' => flip_all b' flipped player));
      [assumption|apply h_set_cell_mutates; assumption|].
    intros h' Hi'. apply IH. assumption.
Qed.

(** [play_move] writes the rows of its own engine and nothing else. *)
Lemma h_play_move_mutates (h : heap) (self : grid) (loc : location) (player : Z) :
  instance h self ->
  mutates h self (h_play_move h self loc player)
          (play_move (read h self) loc player).
Proof.
  intros Hi. unfold h_play_move, play_move.
  apply (mutates_then h self _ _
           (fun h1 => let* flipped := get_flipped (read h1 self) loc player in
                      h_flip_all h1 self flipped player)
           (fun b1 => let* flipped := get_flipped b1 loc player in
                      flip_all b1 flipped player));
    [assumption|apply h_set_cell_mutates; assumption|].
  intros h1 Hi1. cbn beta.
  destruct (get_flipped (read h1 self) loc player) as [flipped| |]; cbn [bind];
    [|reflexivity|reflexivity].
  apply h_flip_all_mutates. assumption.
Qed.

(** ** The store: children and search *)

Lemma refines_extends {A : Type} (h h1 : heap) (hm : outcome (heap * A)) (m : outcome A) :
  extends h h1 -> refines h1 hm m -> refines h hm m.
Proof.
  intros He. destruct m as [r| |]; cbn [refines]; [|auto|auto].
  intros (h' & -> & He'). exists h'. split; [reflexivity|].
  eapply extends_trans; eassumption.
Qed.

Lemma spawns_extends (n : nat) (h h1 : heap) (hm : outcome (heap * list grid))
    (m : outcome (list board)) :
  extends h h1 -> spawns n h1 hm m -> spawns n h hm m.
Proof.
  intros He. destruct m as [r| |]; cbn [spawns]; [|auto|auto].
  intros (h' & cs & -> & He' & Hr & Hi). exists h', cs.
  split; [reflexivity|]. split; [eapply extends_trans; eassumption|auto].
Qed.

Lemma fresh_le (n n' : nat) (gr : grid) : (n <= n')%nat -> fresh n' gr -> fresh n gr.
Proof.
  unfold fresh. intros Hle Hf. eapply Forall_impl; [exact Hf|].
  cbn beta. intros a Ha. lia.
Qed.

Lemma instance_extends (h h' : heap) (gr : grid) :
  instance h gr -> extends h h' -> instance h' gr.
Proof. intros [Hnd Hv] He. split; [assumption|eapply valid_extends; eassumption]. Qed.

(** Writing rows that did not exist in [h] leaves [h] as it was. *)
Lemma fresh_write_extends (h h1 h2 : heap) (child : grid) :
  extends h h1 -> fresh (length h) child ->
  (forall a, a ∉ child -> h2 !! a = h1 !! a) ->
  extends h h2.
Proof.
  intros He Hf Hframe a row Ha. rewrite Hframe; [apply He; exact Ha|].
  intros Hin. unfold fresh in Hf. rewrite Forall_forall in Hf.
  apply Hf in Hin. apply lookup_lt_Some in Ha. lia.
Qed.

(** Constructing an engine on [self] and moving on it. *)
Lemma h_child_spec (h : heap) (self : grid) (move : location) (player : Z) :
  match (let* child := Othello_init (read h self) in play_move child move player) with
  | Done b' =>
      exists h2 child,
        h_child h self move player = Done (h2, child) /\
        read h2 child = b' /\ instance h2 child /\ fresh (length h) child /\
        extends h h2
  | Raise e => h_child h self move player = Raise e
  | Timeout => h_child h self move player = Timeout
  end.
Proof.
  unfold h_child.
  destruct self as [|a0 self'] eqn:Hself; [reflexivity|]. rewrite <- Hself.
  assert (Hne : self <> []) by (rewrite Hself; discriminate).
  destruct (h_Othello_init_spec h self Hne) as (Hinit & Hpure & Hread & Hinst & Hext & Hfresh).
  set (h1 := h ++ read h self) in *. set (child := seq (length h) (length self)) in *.
  rewrite Hpure, Hinit. cbn [bind].
  pose proof (h_play_move_mutates h1 child move player Hinst) as Hm.
  rewrite Hread in Hm.
  destruct (play_move (read h self) move player) as [b'| |]; cbn [mutates] in Hm.
  - destruct Hm as (h2 & Hpm & Hr & Hlen & Hframe).
    exists h2, child. rewrite Hpm. cbn [bind]. repeat split; try assumption.
    + destruct Hinst. assumption.
    + destruct Hinst as [_ Hv]. unfold valid in *. rewrite Hlen. assumption.
    + apply Forall_forall. exact Hfresh.
    + eapply fresh_write_extends; [exact Hext| |exact Hframe].
      apply Forall_forall. exact Hfresh.
  - rewrite Hm. reflexivity.
  - rewrite Hm. reflexivity.
Qed.

Lemma h_children_loop_cons (h : heap) (self : grid) (player : Z) (move : location)
    (moves : list location) (acc : list grid) :
  h_children_loop h self player (move :: moves) acc =
  let* (h2, child) := h_child h self move player in
  h_children_loop h2 self player moves (acc ++ [child]).
Proof.
  cbn [h_children_loop]. unfold h_child.
  destruct (h_Othello_init h self) as [[h1 child]| |]; cbn [bind]; try reflexivity.
  destruct (h_play_move h1 child move player); reflexivity.
Qed.

Lemma h_children_loop_spawns (n : nat) (self : grid) (player : Z)
    (moves : list location) :
  forall (h : heap) (acc : list grid),
    (n <= length h)%nat ->
    valid h self -> Forall (instance h) acc -> Forall (fresh n) acc ->
    spawns n h (h_children_loop h self player moves acc)
           (children_loop (read h self) player moves (read h <$> acc)).
Proof.
  induction moves as [|move moves IH]; intros h acc Hn Hv Hacc Hfr.
  - exists h, acc. auto 6 using extends_refl.
  - rewrite h_children_loop_cons. cbn [children_loop].
    pose proof (h_child_spec h self move player) as Hc.
    destruct (Othello_init (read h self)) as [cb| |]; cbn [bind] in *;
      [|rewrite Hc; reflexivity|rewrite Hc; reflexivity].
    destruct (play_move cb move player) as [b'| |]; cbn [bind];
      [|rewrite Hc; reflexivity|rewrite Hc; reflexivity].
    destruct Hc as (h2 & child & -> & Hr & Hinst & Hfresh & Hext). cbn [bind].
    eapply spawns_extends; [exact Hext|].
    specialize (IH h2 (acc ++ [child])).
    rewrite (read_extends h h2 self Hv Hext) in IH.
    replace (read h2 <$> acc ++ [child]) with ((read h <$> acc) ++ [b']) in IH.
    + apply IH; [apply extends_length in Hext; lia
                |eapply valid_extends; eassumption| |].
      * apply Forall_app. split; [|constructor; [assumption|constructor]].
        eapply Forall_impl; [exact Hacc|]. intros gr Hgr.
        eapply instance_extends; eassumption.
      * apply Forall_app. split; [assumption|].
        constructor; [|constructor]. eapply fresh_le; eassumption.
    + rewrite fmap_app. cbn. rewrite Hr. f_equal.
      apply Forall_fmap_ext. eapply Forall_impl; [exact Hacc|].
      intros gr [_ Hgr]. symmetry. apply read_extends; assumption.
Qed.

(** [get_children] builds every child on rows of its own. *)
Lemma h_get_children_spawns (h : heap) (self : grid) (player : Z) :
  valid h self ->
  spawns (length h) h (h_get_children h self player)
         (get_children (read h self) player).
Proof.
  intros Hv. unfold h_get_children, get_children.
  destruct (_get_available_moves (read h self) player) as [moves| |]; cbn [bind];
    [|reflexivity|reflexivity].
  apply (h_children_loop_spawns (length h) self player moves h []);
    [lia|assumption|constructor|constructor].
Qed.

Lemma shuffle_fmap {G A B : Type} (so : G -> nat -> list nat * G) (f : A -> B)
    (g : G) (l : list A) :
  shuffle so g (f <$> l) = (f <$> (shuffle so g l).1, (shuffle so g l).2).
Proof.
  unfold shuffle. rewrite length_fmap.
  destruct (so g (length l)) as [order g']. cbn [fst snd]. f_equal.
  induction order as [|i order IH]; [reflexivity|].
  cbn [omap list_omap]. rewrite list_lookup_fmap.
  destruct (l !! i); cbn; rewrite IH; reflexivity.
Qed.

Lemma shuffle_elem {G A : Type} (so : G -> nat -> list nat * G) (g : G) (l : list A)
    (x : A) :
  x ∈ (shuffle so g l).1 -> x ∈ l.
Proof.
  unfold shuffle. destruct (so g (length l)) as [order g']. cbn [fst].
  intros Hx. apply list_elem_of_omap in Hx as (i & _ & Hi).
  apply list_elem_of_lookup. eauto.
Qed.

Section HeapRefinement.

Context {G : Type}.
Variable so : G -> nat -> list nat * G.

Lemma h_negamax_loop_refines
    (hrecur : heap -> grid -> ext -> ext -> G -> outcome (heap * (ext * G)))
    (recur : board -> ext -> ext -> G -> outcome (ext * G)) :
  (forall h c x y g, valid h c ->
     refines h (hrecur h c x y g) (recur (read h c) x y g)) ->
  forall (cs : list grid) (h : heap) (best a b : ext) (isPruning : bool) (g : G),
    Forall (valid h) cs ->
    refines h (h_negamax_loop hrecur h cs best a b isPruning g)
            (negamax_loop recur (read h <$> cs) best a b isPruning g).
Proof.
  intros Hrec. induction cs as [|c cs IH]; intros h best a b isPruning g Hcs.
  - exists h. split; [reflexivity|apply extends_refl].
  - rewrite fmap_cons. cbn [h_negamax_loop negamax_loop].
    apply Forall_cons in Hcs as [Hc Hcs].
    specialize (Hrec h c (eneg b) (eneg a) g Hc).
    destruct (recur (read h c) (eneg b) (eneg a) g) as [[v g']| |];
      cbn [refines] in Hrec; [|rewrite Hrec; reflexivity|rewrite Hrec; reflexivity].
    destruct Hrec as (h1 & -> & He). cbn [bind].
    assert (Hcs1 : Forall (valid h1) cs).
    { eapply Forall_impl; [exact Hcs|]. intros gr Hgr.
      eapply valid_extends; eassumption. }
    assert (Hreads : read h <$> cs = read h1 <$> cs).
    { apply Forall_fmap_ext. eapply Forall_impl; [exact Hcs|].
      intros gr Hgr. symmetry. apply read_extends; assumption. }
    rewrite Hreads.
    destruct isPruning; [destruct (ele b (emax a v))|].
    + exists h1. split; [reflexivity|assumption].
    + eapply refines_extends; [exact He|]. apply IH. assumption.
    + eapply refines_extends; [exact He|]. apply IH. assumption.
Qed.

(** [negamax] on objects computes what [negamax] on contents computes
    and leaves every object that existed as it was. *)
Lemma h_negamax_refines (fuel : nat) :
  forall (h : heap) (self : grid) (player depth : Z) (a b : ext)
         (isPruning : bool) (g : G),
    valid h self ->
    refines h (h_negamax so fuel h self player depth a b isPruning g)
            (negamax so fuel (read h self) player depth a b isPruning g).
Proof.
  induction fuel as [|fuel IH]; intros h self player depth a b isPruning g Hv;
    [reflexivity|].
  cbn [h_negamax negamax].
  destruct (_is_state_terminal (read h self)) as [t| |]; cbn [bind];
    [|reflexivity|reflexivity].
  destruct ((depth =? 0) || t).
  { exists h. split; [reflexivity|apply extends_refl]. }
  destruct (players player) as [opp| |]; cbn [bind]; [|reflexivity|reflexivity].
  pose proof (h_get_children_spawns h self opp Hv) as Hsp.
  destruct (get_children (read h self) opp) as [bs| |]; cbn [spawns] in Hsp;
    [|rewrite Hsp; reflexivity|rewrite Hsp; reflexivity].
  destruct Hsp as (h1 & cs & -> & He & <- & Hinst & _). cbn [bind].
  rewrite shuffle_fmap.
  pose proof (shuffle_elem so g cs) as Hel.
  destruct (shuffle so g cs) as [cs' g1]. cbn [fst snd] in *.
  assert (Hcs' : Forall (valid h1) cs').
  { apply Forall_forall. intros c Hc. apply Hel in Hc.
    rewrite Forall_forall in Hinst. destruct (Hinst c Hc). assumption. }
  pose proof (h_negamax_loop_refines
                (fun h' child a' b' g' =>
                   h_negamax so fuel h' child opp (depth - 1) a' b' isPruning g')
                (fun child a' b' g' =>
                   negamax so fuel child opp (depth - 1) a' b' isPruning g')
                (fun h' c x y g' Hc => IH h' c opp (depth - 1) x y isPruning g' Hc)
                cs' h1 NegInf a b isPruning g1 Hcs') as Hloop.
  destruct (negamax_loop _ (read h1 <$> cs') NegInf a b isPruning g1) as [[best g2]| |];
    cbn [refines] in Hloop; [|rewrite Hloop; reflexivity|rewrite Hloop; reflexivity].
  destruct Hloop as (h2 & -> & He2). cbn [bind].
  exists h2. split; [reflexivity|]. eapply extends_trans; eassumption.
Qed.

Lemma h_best_move_loop_cons (fuel : nat) (h : heap) (self : grid) (player plies : Z)
    (move : location) (moves : list location) (best_move : option location * ext)
    (g : G) :
  h_best_move_loop so fuel h self player plies (move :: moves) best_move g =
  let* (h2, child) := h_child h self move player in
  let* (h3, (score, g')) :=
    h_negamax so fuel h2 child player (plies - 1) NegInf PosInf true g in
  h_best_move_loop so fuel h3 self player plies moves
    (better (len self) best_move move score) g'.
Proof.
  cbn [h_best_move_loop]. unfold h_child.
  destruct (h_Othello_init h self) as [[h1 child]| |]; cbn [bind]; try reflexivity.
  destruct (h_play_move h1 child move player); reflexivity.
Qed.

Lemma h_best_move_loop_refines (fuel : nat) (self : grid) (player plies : Z)
    (moves : list location) :
  forall (h : heap) (best_move : option location * ext) (g : G),
    valid h self ->
    refines h (h_best_move_loop so fuel h self player plies moves best_move g)
            (best_move_loop so fuel (read h self) player plies moves best_move g).
Proof.
  induction moves as [|move moves IH]; intros h best_move g Hv.
  - exists h. split; [reflexivity|apply extends_refl].
  - rewrite h_best_move_loop_cons. cbn [best_move_loop].
    pose proof (h_child_spec h self move player) as Hc.
    destruct (Othello_init (read h self)) as [cb| |]; cbn [bind] in *;
      [|rewrite Hc; reflexivity|rewrite Hc; reflexivity].
    destruct (play_move cb move player) as [b'| |]; cbn [bind];
      [|rewrite Hc; reflexivity|rewrite Hc; reflexivity].
    destruct Hc as (h2 & child & -> & <- & [_ Hvc] & _ & He). cbn [bind].
    pose proof (h_negamax_refines fuel h2 child player (plies - 1)
                  NegInf PosInf true g Hvc) as Hn.
    destruct (negamax so fuel (read h2 child) player (plies - 1) NegInf PosInf true g)
      as [[score g']| |]; cbn [refines] in Hn;
      [|rewrite Hn; reflexivity|rewrite Hn; reflexivity].
    destruct Hn as (h3 & -> & He3). cbn [bind].
    assert (He' : extends h h3) by (eapply extends_trans; eassumption).
    eapply refines_extends; [exact He'|].
    specialize (IH h3 (better (len self) best_move move score) g'
                   (valid_extends _ _ _ Hv He')).
    rewrite (read_extends h h3 self Hv He') in IH.
    unfold better in IH. unfold len in *. rewrite read_length. exact IH.
Qed.

Lemma h_get_best_move_refines (fuel : nat) (h : heap) (self : grid)
    (player plies : Z) (g : G) :
  valid h self ->
  refines h (h_get_best_move so fuel h self player plies g)
          (get_best_move so fuel (read h self) player plies g).
Proof.
  intros Hv. unfold h_get_best_move, get_best_move.
  destruct (_get_available_moves (read h self) player) as [moves| |]; cbn [bind];
    [|reflexivity|reflexivity].
  pose proof (h_best_move_loop_refines fuel self player plies moves h
                (None, NegInf) g Hv) as Hl.
  destruct (best_move_loop so fuel (read h self) player plies moves (None, NegInf) g)
    as [[bm g']| |]; cbn [refines] in Hl;
    [|rewrite Hl; reflexivity|rewrite Hl; reflexivity].
  destruct Hl as (h' & -> & He). cbn [bind].
  exists h'. split; [reflexivity|assumption].
Qed.

(** [pick_move] on the caller's grid computes the move the contents
    determine and leaves every object of the caller as it was. *)
Lemma h_pick_move_refines (fuel : nat) (cp : ComputerPlayer) (h : heap) (gr : grid)
    (g : G) :
  refines h (h_pick_move so fuel cp h gr g) (pick_move so fuel cp (read h gr) g).
Proof.
  unfold h_pick_move, pick_move.
  destruct gr as [|a0 gr'] eqn:Hgr; [reflexivity|]. rewrite <- Hgr.
  assert (Hne : gr <> []) by (rewrite Hgr; discriminate).
  destruct (h_Othello_init_spec h gr Hne) as (-> & -> & Hread & [_ Hv] & He & _).
  cbn [bind].
  pose proof (h_get_best_move_refines fuel _ _ (player_ID cp) (difficulty_level cp)
                g Hv) as Hbm.
  rewrite Hread in Hbm. eapply refines_extends; [exact He|exact Hbm].
Qed.

End HeapRefinement.

Lemma mutates_Done (h h' : heap) (self : grid) (hm : outcome heap) (m : outcome board) :
  mutates h self hm m -> hm = Done h' ->
  m = Done (read h' self) /\ length h' = length h /\
  forall a, a ∉ self -> h' !! a = h !! a.
Proof.
  destruct m as [b'| |]; cbn [mutates]; [|congruence|congruence].
  intros (h'' & -> & <- & Hl & Hf) [= <-]. auto.
Qed.

Lemma refines_Done {A : Type} (h h' : heap) (r : A) (hm : outcome (heap * A))
    (m : outcome A) :
  refines h hm m -> hm = Done (h', r) -> m = Done r /\ extends h h'.
Proof.
  destruct m as [r'| |]; cbn [refines]; [|congruence|congruence].
  intros (h'' & -> & He) [= <- <-]. auto.
Qed.

Lemma spawns_Done (n : nat) (h h' : heap) (cs : list grid)
    (hm : outcome (heap * list grid)) (m : outcome (list board)) :
  spawns n h hm m -> hm = Done (h', cs) ->
  m = Done (read h' <$> cs) /\ extends h h' /\
  Forall (instance h') cs /\ Forall (fresh n) cs.
Proof.
  destruct m as [bs| |]; cbn [spawns]; [|congruence|congruence].
  intros (h'' & cs' & -> & He & <- & Hi & Hf) [= <- <-]. auto.
Qed.

(** C9: on an empty grid the constructor raises.  On any other grid it
    allocates new rows that hold the contents of the grid.  Every
    [play_move] on that engine, at once or later, and every [play_move]
    on a child built by [get_children], writes only rows of the engine it
    is called on, so each object of the caller, and each row of a parent,
    keeps its contents; [get_children] and [pick_move] themselves run as
    they do on contents and leave every object that existed before the
    call unchanged, the caller's snapshot included. *)
Theorem deep_copy_frame :
  forall (G : Type) (so : G -> nat -> list nat * G) (h : heap) (gr : grid),
    (gr = [] -> h_Othello_init h gr = Raise AssertionError) /\
    (gr <> [] ->
     exists h1 self,
       h_Othello_init h gr = Done (h1, self) /\
       read h1 self = read h gr /\ instance h1 self /\ fresh (length h) self /\
       extends h h1 /\
       (forall h' loc player, extends h h' -> instance h' self ->
          mutates h' self (h_play_move h' self loc player)
                  (play_move (read h' self) loc player) /\
          forall h'', h_play_move h' self loc player = Done h'' ->
                      extends h h'' /\ instance h'' self /\
                      (valid h gr -> read h'' gr = read h gr)) /\
       (forall player,
          spawns (length h1) h1 (h_get_children h1 self player)
                 (get_children (read h1 self) player) /\
          forall h2 children, h_get_children h1 self player = Done (h2, children) ->
            extends h1 h2 /\
            forall child loc q h3,
              child ∈ children -> h_play_move h2 child loc q = Done h3 ->
              extends h1 h3 /\ read h3 self = read h1 self)) /\
    (forall fuel cp g,
       refines h (h_pick_move so fuel cp h gr g) (pick_move so fuel cp (read h gr) g) /\
       forall h' r, h_pick_move so fuel cp h gr g = Done (h', r) ->
                    extends h h' /\ (valid h gr -> read h' gr = read h gr)).
Proof.
  intros G so h gr. split; [intros ->; reflexivity|]. split.
  - intros Hne.
    destruct (h_Othello_init_spec h gr Hne) as (Hinit & _ & Hread & Hinst & He & Hfresh).
    set (h1 := h ++ read h gr) in *. set (self := seq (length h) (length gr)) in *.
    assert (Hfr : fresh (length h) self) by (apply Forall_forall; exact Hfresh).
    exists h1, self. repeat (split; [assumption|]). split.
    + intros h' loc player He' Hi'.
      pose proof (h_play_move_mutates h' self loc player Hi') as Hm.
      split; [exact Hm|]. intros h'' Hpm.
      destruct (mutates_Done _ _ _ _ _ Hm Hpm) as (_ & Hlen & Hframe).
      assert (He'' : extends h h'')
        by (eapply fresh_write_extends; [exact He'|exact Hfr|exact Hframe]).
      split; [exact He''|]. split; [eapply instance_same_length; eassumption|].
      intros Hv. apply read_extends; assumption.
    + intros player. destruct Hinst as [Hnd Hv].
      pose proof (h_get_children_spawns h1 self player Hv) as Hsp.
      split; [exact Hsp|]. intros h2 children Hgc.
      destruct (spawns_Done _ _ _ _ _ _ Hsp Hgc) as (_ & He2 & Hi2 & Hf2).
      split; [exact He2|]. intros child loc q h3 Hc Hpm.
      rewrite Forall_forall in Hi2, Hf2.
      pose proof (h_play_move_mutates h2 child loc q (Hi2 child Hc)) as Hm.
      destruct (mutates_Done _ _ _ _ _ Hm Hpm) as (_ & _ & Hframe).
      assert (He3 : extends h1 h3)
        by (eapply fresh_write_extends; [exact He2|exact (Hf2 child Hc)|exact Hframe]).
      split; [exact He3|apply read_extends; assumption].
  - intros fuel cp g. pose proof (h_pick_move_refines so fuel cp h gr g) as Hr.
    split; [exact Hr|]. intros h' r Hpm.
    destruct (refines_Done _ _ _ _ _ Hr Hpm) as [_ He'].
    split; [exact He'|]. intros Hv. apply read_extends; assumption.
Qed.

(** ** Worked examples *)

(** Black opens on the 8x8 board with four moves, each flipping one disc. *)
Example opening_moves :
  _get_available_moves start8 2 = Done [(3, 2); (2, 3); (5, 4); (4, 5)] /\
  get_flipped start8 (3, 2) 2 = Done [(3, 3)] /\
  get_flipped start8 (2, 3) 2 = Done [(3, 3)] /\
  get_flipped start8 (5, 4) 2 = Done [(4, 4)] /\
  get_flipped start8 (4, 5) 2 = Done [(4, 4)].
Proof. repeat split; vm_compute; reflexivity. Qed.

Example play_move_start4 :
  play_move start4 (1, 0) 2
  = Done [[0; 2; 0; 0]; [0; 2; 2; 0]; [0; 2; 1; 0]; [0; 0; 0; 0]].
Proof. vm_compute. reflexivity. Qed.

(** Depth 0 is the disc count of the player. *)
Example negamax_depth_0 :
  negamax rev_order 1 start8 2 0 NegInf PosInf true tt = Done (Fin 2, tt).
Proof. vm_compute. reflexivity. Qed.

Example negamax_start4 :
  negamax rev_order 13 start4 2 3 NegInf PosInf true tt = Done (Fin (-5), tt) /\
  negamax id_order 13 start4 2 3 NegInf PosInf false tt = Done (Fin (-5), tt).
Proof. split; vm_compute; reflexivity. Qed.

(** A full board is terminal; a board where only white can move is not. *)
Example terminal_positions :
  _is_state_terminal [[1; 2]; [2; 1]] = Done true /\
  _is_state_terminal pass_board = Done false.
Proof. split; vm_compute; reflexivity. Qed.

(** [pick_move] for black on the 4x4 start, the caller's rows at the
    addresses 0 to 3: the move is (1, 0) and the four rows are as before. *)
Example pick_move_start4 :
  exists h',
    h_pick_move rev_order 12 {| player_ID := 2; difficulty_level := 2 |}
                start4 [0; 1; 2; 3]%nat tt
    = Done (h', (Some (1, 0), tt)) /\
    read h' [0; 1; 2; 3]%nat = start4.
Proof. eexists. split; vm_compute; reflexivity. Qed.

(** ** The theorems at concrete positions *)

Lemma rev_order_perm : forall (g : unit) (n : nat), Permutation (rev_order g n).1 (seq 0 n).
Proof. intros g n. apply reverse_Permutation. Defined.

Lemma id_order_perm : forall (g : unit) (n : nat), Permutation (id_order g n).1 (seq 0 n).
Proof. intros g n. apply Permutation_refl. Defined.

Lemma rect_start4 : rect start4.
Proof. unfold rect. cbn. repeat constructor. Defined.

Lemma rect_pass_board : rect pass_board.
Proof. unfold rect. cbn. repeat constructor. Defined.

Lemma pruning_preserves_value_witness :
  rect start4 /\ get_state_value start4 0 < 13 /\
  exists v g1 g1',
    negamax rev_order 13 start4 2 3 NegInf PosInf true tt = Done (v, g1) /\
    negamax id_order 13 start4 2 3 NegInf PosInf false tt = Done (v, g1').
Proof.
  split; [exact rect_start4|]. split; [reflexivity|].
  apply (pruning_preserves_value unit unit rev_order id_order start4 2 3 13 13 tt tt).
  - exact rev_order_perm.
  - exact id_order_perm.
  - exact rect_start4.
  - right. reflexivity.
  - reflexivity.
  - reflexivity.
Defined.

Lemma is_state_terminal_iff_witness :
  rect pass_board /\
  exists moves1 moves2 t,
    _get_available_moves pass_board 1 = Done moves1 /\
    _get_available_moves pass_board 2 = Done moves2 /\
    _is_state_terminal pass_board = Done t /\
    (get_state_value pass_board 0 = 0 <-> forall c, cell pass_board c <> Some 0) /\
    (t = true <-> get_state_value pass_board 0 = 0 \/ (moves1 = [] /\ moves2 = [])) /\
    ((moves1 = [] /\ moves2 <> []) \/ (moves1 <> [] /\ moves2 = []) -> t = false).
Proof.
  split; [exact rect_pass_board|].
  apply (is_state_terminal_iff pass_board). exact rect_pass_board.
Defined.

Lemma get_flipped_sandwiched_witness :
  rect start8 /\ on_board start8 (2, 3) = true /\ cell start8 (2, 3) = Some 0 /\
  exists flipped,
    get_flipped start8 (2, 3) 2 = Done flipped /\
    flipped = offsets ≫= contribution start8 (2, 3) 2 /\
    (forall c, c ∈ flipped ->
       opposing_at start8 2 c /\
       exists d n k, compass d /\ sandwich start8 2 (2, 3) d n /\
                     1 <= k < n /\ c = ahead (2, 3) d k) /\
    (forall d, d ∈ offsets ->
       (exists m, 1 <= m /\
                  (forall j, 1 <= j < m -> opposing_at start8 2 (ahead (2, 3) d j)) /\
                  open_end start8 (ahead (2, 3) d m)) \/
       cell start8 (ahead (2, 3) d 1) = Some 2 ->
       contribution start8 (2, 3) 2 d = []).
Proof.
  assert (Hr : rect start8) by (unfold rect; cbn; repeat constructor).
  split; [exact Hr|]. split; [reflexivity|]. split; [reflexivity|].
  apply (get_flipped_sandwiched start8 2 (2, 3));
    [exact Hr|right; reflexivity|reflexivity|reflexivity].
Defined.

Lemma rect_tie_board : rect tie_board.
Proof. vm_compute. repeat constructor. Qed.

Lemma best_move_tie_break_witness :
  rect tie_board /\ get_state_value tie_board 0 <= 12 /\
  _get_available_moves tie_board 2 = Done [(1, 0); (3, 0)] /\
  negamax rev_order 12 (after tie_board 2 (1, 0)) 2 (1 - 1) NegInf PosInf true tt
  = negamax rev_order 12 (after tie_board 2 (3, 0)) 2 (1 - 1) NegInf PosInf true tt /\
  get_location_type (1, 0) (len tie_board) = 2 /\
  get_location_type (3, 0) (len tie_board) = 3 /\
  get_best_move rev_order 12 tie_board 2 1 tt = Done (Some (3, 0), tt) /\
  (forall c : location,
     get_location_type c (len tie_board) = location_class (len tie_board) c /\
     (location_class (len tie_board) c = 3 <->
        (c.1 = 0 \/ c.1 = len tie_board - 1) /\ (c.2 = 0 \/ c.2 = len tie_board - 1)) /\
     (location_class (len tie_board) c = 2 <->
        ((c.1 = 0 \/ c.1 = len tie_board - 1) /\
         ~ (c.2 = 0 \/ c.2 = len tie_board - 1)) \/
        (~ (c.1 = 0 \/ c.1 = len tie_board - 1) /\
         (c.2 = 0 \/ c.2 = len tie_board - 1))) /\
     (location_class (len tie_board) c = 1 <->
        ~ (c.1 = 0 \/ c.1 = len tie_board - 1) /\
        ~ (c.2 = 0 \/ c.2 = len tie_board - 1))) /\
  exists (moves : list location) (sc : location -> ext) r g',
    _get_available_moves tie_board 2 = Done moves /\
    moves = filter (legal_move tie_board 2) (coords tie_board) /\
    (forall m, m ∈ moves ->
       play_move tie_board m 2 = Done (after tie_board 2 m) /\
       forall g1, exists g2,
         negamax rev_order 12 (after tie_board 2 m) 2 (1 - 1) NegInf PosInf true g1
         = Done (sc m, g2)) /\
    get_best_move rev_order 12 tie_board 2 1 tt = Done (r, g') /\
    (moves <> [] -> r <> None) /\
    forall m, r = Some m ->
      exists i : nat, moves !! i = Some m /\
        forall (j : nat) m', moves !! j = Some m' ->
          le_ext (sc m') (sc m) /\
          (sc m' = sc m ->
             location_class (len tie_board) m' <= location_class (len tie_board) m /\
             (location_class (len tie_board) m' = location_class (len tie_board) m ->
                (i <= j)%nat)).
Proof.
  split; [exact rect_tie_board|]. split; [vm_compute; discriminate|].
  split; [vm_compute; reflexivity|]. split; [vm_compute; reflexivity|].
  split; [vm_compute; reflexivity|]. split; [vm_compute; reflexivity|].
  split; [vm_compute; reflexivity|].
  apply (best_move_tie_break unit rev_order tie_board 2 1 12 tt).
  - exact rev_order_perm.
  - exact rect_tie_board.
  - right. reflexivity.
  - vm_compute. discriminate.
Defined.

Lemma play_move_gain_witness :
  rect start4 /\ on_board start4 (1, 0) = true /\ cell start4 (1, 0) = Some 0 /\
  exists b' flipped,
    get_flipped start4 (1, 0) 2 = Done flipped /\
    NoDup flipped /\
    play_move start4 (1, 0) 2 = Done b' /\
    get_state_value b' 2 = get_state_value start4 2 + 1 + len flipped.
Proof.
  split; [exact rect_start4|]. split; [reflexivity|]. split; [reflexivity|].
  apply (play_move_gain start4 2 (1, 0));
    [exact rect_start4|right; reflexivity|reflexivity|reflexivity].
Defined.

Lemma best_move_is_available_witness :
  rect start4 /\ get_state_value start4 0 <= 12 /\
  exists (moves : list location) r g',
    _get_available_moves start4 2 = Done moves /\
    get_best_move rev_order 12 start4 2 2 tt = Done (r, g') /\
    (r = None <-> moves = []) /\
    forall m, r = Some m ->
      m ∈ moves /\ on_board start4 m = true /\ cell start4 m = Some 0 /\
      exists flipped, get_flipped start4 m 2 = Done flipped /\ flipped <> [].
Proof.
  split; [exact rect_start4|]. split; [vm_compute; discriminate|].
  apply (best_move_is_available unit rev_order start4 2 2 12 tt).
  - exact rev_order_perm.
  - exact rect_start4.
  - right. reflexivity.
  - lia.
  - vm_compute. discriminate.
Defined.

Lemma deep_copy_frame_witness :
  exists h1 self,
    h_Othello_init start4 [0; 1; 2; 3]%nat = Done (h1, self) /\
    read h1 self = start4 /\
    (forall h'', h_play_move h1 self (1, 0) 2 = Done h'' ->
                 read h'' [0; 1; 2; 3]%nat = start4) /\
    (forall fuel cp g h' r,
       h_pick_move rev_order fuel cp start4 [0; 1; 2; 3]%nat g = Done (h', r) ->
       read h' [0; 1; 2; 3]%nat = start4).
Proof.
  assert (Hv : valid start4 [0; 1; 2; 3]%nat) by (unfold valid; cbn; repeat constructor).
  assert (Hne : ([0; 1; 2; 3]%nat : grid) <> []) by discriminate.
  destruct (deep_copy_frame unit rev_order start4 [0; 1; 2; 3]%nat)
    as (_ & Hcopy & Hpick).
  destruct (Hcopy Hne) as (h1 & self & Hinit & Hread & Hinst & _ & He & Hplay & _).
  exists h1, self. split; [exact Hinit|]. split; [exact Hread|]. split.
  - intros h'' Hpm. destruct (Hplay h1 (1, 0) 2 He Hinst) as [_ Hframe].
    destruct (Hframe h'' Hpm) as (_ & _ & Hsnap). exact (Hsnap Hv).
  - intros fuel cp g h' r Hpm. destruct (Hpick fuel cp g) as [_ Hframe].
    destruct (Hframe h' r Hpm) as [_ Hsnap]. exact (Hsnap Hv).
Defined.

Lemma play_move_frame_witness :
  rect start4 /\ on_board start4 (1, 0) = true /\
  exists b' flipped,
    play_move start4 (1, 0) 2 = Done b' /\
    get_flipped (put start4 (1, 0) 2) (1, 0) 2 = Done flipped /\
    (forall c, on_board start4 c = true ->
       cell b' c = if decide (c = (1, 0) \/ c ∈ flipped) then Some 2 else cell start4 c) /\
    map length b' = map length start4.
Proof.
  split; [exact rect_start4|]. split; [reflexivity|].
  apply (play_move_frame start4 2 (1, 0)); [exact rect_start4|right; reflexivity|reflexivity].
Defined.


(** * Further properties of the engine *)

(** ** [is_on_board] and [get_flipped] *)

(** X1: [is_on_board] never raises, the empty board included: it is true
    exactly for [0 <= x < len(board[0])] and [0 <= y < len(board)]. *)
Theorem is_on_board_total (b : board) (loc : location) :
  exists r : bool,
    is_on_board b loc = Done r /\
    (r = true <-> 0 <= loc.1 < len (default [] (b !! 0%nat)) /\ 0 <= loc.2 < len b) /\
    (b = [] -> r = false).
Proof.
  exists (on_board b loc). split; [apply is_on_board_eq|]. split; [apply on_board_spec|].
  intros ->. destruct (on_board [] loc) eqn:H; [|reflexivity].
  apply on_board_spec in H. unfold len in H. simpl in H. lia.
Qed.

Lemma compass_offsets (d : Z * Z) : compass d -> d ∈ offsets.
Proof.
  intros Hc. apply compass_cases in Hc as (Hx & Hy & Hne).
  destruct d as [x y]. cbn [fst snd] in *. apply list_elem_of_In.
  destruct Hx as [-> | [-> | ->]], Hy as [-> | [-> | ->]]; vm_compute; tauto.
Qed.

(** The discs a sandwich encloses are all in the contribution of its
    offset. *)
Lemma sandwich_contribution (b : board) (player : Z) (loc : location) (d : Z * Z)
    (n k : Z) :
  rect b -> player <> 0 -> compass d ->
  sandwich b player loc d n -> 1 <= k < n ->
  ahead loc d k ∈ contribution b loc player d.
Proof.
  intros Hr Hp Hc (Hn & Hrun & Hon & Hend) Hk.
  destruct (flips_along_compass b loc player d Hr Hc) as [_ (n' & Hopp & Hres)].
  assert (Hn' : Z.of_nat n' + 1 = n).
  { destruct (Z.lt_trichotomy (Z.of_nat n' + 1) n) as [Hlt|[Heq|Hgt]]; [|exact Heq|].
    - exfalso. destruct (Hrun (Z.of_nat n' + 1) ltac:(lia)) as (Hon' & v & Hv & Hv0 & Hvp).
      rewrite <- ahead_ahead_1 in Hon', Hv.
      destruct Hres as [[[Hoff|H0] _]|(_ & Hp' & _)]; congruence.
    - exfalso. destruct (Hopp (Z.to_nat (n - 1)) ltac:(lia)) as (_ & v & Hv & _ & Hvp).
      rewrite ahead_ahead_1 in Hv.
      replace (Z.of_nat (Z.to_nat (n - 1)) + 1) with n in Hv by lia. congruence. }
  destruct Hres as [[Hopen _]|(_ & _ & _ & ->)].
  - exfalso. rewrite ahead_ahead_1, Hn' in Hopen. destruct Hopen; congruence.
  - cbn [app]. apply list_elem_of_fmap. exists (Z.to_nat (k - 1)). split.
    + rewrite ahead_ahead_1. f_equal. lia.
    + apply elem_of_seq. lia.
Qed.

(** X2: [get_flipped] is exact: from an empty on-board coordinate of a
    rectangular board it returns, without repetition, the discs that sit
    strictly inside a sandwich along one of the eight compass offsets,
    and only those. *)
Theorem get_flipped_exact (b : board) (player : Z) (loc : location) :
  rect b -> player = 1 \/ player = 2 ->
  on_board b loc = true -> cell b loc = Some 0 ->
  exists flipped,
    get_flipped b loc player = Done flipped /\ NoDup flipped /\
    forall c, c ∈ flipped <->
      exists d n k, compass d /\ sandwich b player loc d n /\
                    1 <= k < n /\ c = ahead loc d k.
Proof.
  intros Hr Hp Hon H0.
  assert (Hs : settled b player loc) by (right; left; assumption).
  exists (offsets ≫= contribution b loc player).
  split; [apply get_flipped_rect; assumption|].
  split; [apply flipped_NoDup; assumption|].
  intros c. split.
  - intros Hc. apply (flipped_elem b player loc c Hr Hs Hc).
  - intros (d & n & k & Hc & Hsw & Hk & ->).
    apply list_elem_of_bind. exists d. split; [|apply compass_offsets; assumption].
    eapply sandwich_contribution; try eassumption. lia.
Qed.

(** ** [_get_available_moves] *)

Lemma StronglySorted_filter_keep {A : Type} (R : relation A) (P : A -> Prop)
    `{forall x, Decision (P x)} (l : list A) :
  StronglySorted R l -> StronglySorted R (filter P l).
Proof.
  induction 1 as [|x l Hl IH Hx]; [constructor|].
  rewrite filter_cons. destruct (decide (P x)); [|assumption].
  constructor; [assumption|].
  apply Forall_forall. intros y Hy. apply list_elem_of_filter in Hy as [_ Hy].
  rewrite Forall_forall in Hx. apply Hx, Hy.
Qed.

Lemma StronglySorted_bind_keep {A B : Type} (R' : relation A) (R : relation B)
    (f : A -> list B) (l : list A) :
  StronglySorted R' l ->
  (forall x, x ∈ l -> StronglySorted R (f x)) ->
  (forall x1 x2 y1 y2, R' x1 x2 -> y1 ∈ f x1 -> y2 ∈ f x2 -> R y1 y2) ->
  StronglySorted R (l ≫= f).
Proof.
  intros Hl Hf Hcross. induction Hl as [|x l Hl IH Hx]; [constructor|].
  change ((x :: l) ≫= f) with (f x ++ (l ≫= f)).
  apply StronglySorted_app. split; [|split].
  - intros y1 y2 Hy1 Hy2. apply list_elem_of_bind in Hy2 as (x2 & Hy2 & Hx2).
    eapply Hcross; [|exact Hy1|exact Hy2].
    rewrite Forall_forall in Hx. apply Hx, Hx2.
  - apply Hf. left.
  - apply IH. intros x' Hx'. apply Hf. right. assumption.
Qed.

Lemma range_sorted (lo : Z) (n : nat) : StronglySorted Z.lt (range lo n).
Proof.
  unfold range. induction n as [|n IH]; [rewrite seqZ_nil by lia; constructor|].
  rewrite seqZ_S. apply StronglySorted_app. split; [|split].
  - intros x y Hx Hy. apply elem_of_seqZ in Hx. apply list_elem_of_singleton in Hy. lia.
  - exact IH.
  - repeat constructor.
Qed.

Lemma coords_sorted (b : board) : StronglySorted scan_before (coords b).
Proof.
  unfold coords.
  apply (StronglySorted_bind_keep Z.lt); [apply range_sorted| |].
  - intros y _. apply (StronglySorted_bind_keep Z.lt); [apply range_sorted| |].
    + intros x _. repeat constructor.
    + intros x1 x2 c1 c2 Hx Hc1 Hc2.
      apply list_elem_of_singleton in Hc1 as ->. apply list_elem_of_singleton in Hc2 as ->.
      right. cbn [fst snd]. auto.
  - intros y1 y2 c1 c2 Hy Hc1 Hc2.
    apply list_elem_of_bind in Hc1 as (x1 & Hc1 & _).
    apply list_elem_of_bind in Hc2 as (x2 & Hc2 & _).
    apply list_elem_of_singleton in Hc1 as ->. apply list_elem_of_singleton in Hc2 as ->.
    left. exact Hy.
Qed.

Lemma scan_before_irrefl (m : location) : ~ scan_before m m.
Proof. unfold scan_before. lia. Qed.

Lemma sorted_NoDup {A : Type} (R : relation A) (l : list A) :
  (forall x, ~ R x x) -> StronglySorted R l -> NoDup l.
Proof.
  intros Hirr. induction 1 as [|x l Hl IH Hx]; constructor; [|assumption].
  intros Hin. rewrite Forall_forall in Hx. apply (Hirr x), Hx, Hin.
Qed.

(** X3: [_get_available_moves] on a rectangular board returns, each once
    and in the order of the scan (rows top to bottom, each row left to
    right), exactly the on-board empty cells where [get_flipped] is not
    empty. *)
Theorem available_moves_exact (b : board) (player : Z) :
  rect b ->
  exists moves,
    _get_available_moves b player = Done moves /\
    NoDup moves /\ StronglySorted scan_before moves /\
    forall m, m ∈ moves <->
      on_board b m = true /\ cell b m = Some 0 /\
      exists flipped, get_flipped b m player = Done flipped /\ flipped <> [].
Proof.
  intros Hr. exists (filter (legal_move b player) (coords b)).
  assert (Hsorted : StronglySorted scan_before (filter (legal_move b player) (coords b)))
    by (apply StronglySorted_filter_keep, coords_sorted).
  split; [apply available_moves_rect; assumption|].
  split; [eapply sorted_NoDup; [exact scan_before_irrefl|exact Hsorted]|].
  split; [exact Hsorted|].
  intros m. rewrite list_elem_of_filter, elem_of_coords. unfold legal_move. split.
  - intros [[H0 Hfl] Hon]. split; [exact Hon|]. split; [exact H0|].
    exists (offsets ≫= contribution b m player). split; [|exact Hfl].
    apply get_flipped_rect; [assumption|right; left; assumption].
  - intros (Hon & H0 & fl & Hget & Hne).
    rewrite get_flipped_rect in Hget by (auto; right; left; assumption).
    injection Hget as <-. auto.
Qed.

(** ** The starting position *)

Lemma rect_replicate (n w : nat) (v : Z) : rect (replicate n (replicate w v)).
Proof.
  unfold rect. apply Forall_forall. intros row Hrow.
  apply elem_of_replicate in Hrow as [-> Hn].
  destruct n as [|n]; [congruence|]. reflexivity.
Qed.

Lemma on_board_replicate (n w : nat) (v : Z) (c : location) :
  on_board (replicate n (replicate w v)) c = true <->
  0 <= c.1 < Z.of_nat w /\ 0 <= c.2 < Z.of_nat n.
Proof.
  rewrite on_board_spec. unfold len. rewrite length_replicate.
  destruct n as [|n]; cbn [replicate lookup list_lookup default from_option id length].
  - lia.
  - rewrite length_replicate. lia.
Qed.

Lemma cell_replicate (n w : nat) (v : Z) (c : location) :
  0 <= c.1 < Z.of_nat w -> 0 <= c.2 < Z.of_nat n ->
  cell (replicate n (replicate w v)) c = Some v.
Proof.
  intros Hx Hy. unfold cell. rewrite lookup_replicate_2 by lia. cbn.
  apply lookup_replicate_2. lia.
Qed.

Lemma tally_row_replicate (q v : Z) (w : nat) :
  tally_row q (replicate w v) = if v =? q then Z.of_nat w else 0.
Proof.
  induction w as [|w IH]; cbn [replicate tally_row]; [destruct (v =? q); reflexivity|].
  rewrite IH. destruct (v =? q); lia.
Qed.

Lemma tally_replicate (q v : Z) (n w : nat) :
  tally q (replicate n (replicate w v)) = if v =? q then Z.of_nat n * Z.of_nat w else 0.
Proof.
  induction n as [|n IH]; cbn [replicate tally]; [destruct (v =? q); reflexivity|].
  rewrite IH, tally_row_replicate. destruct (v =? q); lia.
Qed.

Lemma pair_eq_iff (x y a b : Z) : (x, y) = (a, b) <-> x = a /\ y = b.
Proof. split; [intros [= -> ->]; auto|intros [-> ->]; reflexivity]. Qed.

Lemma row_lengths_replicate (k w : nat) (v : Z) :
  map length (replicate k (replicate w v)) = replicate k w.
Proof.
  induction k as [|k IH]; cbn [replicate map]; [reflexivity|].
  rewrite length_replicate, IH. reflexivity.
Qed.

Lemma valid_cells_put (b : board) (loc : location) (v : Z) :
  valid_cells b -> v = 0 \/ v = 1 \/ v = 2 -> valid_cells (put b loc v).
Proof.
  unfold valid_cells, put. rewrite !Forall_lookup. intros Hb Hv i row Hi.
  destruct (decide (Z.to_nat loc.2 = i)) as [<-|Hne].
  - rewrite list_lookup_alter_eq in Hi.
    destruct (b !! Z.to_nat loc.2) as [row'|] eqn:Hrow; [|discriminate].
    cbn in Hi. injection Hi as <-. specialize (Hb _ _ Hrow).
    rewrite Forall_lookup in *. intros j w Hj.
    destruct (decide (Z.to_nat loc.1 = j)) as [<-|Hnj].
    + apply list_lookup_insert_Some in Hj as [(_ & <- & _)|[? _]]; [exact Hv|congruence].
    + rewrite list_lookup_insert_ne in Hj by assumption. eauto.
  - rewrite list_lookup_alter_ne in Hi by assumption. eauto.
Qed.

Lemma valid_cells_put_all (locs : list location) (v : Z) :
  v = 0 \/ v = 1 \/ v = 2 ->
  forall b : board, valid_cells b -> valid_cells (put_all b locs v).
Proof.
  intros Hv. induction locs as [|c locs IH]; intros b Hb; [exact Hb|].
  cbn [put_all foldl]. apply IH. apply valid_cells_put; assumption.
Qed.

Lemma valid_cells_cell (b : board) (c : location) (v : Z) :
  valid_cells b -> cell b c = Some v -> v = 0 \/ v = 1 \/ v = 2.
Proof.
  unfold valid_cells, cell. rewrite Forall_lookup. intros Hb Hc.
  destruct (b !! Z.to_nat c.2) as [row|] eqn:Hrow; [|discriminate]. cbn in Hc.
  specialize (Hb _ _ Hrow). rewrite Forall_lookup in Hb. eauto.
Qed.

Lemma Othello_start_unfold (width : Z) :
  width mod 2 = 0 ->
  Othello_start width =
  let b0 := replicate (Z.to_nat width) (replicate (Z.to_nat width) 0) in
  let m := width / 2 - 1 in
  let* b1 := set_cell b0 (m, m) 1 in
  let* b2 := set_cell b1 (m + 1, m + 1) 1 in
  let* b3 := set_cell b2 (m, m + 1) 2 in
  set_cell b3 (m + 1, m) 2.
Proof.
  intros He. unfold Othello_start. rewrite He. cbn [Z.eqb negb].
  cbv zeta. unfold set_cell. cbn [fst snd bind].
  destruct (py_index _ (width / 2 - 1)) as [row| |]; cbn [bind]; try reflexivity.
  destruct (py_setitem row _ 1) as [row'| |]; cbn [bind]; try reflexivity.
  destruct (py_setitem _ (width / 2 - 1) row') as [b1| |]; cbn [bind]; try reflexivity.
  destruct (py_index b1 _) as [r1| |]; cbn [bind]; try reflexivity.
  destruct (py_setitem r1 _ 1) as [r1'| |]; cbn [bind]; try reflexivity.
  destruct (py_setitem b1 _ r1') as [b2| |]; cbn [bind]; reflexivity.
Qed.

Lemma start_board_spec (width : Z) :
  width mod 2 = 0 -> 2 <= width ->
  let b := start_board width in
  Othello_start width = Done b /\
  map length b = replicate (Z.to_nat width) (Z.to_nat width) /\
  rect b /\ valid_cells b /\
  (forall c, on_board b c = true <-> 0 <= c.1 < width /\ 0 <= c.2 < width) /\
  (forall c, on_board b c = true -> cell b c = Some (start_cell width c)) /\
  tally 1 b = 2 /\ tally 2 b = 2 /\ tally 0 b = width * width - 4.
Proof.
  intros He Hge. unfold start_board. cbv zeta.
  rewrite Othello_start_unfold by assumption. cbv zeta.
  set (n := Z.to_nat width). set (m := width / 2 - 1).
  set (b0 := replicate n (replicate n 0)).
  assert (Hm : 0 <= m /\ m + 1 < width).
  { unfold m. pose proof (Z.div_mod width 2 ltac:(lia)). lia. }
  assert (Hn : Z.of_nat n = width) by (unfold n; lia).
  assert (Hon0 : forall c, on_board b0 c = true <-> 0 <= c.1 < width /\ 0 <= c.2 < width).
  { intros c. unfold b0. rewrite on_board_replicate, Hn. reflexivity. }
  assert (Hc0 : forall c, on_board b0 c = true -> cell b0 c = Some 0).
  { intros c Hc. apply Hon0 in Hc. apply cell_replicate; lia. }
  assert (Hv0 : valid_cells b0).
  { unfold valid_cells, b0. apply Forall_replicate, Forall_replicate. auto. }
  pose proof (rect_replicate n n 0) as Hr0. fold b0 in Hr0.
  set (b1 := put b0 (m, m) 1). set (b2 := put b1 (m + 1, m + 1) 1).
  set (b3 := put b2 (m, m + 1) 2). set (b4 := put b3 (m + 1, m) 2).
  assert (Hr1 : rect b1) by (apply rect_put; assumption).
  assert (Hr2 : rect b2) by (apply rect_put; assumption).
  assert (Hr3 : rect b3) by (apply rect_put; assumption).
  assert (Hr4 : rect b4) by (apply rect_put; assumption).
  assert (Hon : forall c, on_board b4 c = on_board b0 c).
  { intros c. unfold b4, b3, b2, b1. rewrite !on_board_put. reflexivity. }
  assert (Hin : forall x y, 0 <= x < width -> 0 <= y < width -> on_board b0 (x, y) = true).
  { intros x y Hx Hy. apply Hon0. cbn [fst snd]. lia. }
  assert (Hcell : forall b loc v c,
             on_board b0 loc = true -> on_board b0 c = true ->
             rect b -> (forall c', on_board b c' = on_board b0 c') ->
             cell (put b loc v) c = if decide (c = loc) then Some v else cell b c).
  { intros b loc v c Hl Hc Hrb Hob. destruct (decide (c = loc)) as [->|Hne].
    - apply cell_put_eq; [assumption|rewrite Hob; assumption].
    - apply Hon0 in Hl, Hc. apply cell_put_ne; tauto || lia. }
  assert (Ho1 : forall c', on_board b1 c' = on_board b0 c')
    by (intros; unfold b1; apply on_board_put).
  assert (Ho2 : forall c', on_board b2 c' = on_board b0 c')
    by (intros; unfold b2; rewrite on_board_put; apply Ho1).
  assert (Ho3 : forall c', on_board b3 c' = on_board b0 c')
    by (intros; unfold b3; rewrite on_board_put; apply Ho2).
  assert (Hcells : forall c, on_board b0 c = true -> cell b4 c = Some (start_cell width c)).
  { intros c Hc. unfold b4, b3, b2, b1.
    rewrite !Hcell by (auto; first [apply Hin; lia | apply rect_put; auto
                                   | repeat apply rect_put; auto
                                   | intros; rewrite ?on_board_put; reflexivity]).
    rewrite (Hc0 c Hc). unfold start_cell. fold m. destruct c as [x y].
    repeat (destruct (decide _) as [?|?]); try reflexivity; exfalso;
      rewrite ?pair_eq_iff in *; lia. }
  rewrite (set_cell_put b0) by (auto; apply Hin; lia). cbn [bind]. fold b1.
  rewrite (set_cell_put b1) by (auto; rewrite Ho1; apply Hin; lia). cbn [bind]. fold b2.
  rewrite (set_cell_put b2) by (auto; rewrite Ho2; apply Hin; lia). cbn [bind]. fold b3.
  rewrite (set_cell_put b3) by (auto; rewrite Ho3; apply Hin; lia). fold b4.
  split; [reflexivity|]. split.
  { unfold b4, b3, b2, b1. rewrite !put_row_lengths. unfold b0, n.
    apply row_lengths_replicate. }
  split; [exact Hr4|]. split.
  { unfold b4, b3, b2, b1. repeat apply valid_cells_put; auto. }
  split; [intros c; rewrite Hon; apply Hon0|].
  split; [intros c Hc; rewrite Hon in Hc; auto|].
  assert (Hk1 : cell b0 (m, m) = Some 0) by (apply Hc0, Hin; lia).
  assert (Hk2 : cell b1 (m + 1, m + 1) = Some 0).
  { unfold b1. rewrite Hcell by (auto; apply Hin; lia).
    rewrite decide_False by (rewrite pair_eq_iff; lia). apply Hc0, Hin; lia. }
  assert (Hk3 : cell b2 (m, m + 1) = Some 0).
  { unfold b2, b1. rewrite !Hcell by (auto; try apply Hin; try lia).
    rewrite !decide_False by (rewrite pair_eq_iff; lia). apply Hc0, Hin; lia. }
  assert (Hk4 : cell b3 (m + 1, m) = Some 0).
  { unfold b3, b2, b1. rewrite !Hcell by (auto; try apply Hin; try lia).
    rewrite !decide_False by (rewrite pair_eq_iff; lia). apply Hc0, Hin; lia. }
  unfold b4.
  rewrite !(tally_put _ b3 _ 0 2 Hk4). unfold b3.
  rewrite !(tally_put _ b2 _ 0 2 Hk3). unfold b2.
  rewrite !(tally_put _ b1 _ 0 1 Hk2). unfold b1.
  rewrite !(tally_put _ b0 _ 0 1 Hk1). unfold b0.
  rewrite !tally_replicate. cbn [Z.eqb Pos.eqb]. rewrite Hn. lia.
Qed.

(** X4: The constructor called with a width only (widths of magnitude below
    2^53, where [int(width/2)] is exact): an odd width fails the
    assertion; an even width below 2 builds an empty grid and raises
    [IndexError] on the first disc; an even width from 2 on gives the
    square board with white on the two cells of the main diagonal of the
    centre, black on the other two, and nothing else. *)
Theorem Othello_start_spec (width : Z) :
  (width mod 2 <> 0 -> Othello_start width = Raise AssertionError) /\
  (width mod 2 = 0 -> - 2 ^ 53 < width <= 0 ->
   Othello_start width = Raise IndexError) /\
  (width mod 2 = 0 -> 2 <= width < 2 ^ 53 ->
   exists b,
     Othello_start width = Done b /\
     map length b = replicate (Z.to_nat width) (Z.to_nat width) /\
     rect b /\ valid_cells b /\
     (forall c, on_board b c = true <-> 0 <= c.1 < width /\ 0 <= c.2 < width) /\
     (forall c, on_board b c = true -> cell b c = Some (start_cell width c)) /\
     get_state_value b 1 = 2 /\ get_state_value b 2 = 2 /\
     get_state_value b 0 = width * width - 4).
Proof.
  split; [|split].
  - intros Ho. unfold Othello_start.
    destruct (Z.eqb_spec (width mod 2) 0); [contradiction|reflexivity].
  - intros He [_ Hle]. rewrite Othello_start_unfold by assumption. cbv zeta.
    replace (Z.to_nat width) with 0%nat by lia. cbn [replicate].
    unfold set_cell. cbn [fst snd]. unfold py_index. cbn [length len].
    destruct (width / 2 - 1 <? 0) eqn:Hm.
    + change (Z.of_nat 0) with 0. rewrite Z.add_0_r, Hm. reflexivity.
    + destruct (width / 2 - 1 <? 0); [discriminate|].
      rewrite lookup_nil. reflexivity.
  - intros He [Hge _]. exists (start_board width). rewrite !get_state_value_tally.
    exact (start_board_spec width He Hge).
Qed.

Lemma Othello_start_spec_witness :
  Othello_start 3 = Raise AssertionError /\
  Othello_start 0 = Raise IndexError /\
  exists b, Othello_start 8 = Done b /\ get_state_value b 0 = 60.
Proof.
  split; [apply (proj1 (Othello_start_spec 3)); vm_compute; discriminate|].
  split; [apply (proj1 (proj2 (Othello_start_spec 0))); [reflexivity|lia]|].
  destruct (proj2 (proj2 (Othello_start_spec 8)) eq_refl ltac:(lia))
    as (b & Hb & _ & _ & _ & _ & _ & _ & _ & H0).
  exists b. split; [exact Hb|exact H0].
Defined.

Lemma get_flipped_exact_witness :
  exists flipped,
    get_flipped start8 (2, 3) 2 = Done flipped /\ NoDup flipped /\
    forall c, c ∈ flipped <->
      exists d n k, compass d /\ sandwich start8 2 (2, 3) d n /\
                    1 <= k < n /\ c = ahead (2, 3) d k.
Proof.
  apply (get_flipped_exact start8 2 (2, 3));
    [exact rect_start8|right; reflexivity|reflexivity|reflexivity].
Defined.

Lemma available_moves_exact_witness :
  exists moves,
    _get_available_moves start4 2 = Done moves /\
    NoDup moves /\ StronglySorted scan_before moves /\
    forall m, m ∈ moves <->
      on_board start4 m = true /\ cell start4 m = Some 0 /\
      exists flipped, get_flipped start4 m 2 = Done flipped /\ flipped <> [].
Proof. apply (available_moves_exact start4 2), rect_start4. Defined.

(** ** [play_move] *)

Lemma insert_alter_row (b : board) (j : nat) (row : list Z) (f : list Z -> list Z) :
  b !! j = Some row -> <[j := f row]> b = alter f j b.
Proof.
  revert j. induction b as [|r b IH]; intros j Hj; [discriminate|].
  destruct j as [|j]; simpl in *.
  - injection Hj as ->. reflexivity.
  - f_equal. apply IH. assumption.
Qed.

Lemma set_cell_wrapped (b : board) (loc : location) (v : Z) :
  rect b ->
  set_cell b loc v =
  match wrapped b loc with
  | Some c => Done (put b c v)
  | None => Raise IndexError
  end.
Proof.
  intros Hr. unfold set_cell, wrapped. rewrite py_index_pos.
  destruct (py_pos (length b) loc.2) as [j|] eqn:Hj; [|reflexivity].
  pose proof (py_pos_lt _ _ _ Hj) as Hlt.
  destruct (lookup_lt_is_Some_2 b j Hlt) as [row Hrow]. rewrite Hrow.
  cbn [bind mbind option_bind]. rewrite py_setitem_pos.
  rewrite (rect_row b j row Hr Hrow).
  destruct (py_pos (length (default [] (b !! 0%nat))) loc.1) as [i|] eqn:Hi;
    [|reflexivity].
  cbn [bind mbind option_bind]. rewrite py_setitem_pos, Hj. f_equal.
  unfold put. cbn [fst snd]. rewrite !Nat2Z.id.
  apply (insert_alter_row b j row (fun r => <[i := v]> r)). assumption.
Qed.

Lemma wrapped_on_board (b : board) (loc c : location) :
  wrapped b loc = Some c ->
  on_board b c = true /\ (on_board b loc = true -> c = loc).
Proof.
  unfold wrapped. intros H.
  destruct (py_pos (length b) loc.2) as [j|] eqn:Hj; [|discriminate].
  destruct (py_pos (length (default [] (b !! 0%nat))) loc.1) as [i|] eqn:Hi;
    [|discriminate].
  cbn in H. injection H as <-.
  pose proof (py_pos_lt _ _ _ Hj). pose proof (py_pos_lt _ _ _ Hi). split.
  - apply on_board_spec. unfold len. cbn [fst snd]. lia.
  - intros Hon. apply on_board_spec in Hon as [Hx Hy]. unfold py_pos in Hi, Hj.
    destruct (Z.ltb_spec loc.1 0); [lia|]. destruct (Z.ltb_spec loc.2 0); [lia|].
    destruct (Z.ltb_spec loc.1 0); [lia|]. destruct (Z.ltb_spec loc.2 0); [lia|].
    unfold len in *.
    destruct (Z.ltb_spec loc.1 (Z.of_nat (length (default [] (b !! 0%nat)))));
      [|discriminate].
    destruct (Z.ltb_spec loc.2 (Z.of_nat (length b))); [|discriminate].
    injection Hi as <-. injection Hj as <-. destruct loc as [x y].
    cbn [fst snd] in *. f_equal; lia.
Qed.

(** X5: [play_move] on a rectangular board, for any coordinate and any
    player: it raises [IndexError] exactly when one of the two indices is
    outside the Python range of its axis; otherwise it returns, never
    looping.  A negative index in range writes the disc on the cell
    counted from the far edge, while the flips are those [get_flipped]
    computes from the coordinate as given. *)
Theorem play_move_index_range (b : board) (loc : location) (player : Z) :
  rect b ->
  match wrapped b loc with
  | None => play_move b loc player = Raise IndexError
  | Some c =>
      on_board b c = true /\ (on_board b loc = true -> c = loc) /\
      exists flipped,
        get_flipped (put b c player) loc player = Done flipped /\
        (forall c', c' ∈ flipped -> on_board b c' = true) /\
        play_move b loc player = Done (put_all (put b c player) flipped player)
  end.
Proof.
  intros Hr. unfold play_move. rewrite set_cell_wrapped by assumption.
  destruct (wrapped b loc) as [c|] eqn:Hw; [|reflexivity].
  destruct (wrapped_on_board b loc c Hw) as [Hc Hsame].
  split; [exact Hc|]. split; [exact Hsame|]. cbn [bind].
  assert (Hr1 : rect (put b c player)) by (apply rect_put; assumption).
  assert (Hs : settled (put b c player) player loc).
  { destruct (on_board b loc) eqn:Hon.
    - right; right. rewrite (Hsame eq_refl). apply cell_put_eq; [assumption|].
      rewrite <- (Hsame eq_refl). assumption.
    - left. rewrite on_board_put. assumption. }
  exists (offsets ≫= contribution (put b c player) loc player).
  assert (Hin : forall c', c' ∈ offsets ≫= contribution (put b c player) loc player ->
                      on_board (put b c player) c' = true).
  { intros c' Hc'. destruct (flipped_elem _ _ _ _ Hr1 Hs Hc') as [[Hon' _] _]. exact Hon'. }
  split; [apply get_flipped_rect; assumption|]. split.
  - intros c' Hc'. rewrite <- (on_board_put b c c' player). auto.
  - rewrite get_flipped_rect by assumption. cbn [bind].
    apply flip_all_put_all; assumption.
Qed.

Lemma play_move_index_range_witness :
  match wrapped start4 (-1, 1) with
  | None => play_move start4 (-1, 1) 2 = Raise IndexError
  | Some c =>
      on_board start4 c = true /\ (on_board start4 (-1, 1) = true -> c = (-1, 1)) /\
      exists flipped,
        get_flipped (put start4 c 2) (-1, 1) 2 = Done flipped /\
        (forall c', c' ∈ flipped -> on_board start4 c' = true) /\
        play_move start4 (-1, 1) 2 = Done (put_all (put start4 c 2) flipped 2)
  end.
Proof. apply (play_move_index_range start4 (-1, 1) 2), rect_start4. Defined.

(** ** Disc counts *)

Lemma tally_put_all_lose (q v : Z) (locs : list location) :
  q <> v ->
  forall b : board,
    rect b -> NoDup locs ->
    (forall c, c ∈ locs -> on_board b c = true /\ cell b c = Some q) ->
    tally q (put_all b locs v) = tally q b - len locs.
Proof.
  intros Hqv. induction locs as [|c locs IH]; intros b Hr Hnd Hall;
    [unfold len; simpl; lia|].
  cbn [put_all foldl]. fold (put_all (put b c v) locs v).
  apply NoDup_cons in Hnd as [Hnin Hnd].
  destruct (Hall c ltac:(left)) as (Hon & Hold).
  rewrite IH; [|apply rect_put; assumption|assumption|].
  - rewrite (tally_put q b c q v Hold), Z.eqb_refl.
    destruct (Z.eqb_spec v q); [congruence|].
    unfold len. simpl length. lia.
  - intros c' Hc'. destruct (Hall c' ltac:(right; assumption)) as (Hon' & Hold').
    rewrite on_board_put. split; [assumption|].
    rewrite <- Hold'. apply on_board_spec in Hon, Hon'.
    apply cell_put_ne; try tauto || lia. intros ->. contradiction.
Qed.

Lemma tally_row_partition (row : list Z) :
  Forall (fun v => v = 0 \/ v = 1 \/ v = 2) row ->
  tally_row 0 row + tally_row 1 row + tally_row 2 row = len row.
Proof.
  unfold len. induction 1 as [|v row Hv _ IH]; [reflexivity|].
  cbn [tally_row length]. destruct Hv as [-> | [-> | ->]]; cbn [Z.eqb Pos.eqb]; lia.
Qed.

Lemma tally_partition (b : board) :
  rect b -> valid_cells b ->
  tally 0 b + tally 1 b + tally 2 b = len b * len (default [] (b !! 0%nat)).
Proof.
  unfold rect, valid_cells. generalize (default [] (b !! 0%nat)) as row0.
  intros row0 Hr Hv. induction b as [|row b IH]; [reflexivity|].
  apply Forall_cons in Hr as [Hlen Hr]. apply Forall_cons in Hv as [Hrow Hv].
  cbn [tally]. specialize (IH Hr Hv).
  pose proof (tally_row_partition row Hrow) as Hp.
  unfold len in *. cbn [length]. rewrite Hlen in Hp. lia.
Qed.

Lemma same_dims (b b' : board) :
  map length b' = map length b ->
  len b' * len (default [] (b' !! 0%nat)) = len b * len (default [] (b !! 0%nat)).
Proof.
  intros Hl. unfold len.
  assert (length b' = length b) as ->.
  { rewrite <- (length_map length b'), Hl. apply length_map. }
  destruct b as [|r b], b' as [|r' b']; try discriminate; [reflexivity|].
  cbn in Hl |- *. injection Hl as Hl _. rewrite Hl. reflexivity.
Qed.

Lemma valid_cells_after (b : board) (player : Z) (m : location) :
  valid_cells b -> player = 1 \/ player = 2 -> valid_cells (after b player m).
Proof.
  intros Hv Hp. unfold after. apply valid_cells_put_all; [tauto|].
  apply valid_cells_put; [assumption|tauto].
Qed.

(** The opponent loses exactly the flipped discs. *)
Lemma tally_after_opponent (b : board) (player opp : Z) (m : location) :
  rect b -> valid_cells b -> player = 1 \/ player = 2 ->
  players player = Done opp ->
  on_board b m = true -> cell b m = Some 0 ->
  tally opp (after b player m) = tally opp b - len (offsets ≫= contribution b m player).
Proof.
  intros Hr Hv Hp Hopp Hon H0.
  assert (Ho : opp <> player /\ opp <> 0 /\ (opp = 1 \/ opp = 2)).
  { destruct Hp as [-> | ->]; injection Hopp as <-; lia. }
  destruct Ho as (Hop & Ho0 & Ho12).
  assert (Hs : settled b player m) by (right; left; assumption).
  unfold after. rewrite tally_put_all_lose;
    [|assumption|apply rect_put; assumption|apply flipped_NoDup; assumption|].
  - rewrite (tally_put opp b m 0 player H0).
    destruct (Z.eqb_spec 0 opp); [congruence|].
    destruct (Z.eqb_spec player opp); [congruence|]. lia.
  - intros c Hc.
    destruct (flipped_elem b player m c Hr Hs Hc) as [(Hon' & old & Hold & Hne0 & Hnep) _].
    rewrite on_board_put. split; [assumption|].
    assert (old = opp) as <-.
    { destruct (valid_cells_cell b c old Hv Hold) as [?|[?|?]]; lia. }
    rewrite <- Hold. apply on_board_spec in Hon, Hon'.
    apply cell_put_ne; try (tauto || lia). intros ->. congruence.
Qed.

(** X6: On a rectangular board whose cells are 0, 1 or 2, the three counts of
    [get_state_value] are non-negative and add up to the number of
    cells. *)
Theorem get_state_value_partition (b : board) :
  rect b -> valid_cells b ->
  0 <= get_state_value b 0 /\ 0 <= get_state_value b 1 /\ 0 <= get_state_value b 2 /\
  get_state_value b 0 + get_state_value b 1 + get_state_value b 2
  = len b * len (default [] (b !! 0%nat)).
Proof.
  intros Hr Hv. rewrite !get_state_value_tally.
  repeat (split; [apply tally_nonneg|]). apply tally_partition; assumption.
Qed.

Lemma valid_cells_start4 : valid_cells start4.
Proof.
  vm_compute. repeat (first [apply List.Forall_nil | apply List.Forall_cons]); lia.
Qed.

Lemma get_state_value_partition_witness :
  0 <= get_state_value start4 0 /\ 0 <= get_state_value start4 1 /\
  0 <= get_state_value start4 2 /\
  get_state_value start4 0 + get_state_value start4 1 + get_state_value start4 2
  = len start4 * len (default [] (start4 !! 0%nat)).
Proof.
  apply (get_state_value_partition start4); [exact rect_start4|exact valid_cells_start4].
Defined.

(** X7: A legal placement by player 1 or 2 on a board of 0, 1 and 2 keeps
    the cells in 0, 1, 2, takes from the opponent exactly the discs
    [get_flipped] listed and fills exactly one empty cell: what the
    mover gains is what the other two counts lose. *)
Theorem play_move_conserves (b : board) (player : Z) (loc : location) :
  rect b -> valid_cells b -> player = 1 \/ player = 2 ->
  on_board b loc = true -> cell b loc = Some 0 ->
  exists b' flipped opp,
    players player = Done opp /\
    get_flipped b loc player = Done flipped /\
    play_move b loc player = Done b' /\
    valid_cells b' /\
    get_state_value b' opp = get_state_value b opp - len flipped /\
    get_state_value b' 0 = get_state_value b 0 - 1 /\
    get_state_value b' 0 + get_state_value b' player + get_state_value b' opp
    = get_state_value b 0 + get_state_value b player + get_state_value b opp.
Proof.
  intros Hr Hv Hp Hon H0.
  destruct (players_valid player Hp) as (opp & Hopp & Ho12 & Hne).
  exists (after b player loc), (offsets ≫= contribution b loc player), opp.
  assert (Hra : rect (after b player loc)) by (apply rect_after; assumption).
  assert (Hva : valid_cells (after b player loc)) by (apply valid_cells_after; assumption).
  split; [exact Hopp|].
  split; [apply get_flipped_rect; [assumption|right; left; assumption]|].
  split; [apply play_move_legal; assumption|]. split; [exact Hva|].
  rewrite !get_state_value_tally.
  split; [apply tally_after_opponent; assumption|].
  split; [apply tally_after; (assumption || lia)|].
  pose proof (tally_partition b Hr Hv) as Hb.
  pose proof (tally_partition _ Hra Hva) as Ha.
  assert (Hdim : len (after b player loc) * len (default [] (after b player loc !! 0%nat))
                 = len b * len (default [] (b !! 0%nat))).
  { apply same_dims, after_row_lengths. }
  destruct Hp as [-> | ->], Ho12 as [-> | ->]; try congruence; lia.
Qed.

Lemma play_move_conserves_witness :
  exists b' flipped opp,
    players 2 = Done opp /\
    get_flipped start4 (0, 1) 2 = Done flipped /\
    play_move start4 (0, 1) 2 = Done b' /\
    valid_cells b' /\
    get_state_value b' opp = get_state_value start4 opp - len flipped /\
    get_state_value b' 0 = get_state_value start4 0 - 1 /\
    get_state_value b' 0 + get_state_value b' 2 + get_state_value b' opp
    = get_state_value start4 0 + get_state_value start4 2 + get_state_value start4 opp.
Proof.
  apply (play_move_conserves start4 2 (0, 1));
    [exact rect_start4|exact valid_cells_start4|right; reflexivity
    |reflexivity|reflexivity].
Defined.

(** ** [get_children] *)

Lemma cell_after_move (b : board) (player : Z) (m : location) :
  rect b -> on_board b m = true -> cell b m = Some 0 ->
  cell (after b player m) m = Some player.
Proof.
  intros Hr Hon H0. unfold after.
  assert (Hs : settled b player m) by (right; left; assumption).
  rewrite cell_put_all;
    [|apply rect_put; assumption|rewrite on_board_put; assumption|].
  - destruct (decide _); [reflexivity|apply cell_put_eq; assumption].
  - intros l Hl. rewrite on_board_put.
    destruct (flipped_elem b player m l Hr Hs Hl) as [[Hon' _] _]. exact Hon'.
Qed.

(** X8: [get_children] on a rectangular board returns one engine per
    available move, in the order of the moves; each holds what
    [play_move] makes of the parent's board for that move: the same
    dimensions, the mover's disc on the move's cell, one empty cell
    less. *)
Theorem get_children_spec (b : board) (player : Z) :
  rect b -> player <> 0 ->
  exists moves children,
    _get_available_moves b player = Done moves /\
    get_children b player = Done children /\
    Forall2 (fun m c =>
               play_move b m player = Done c /\
               map length c = map length b /\
               cell c m = Some player /\
               get_state_value c 0 = get_state_value b 0 - 1)
            moves children.
Proof.
  intros Hr Hp.
  exists (filter (legal_move b player) (coords b)),
         (after b player <$> filter (legal_move b player) (coords b)).
  split; [apply available_moves_rect; assumption|].
  split; [apply get_children_rect; assumption|].
  apply Forall2_fmap_r, Forall_Forall2_diag, Forall_forall.
  intros m Hm. apply legal_move_on_board in Hm as [Hon [H0 _]]. cbn.
  split; [apply play_move_legal; assumption|].
  split; [apply after_row_lengths|].
  split; [apply cell_after_move; assumption|].
  rewrite !get_state_value_tally. apply tally_after; assumption.
Qed.

Lemma get_children_spec_witness :
  exists moves children,
    _get_available_moves start4 2 = Done moves /\
    get_children start4 2 = Done children /\
    Forall2 (fun m c =>
               play_move start4 m 2 = Done c /\
               map length c = map length start4 /\
               cell c m = Some 2 /\
               get_state_value c 0 = get_state_value start4 0 - 1)
            moves children.
Proof. apply (get_children_spec start4 2); [exact rect_start4|discriminate]. Defined.

(** ** [negamax]: the window, termination, the players table *)

Lemma le_ext_antisym (v w : ext) : le_ext v w -> le_ext w v -> v = w.
Proof. ext_arith. Qed.

(** X9: What alpha-beta promises for any window [x < y] (fail-soft): the
    value [v] of the pruned search and the value [vt] of the full-width
    search of the same position agree when [-y < v < -x]; when [v]
    falls on or below [-y], [vt] is at most [v]; when [v] falls on or
    above [-x], [vt] is at least [v].  (The window is negated because
    [negamax] returns [-best].) *)
Theorem negamax_window :
  forall (G G' : Type) (so : G -> nat -> list nat * G) (so' : G' -> nat -> list nat * G')
         (b : board) (player depth : Z) (fuel : nat) (x y : ext) (g : G) (g' : G'),
    (forall g n, Permutation (so g n).1 (seq 0 n)) ->
    (forall g n, Permutation (so' g n).1 (seq 0 n)) ->
    rect b -> player = 1 \/ player = 2 ->
    get_state_value b 0 < Z.of_nat fuel -> lt_ext x y ->
    exists v vt g1 g1',
      negamax so fuel b player depth x y true g = Done (v, g1) /\
      negamax so' fuel b player depth NegInf PosInf false g' = Done (vt, g1') /\
      (lt_ext (eneg y) v -> lt_ext v (eneg x) -> v = vt) /\
      (le_ext v (eneg y) -> le_ext vt v) /\
      (le_ext (eneg x) v -> le_ext v vt).
Proof.
  intros G G' so so' b player depth fuel x y g g' Hso Hso' Hr Hp Hf Hxy.
  rewrite get_state_value_tally in Hf.
  destruct (negamax_values so so' Hso Hso' fuel b player depth Hr Hp Hf g')
    as (vt & Hfull & Hpr).
  destruct (Hpr x y g Hxy) as (v & g1 & Hv & Hlo & Hhi).
  destruct (Hfull NegInf PosInf g') as [g1' Hvt].
  exists v, vt, g1, g1'. split; [exact Hv|]. split; [exact Hvt|].
  apply lt_ext_eneg in Hxy.
  split; [intros H1 H2; apply le_ext_antisym; auto|]. split.
  - intros Hle. apply Hlo. eapply lt_le_ext_trans; eassumption.
  - intros Hle. apply Hhi. clear Hlo Hhi Hv Hvt Hpr Hfull.
    revert Hxy Hle. generalize (eneg x) (eneg y). ext_arith.
Qed.

Lemma negamax_window_witness :
  exists v vt g1 g1',
    negamax rev_order 13 start4 2 2 (Fin 0) (Fin 4) true tt = Done (v, g1) /\
    negamax id_order 13 start4 2 2 NegInf PosInf false tt = Done (vt, g1') /\
    (lt_ext (eneg (Fin 4)) v -> lt_ext v (eneg (Fin 0)) -> v = vt) /\
    (le_ext v (eneg (Fin 4)) -> le_ext vt v) /\
    (le_ext (eneg (Fin 0)) v -> le_ext v vt).
Proof.
  apply (negamax_window unit unit rev_order id_order start4 2 2 13 (Fin 0) (Fin 4) tt tt
           rev_order_perm id_order_perm rect_start4);
    [right; reflexivity|reflexivity|cbn; lia].
Defined.

Section Totality.

Context {G : Type}.
Variable so : G -> nat -> list nat * G.

Lemma negamax_loop_total (recur : board -> ext -> ext -> G -> outcome (ext * G))
    (children : list board) :
  (forall c, c ∈ children ->
     forall x y g, exists v g', recur c x y g = Done (v, g')) ->
  forall best a b isPruning g,
    exists r g', negamax_loop recur children best a b isPruning g = Done (r, g').
Proof.
  induction children as [|c children IH]; intros Hrec best a b isPruning g.
  - exists best, g. reflexivity.
  - cbn [negamax_loop].
    destruct (Hrec c ltac:(left) (eneg b) (eneg a) g) as (v & g' & ->). cbn [bind].
    assert (Hrest : forall c', c' ∈ children ->
              forall x y g, exists v g', recur c' x y g = Done (v, g'))
      by (intros c' Hc'; apply Hrec; right; assumption).
    destruct isPruning; [destruct (ele b (emax a v))|]; eauto.
Qed.

Lemma negamax_returns (fuel : nat) :
  forall (b : board) (player depth : Z) (x y : ext) (isPruning : bool) (g : G),
    rect b -> player = 1 \/ player = 2 ->
    tally 0 b < Z.of_nat fuel \/ 0 <= depth < Z.of_nat fuel ->
    exists v g', negamax so fuel b player depth x y isPruning g = Done (v, g').
Proof.
  induction fuel as [|fuel IH]; intros b player depth x y isPruning g Hr Hp Hf.
  { pose proof (tally_nonneg 0 b). lia. }
  cbn [negamax]. rewrite is_state_terminal_rect by assumption. cbn [bind].
  destruct (Z.eqb_spec depth 0) as [Hd|Hd]; cbn [orb]; [eauto|].
  destruct (if tally 0 b =? 0 then true else _); [eauto|].
  destruct (players_valid player Hp) as (opp & -> & Hopp & _). cbn [bind].
  rewrite get_children_rect by assumption. cbn [bind].
  pose proof (shuffle_elem so g (after b opp <$> filter (legal_move b opp) (coords b)))
    as Hsh.
  destruct (shuffle so g _) as [cs' g1]. cbn [fst] in Hsh.
  destruct (negamax_loop_total
              (fun child a' b' g' =>
                 negamax so fuel child opp (depth - 1) a' b' isPruning g') cs')
    with (best := NegInf) (a := x) (b := y) (isPruning := isPruning) (g := g1)
    as (r & g2 & ->).
  - intros c Hc x' y' g'. apply Hsh in Hc.
    destruct (child_smaller b opp c Hr ltac:(lia) Hc) as (Hrc & Htc & _).
    apply IH; [assumption|assumption|lia].
  - cbn [bind]. eauto.
Qed.

End Totality.

(** X10: [negamax] returns, for every window (empty or inverted ones
    included), with or without pruning and whatever [random.shuffle]
    does, once the recursion is allowed more levels than the board has
    empty cells, or more than a non-negative [depth]: below a position
    the depth reaches 0 or the empty cells run out. *)
Theorem negamax_total :
  forall (G : Type) (so : G -> nat -> list nat * G) (b : board) (player depth : Z)
         (fuel : nat) (x y : ext) (isPruning : bool) (g : G),
    rect b -> player = 1 \/ player = 2 ->
    get_state_value b 0 < Z.of_nat fuel \/ 0 <= depth < Z.of_nat fuel ->
    exists v g', negamax so fuel b player depth x y isPruning g = Done (v, g').
Proof.
  intros G so b player depth fuel x y isPruning g Hr Hp Hf.
  rewrite get_state_value_tally in Hf. apply negamax_returns; assumption.
Qed.

Lemma negamax_total_witness :
  exists v g', negamax rev_order 3 start8 2 2 PosInf NegInf true tt = Done (v, g').
Proof.
  apply (negamax_total unit rev_order start8 2 2 3 PosInf NegInf true tt rect_start8);
    [right; reflexivity|right; lia].
Defined.

(** X11: A player that is neither 1 nor 2 is only looked up in the table
    [players] below a position that is not a leaf: at depth 0 or on a
    terminal position [negamax] returns the count of the cells equal to
    [player], everywhere else it raises [KeyError] before any child is
    built.  It never loops. *)
Theorem negamax_unknown_player :
  forall (G : Type) (so : G -> nat -> list nat * G) (b : board) (player depth : Z)
         (fuel : nat) (x y : ext) (isPruning : bool) (g : G),
    rect b -> player <> 1 -> player <> 2 ->
    exists t : bool,
      _is_state_terminal b = Done t /\
      negamax so (S fuel) b player depth x y isPruning g =
      if (depth =? 0) || t then Done (Fin (get_state_value b player), g)
      else Raise KeyError.
Proof.
  intros G so b player depth fuel x y isPruning g Hr H1 H2.
  eexists. split; [apply is_state_terminal_rect; assumption|].
  cbn [negamax]. rewrite is_state_terminal_rect by assumption. cbn [bind].
  destruct ((depth =? 0) || _); [reflexivity|].
  unfold players. destruct (Z.eqb_spec player 1); [contradiction|].
  destruct (Z.eqb_spec player 2); [contradiction|]. reflexivity.
Qed.

Lemma negamax_unknown_player_witness :
  exists t : bool,
    _is_state_terminal start4 = Done t /\
    negamax id_order 1 start4 3 1 NegInf PosInf true tt =
    if (1 =? 0) || t then Done (Fin (get_state_value start4 3), tt)
    else Raise KeyError.
Proof.
  apply (negamax_unknown_player unit id_order start4 3 1 0 NegInf PosInf true tt
           rect_start4); lia.
Defined.

(** ** [get_best_move] *)

(** The mover gains the placed disc and the flipped ones. *)
Lemma tally_after_player (b : board) (player : Z) (m : location) :
  rect b -> player <> 0 -> on_board b m = true -> cell b m = Some 0 ->
  tally player (after b player m)
  = tally player b + 1 + len (offsets ≫= contribution b m player).
Proof.
  intros Hr Hp Hon H0. unfold after.
  assert (Hs : settled b player m) by (right; left; assumption).
  rewrite tally_put_all;
    [|apply rect_put; assumption|apply flipped_NoDup; assumption|].
  - rewrite (tally_put player b m 0 player H0), Z.eqb_refl.
    destruct (Z.eqb_spec 0 player); [congruence|]. lia.
  - intros c Hc.
    destruct (flipped_elem b player m c Hr Hs Hc) as [(Hon' & old & Hold & Hne0 & Hnep) _].
    rewrite on_board_put. split; [assumption|]. exists old. split; [|assumption].
    rewrite <- Hold. apply on_board_spec in Hon, Hon'.
    apply cell_put_ne; try (tauto || lia). intros ->. congruence.
Qed.

Section Greedy.

Context {G : Type}.
Variable so : G -> nat -> list nat * G.

(** With one ply each move is scored by the mover's count on the child,
    and the random source is not used. *)
Lemma best_move_loop_one_ply (fuel : nat) (b : board) (player : Z) :
  rect b ->
  forall (moves : list location) (acc : option location * ext) (g : G),
    (forall m, m ∈ moves -> on_board b m = true /\ cell b m = Some 0) ->
    best_move_loop so (S fuel) b player 1 moves acc g
    = Done (choose (len b) (fun m => Fin (tally player (after b player m))) moves acc, g).
Proof.
  intros Hr. induction moves as [|m moves IH]; intros acc g Hall; [reflexivity|].
  cbn [best_move_loop]. destruct (Hall m ltac:(left)) as [Hon H0].
  rewrite Othello_init_copy by (eapply on_board_nonempty; eassumption). cbn [bind].
  rewrite play_move_legal by assumption. cbn [bind].
  cbn [negamax]. rewrite is_state_terminal_rect by (apply rect_after; assumption).
  change (1 - 1 =? 0) with true. cbn [orb bind]. rewrite get_state_value_tally.
  rewrite IH by (intros m' Hm'; apply Hall; right; assumption).
  reflexivity.
Qed.

End Greedy.

(** X12: At one ply (difficulty 1) [get_best_move] is greedy: it does not
    consume the random source, and the move it returns flips at least as
    many discs as any other empty on-board cell would. *)
Theorem get_best_move_greedy :
  forall (G : Type) (so : G -> nat -> list nat * G) (b : board) (player : Z)
         (fuel : nat) (g : G),
    rect b -> player = 1 \/ player = 2 ->
    exists r,
      get_best_move so (S fuel) b player 1 g = Done (r, g) /\
      forall m, r = Some m ->
        exists flipped,
          get_flipped b m player = Done flipped /\ flipped <> [] /\
          forall m' flipped',
            on_board b m' = true -> cell b m' = Some 0 ->
            get_flipped b m' player = Done flipped' ->
            len flipped' <= len flipped.
Proof.
  intros G so b player fuel g Hr Hp.
  set (moves := filter (legal_move b player) (coords b)).
  set (sc := fun m => Fin (tally player (after b player m))).
  exists (choose (len b) sc moves (None, NegInf)).1. split.
  - unfold get_best_move. rewrite available_moves_rect by assumption. cbn [bind].
    rewrite best_move_loop_one_ply; [reflexivity|assumption|].
    intros m Hm. apply legal_move_on_board in Hm as [Hon [H0 _]]. auto.
  - pose proof (choose_spec (len b) sc moves) as Hfb. unfold first_best in Hfb.
    destruct (choose (len b) sc moves (None, NegInf)) as [[m|] s]; cbn [fst snd] in *;
      [|discriminate].
    intros m0 [= <-]. destruct Hfb as (_ & i & Hi & Hall).
    assert (Hm : m ∈ moves) by (apply list_elem_of_lookup; eauto).
    apply legal_move_on_board in Hm as [Hon [H0 Hfl]].
    exists (offsets ≫= contribution b m player).
    split; [apply get_flipped_rect; [assumption|right; left; assumption]|].
    split; [exact Hfl|].
    intros m' flipped' Hon' H0' Hget.
    rewrite get_flipped_rect in Hget by (auto; right; left; assumption).
    assert (Hfl' : offsets ≫= contribution b m' player = flipped') by congruence.
    clear Hget. destruct flipped' as [|c fl]; [unfold len; cbn [length]; lia|].
    assert (Hm' : m' ∈ moves).
    { apply list_elem_of_filter. split; [|apply elem_of_coords; assumption].
      split; [assumption|]. rewrite Hfl'. discriminate. }
    apply list_elem_of_lookup in Hm' as [j Hj].
    destruct (Hall j m' Hj) as [Hnb _].
    assert (Hle : le_ext (sc m') (sc m)).
    { apply not_lt_ext. intros H. apply Hnb. left. exact H. }
    unfold sc in Hle. cbn [le_ext] in Hle.
    rewrite !tally_after_player in Hle by (auto; lia).
    rewrite Hfl' in Hle. lia.
Qed.

Lemma get_best_move_greedy_witness :
  exists r,
    get_best_move rev_order 1 start8 2 1 tt = Done (r, tt) /\
    forall m, r = Some m ->
      exists flipped,
        get_flipped start8 m 2 = Done flipped /\ flipped <> [] /\
        forall m' flipped',
          on_board start8 m' = true -> cell start8 m' = Some 0 ->
          get_flipped start8 m' 2 = Done flipped' ->
          len flipped' <= len flipped.
Proof.
  apply (get_best_move_greedy unit rev_order start8 2 0 tt rect_start8).
  right. reflexivity.
Defined.

Lemma choose_ext (width : Z) (sc sc' : location -> ext) (moves : list location) :
  (forall m, m ∈ moves -> sc m = sc' m) ->
  forall acc, choose width sc moves acc = choose width sc' moves acc.
Proof.
  induction moves as [|m moves IH]; intros Hsc acc; [reflexivity|].
  cbn [choose foldl]. rewrite (Hsc m ltac:(left)).
  apply IH. intros m' Hm'. apply Hsc. right. assumption.
Qed.

(** Over the full window the pruned search has one value, whatever the
    shuffle, the state of the random source and the fuel. *)
Lemma pruned_value_unique {G G' : Type} (so : G -> nat -> list nat * G)
    (so' : G' -> nat -> list nat * G') (b : board) (player depth : Z)
    (fuel fuel' : nat) (g : G) (g' : G') (r : ext * G) (r' : ext * G') :
  (forall g n, Permutation (so g n).1 (seq 0 n)) ->
  (forall g n, Permutation (so' g n).1 (seq 0 n)) ->
  rect b -> player = 1 \/ player = 2 ->
  tally 0 b < Z.of_nat fuel -> tally 0 b < Z.of_nat fuel' ->
  negamax so fuel b player depth NegInf PosInf true g = Done r ->
  negamax so' fuel' b player depth NegInf PosInf true g' = Done r' ->
  r.1 = r'.1.
Proof.
  intros Hso Hso' Hr Hp Hf Hf' Hv Hv'.
  destruct (negamax_values so so' Hso Hso' fuel b player depth Hr Hp Hf g')
    as (vt1 & Hfull1 & Hpr1).
  destruct (negamax_values so' so' Hso' Hso' fuel' b player depth Hr Hp Hf' g')
    as (vt2 & Hfull2 & Hpr2).
  destruct (Hpr1 NegInf PosInf g I) as (v1 & g1 & Hv1 & Hok1).
  destruct (Hpr2 NegInf PosInf g' I) as (v2 & g2 & Hv2 & Hok2).
  apply val_ok_full in Hok1, Hok2. subst v1 v2.
  rewrite Hv in Hv1. rewrite Hv' in Hv2.
  injection Hv1 as ->. injection Hv2 as ->. cbn [fst].
  destruct (Hfull1 NegInf PosInf g') as [g3 H1].
  destruct (Hfull2 NegInf PosInf g') as [g4 H2].
  destruct (Nat.le_ge_cases fuel fuel') as [Hle|Hle].
  - rewrite (negamax_fuel_le so' fuel fuel' _ _ _ _ _ _ _ _ Hle H1) in H2. congruence.
  - rewrite (negamax_fuel_le so' fuel' fuel _ _ _ _ _ _ _ _ Hle H2) in H1. congruence.
Qed.

(** X13: The move [get_best_move] returns does not depend on chance: two
    runs on the same position, with any two shuffles, states of the
    random source and amounts of fuel not below the number of empty
    cells, return the same move. *)
Theorem get_best_move_deterministic :
  forall (G G' : Type) (so : G -> nat -> list nat * G) (so' : G' -> nat -> list nat * G')
         (b : board) (player plies : Z) (fuel fuel' : nat) (g : G) (g' : G'),
    (forall g n, Permutation (so g n).1 (seq 0 n)) ->
    (forall g n, Permutation (so' g n).1 (seq 0 n)) ->
    rect b -> player = 1 \/ player = 2 ->
    get_state_value b 0 <= Z.of_nat fuel -> get_state_value b 0 <= Z.of_nat fuel' ->
    exists r g1 g1',
      get_best_move so fuel b player plies g = Done (r, g1) /\
      get_best_move so' fuel' b player plies g' = Done (r, g1').
Proof.
  intros G G' so so' b player plies fuel fuel' g g' Hso Hso' Hr Hp Hf Hf'.
  rewrite get_state_value_tally in Hf, Hf'.
  destruct (get_best_move_rect so Hso fuel b player plies Hr Hp Hf g) as (sc & Hsc & Hbm).
  destruct (get_best_move_rect so' Hso' fuel' b player plies Hr Hp Hf' g')
    as (sc' & Hsc' & Hbm').
  destruct (Hbm g) as [g1 Hg]. destruct (Hbm' g') as [g1' Hg'].
  exists (choose (len b) sc (filter (legal_move b player) (coords b)) (None, NegInf)).1,
         g1, g1'.
  split; [exact Hg|]. rewrite Hg'. do 3 f_equal. apply choose_ext.
  intros m Hm. apply legal_move_on_board in Hm as [Hon [H0 _]].
  destruct (Hsc m Hon H0 g) as [g2 H2]. destruct (Hsc' m Hon H0 g') as [g2' H2'].
  assert (Ht : tally 0 (after b player m) = tally 0 b - 1)
    by (apply tally_after; (assumption || lia)).
  symmetry.
  apply (pruned_value_unique so so' (after b player m) player (plies - 1) fuel fuel'
           g g' (sc m, g2) (sc' m, g2') Hso Hso');
    [apply rect_after; assumption|assumption|lia|lia|assumption|assumption].
Qed.

Lemma get_best_move_deterministic_witness :
  exists r g1 g1',
    get_best_move rev_order 12 start4 2 3 tt = Done (r, g1) /\
    get_best_move id_order 14 start4 2 3 tt = Done (r, g1').
Proof.
  apply (get_best_move_deterministic unit unit rev_order id_order start4 2 3 12 14 tt tt
           rev_order_perm id_order_perm rect_start4);
    [right; reflexivity|vm_compute; discriminate|vm_compute; discriminate].
Defined.

(** ** [ComputerPlayer] *)

(** X14: The constructor refuses exactly the identifiers other than 1 and 2;
    a player it builds has a level of at least 1 (the level asked for,
    or 1 when none or a smaller one was given).  Such a player fails the
    engine's assertion on an empty grid; on a rectangular grid it
    answers with no move exactly when [_get_available_moves] has none
    for its identifier, and otherwise with one of them. *)
Theorem pick_move_constructed :
  forall (G : Type) (so : G -> nat -> list nat * G) (id : Z) (level : option Z)
         (grid : board) (fuel : nat) (g : G),
    (forall g n, Permutation (so g n).1 (seq 0 n)) ->
    (ComputerPlayer_init id level = Raise AssertionError <-> id <> 1 /\ id <> 2) /\
    forall cp, ComputerPlayer_init id level = Done cp ->
      player_ID cp = id /\ (id = 1 \/ id = 2) /\
      difficulty_level cp = Z.max 1 (default 1 level) /\
      pick_move so fuel cp [] g = Raise AssertionError /\
      (rect grid -> grid <> [] -> get_state_value grid 0 <= Z.of_nat fuel ->
       exists moves r g',
         _get_available_moves grid id = Done moves /\
         pick_move so fuel cp grid g = Done (r, g') /\
         match r with None => moves = [] | Some m => m ∈ moves end).
Proof.
  intros G so id level grid fuel g Hso. unfold ComputerPlayer_init.
  destruct (Z.eqb_spec id 1) as [H1|H1], (Z.eqb_spec id 2) as [H2|H2]; cbn [orb negb];
    try (split; [split; [intros _; lia|intros _; reflexivity]|discriminate]).
  all: split; [split; [|lia]; destruct level as [n|]; [destruct (n <? 1)|]; discriminate|].
  all: intros cp Hcp.
  all: assert (Hcp' : player_ID cp = id /\ difficulty_level cp = Z.max 1 (default 1 level))
         by (destruct level as [n|]; cbn [default];
             [destruct (Z.ltb_spec n 1)|]; injection Hcp as <-; cbn; split; lia).
  all: destruct Hcp' as [Hid Hlv]; split; [exact Hid|]; split; [lia|];
       split; [exact Hlv|]; split; [reflexivity|].
  all: intros Hr Hne Hf; rewrite get_state_value_tally in Hf;
       unfold pick_move; rewrite Othello_init_copy by assumption; cbn [bind];
       rewrite Hid;
       destruct (get_best_move_rect so Hso fuel grid id (difficulty_level cp) Hr
                   ltac:(lia) Hf g) as (sc & _ & Hbm);
       destruct (Hbm g) as [g' Hg];
       exists (filter (legal_move grid id) (coords grid)),
              (choose (len grid) sc (filter (legal_move grid id) (coords grid))
                      (None, NegInf)).1, g';
       (split; [apply available_moves_rect; assumption|]); (split; [exact Hg|]);
       pose proof (choose_spec (len grid) sc (filter (legal_move grid id) (coords grid)))
         as Hfb;
       unfold first_best in Hfb;
       destruct (choose (len grid) sc (filter (legal_move grid id) (coords grid))
                        (None, NegInf)) as [[m|] s]; cbn [fst snd] in *;
       [destruct Hfb as (_ & i & Hi & _); apply list_elem_of_lookup; eauto
       |destruct Hfb as [-> _]; reflexivity].
Qed.

Lemma pick_move_constructed_witness :
  (ComputerPlayer_init 2 (Some 0) = Raise AssertionError <-> 2 <> 1 /\ 2 <> 2) /\
  forall cp, ComputerPlayer_init 2 (Some 0) = Done cp ->
    player_ID cp = 2 /\ (2 = 1 \/ 2 = 2) /\
    difficulty_level cp = Z.max 1 (default 1 (Some 0)) /\
    pick_move id_order 12 cp [] tt = Raise AssertionError /\
    (rect start4 -> start4 <> [] -> get_state_value start4 0 <= Z.of_nat 12 ->
     exists moves r g',
       _get_available_moves start4 2 = Done moves /\
       pick_move id_order 12 cp start4 tt = Done (r, g') /\
       match r with None => moves = [] | Some m => m ∈ moves end).
Proof.
  apply (pick_move_constructed unit id_order 2 (Some 0) start4 12 tt id_order_perm).
Defined.

(** * The game window *)

(** ** The window's copy of the rules *)

Lemma App_is_on_board_eq (b : board) (loc : location) :
  _is_on_board b loc = is_on_board b loc.
Proof. reflexivity. Qed.

Lemma App_get_flipped_eq (b : board) (loc : location) (player : Z) :
  _get_flipped b loc player = get_flipped b loc player.
Proof. reflexivity. Qed.

Lemma App_get_valid_moves_eq (b : board) (player : Z) :
  _get_valid_moves b player = _get_available_moves b player.
Proof. reflexivity. Qed.

(** ** [_place_disc] *)

Lemma flip_token_put (b : board) (c : location) (v : Z) :
  rect b -> on_board b c = true -> cell b c = Some v ->
  _flip_token b c = Done (put b c (if v =? 1 then 2 else 1)).
Proof.
  intros Hr Hon Hv. unfold _flip_token.
  destruct (py_index_cell b c Hr Hon) as (row & v' & Hrow & Hv' & Hc).
  rewrite Hrow. cbn [bind]. rewrite Hv'. cbn [bind].
  assert (v' = v) as -> by congruence.
  destruct (v =? 1); apply set_cell_put; assumption.
Qed.

(** Toggling each disc of a list once turns the opponent's discs into
    the player's. *)
Lemma flip_tokens_put_all (player opp : Z) (locs : list location) :
  players player = Done opp ->
  forall b : board,
    rect b -> NoDup locs ->
    (forall c, c ∈ locs -> on_board b c = true /\ cell b c = Some opp) ->
    flip_tokens b locs = Done (put_all b locs player).
Proof.
  intros Hopp.
  assert (Htog : (if opp =? 1 then 2 else 1) = player).
  { unfold players in Hopp. destruct (Z.eqb_spec player 1) as [->|];
      [injection Hopp as <-; reflexivity|].
    destruct (Z.eqb_spec player 2) as [->|]; [|discriminate].
    injection Hopp as <-. reflexivity. }
  induction locs as [|c locs IH]; intros b Hr Hnd Hall; [reflexivity|].
  cbn [flip_tokens]. apply NoDup_cons in Hnd as [Hnin Hnd].
  destruct (Hall c ltac:(left)) as [Hon Hc].
  rewrite (flip_token_put b c opp Hr Hon Hc), Htog. cbn [bind].
  cbn [put_all foldl]. fold (put_all (put b c player) locs player).
  apply IH; [apply rect_put; assumption|assumption|].
  intros c' Hc'. destruct (Hall c' ltac:(right; assumption)) as [Hon' Hv'].
  rewrite on_board_put. split; [assumption|]. rewrite <- Hv'.
  apply on_board_spec in Hon, Hon'. apply cell_put_ne; try (tauto || lia).
  intros ->. contradiction.
Qed.

Lemma place_disc_board (fuel : nat) (loc : location) (player_num : option Z)
    (game_started : bool) (s : App) :
  let b := App_board s in
  let p := default (current_player s) player_num in
  rect b -> valid_cells b -> p = 1 \/ p = 2 -> on_board b loc = true ->
  _place_disc fuel loc player_num game_started s =
  let s' := set_board
              (put_all (put b loc p) (offsets ≫= contribution (put b loc p) loc p) p)
              (set_buttons [] s) in
  if game_started then _swap_player fuel s' else Ok s'.
Proof.
  intros b p Hr Hv Hp Hon. unfold _place_disc.
  cbn [set_buttons set_board App_board current_player]. fold b. fold p.
  rewrite set_cell_put by assumption. cbn [lift rbind].
  assert (Hr1 : rect (put b loc p)) by (apply rect_put; assumption).
  assert (Hs1 : settled (put b loc p) p loc).
  { right; right. apply cell_put_eq; assumption. }
  rewrite App_get_flipped_eq, get_flipped_rect by assumption. cbn [lift rbind].
  destruct (players_valid p Hp) as (opp & Hopp & Ho12 & Hne).
  rewrite (flip_tokens_put_all p opp _ Hopp); [reflexivity|assumption| |].
  - apply flipped_NoDup; assumption.
  - intros c Hc.
    destruct (flipped_elem _ _ _ _ Hr1 Hs1 Hc) as [(Hon' & old & Hold & Hne0 & Hnep) _].
    split; [assumption|]. rewrite Hold. f_equal.
    assert (Hv1 : valid_cells (put b loc p)) by (apply valid_cells_put; tauto).
    destruct (valid_cells_cell _ c old Hv1 Hold) as [?|[?|?]]; lia.
Qed.

(** X16: The window and the engine play the same move: on a rectangular
    board of cells 0, 1 and 2, for player 1 or 2 and a coordinate on
    the board, [_place_disc] (which toggles each flipped disc with
    [_flip_token]) leaves on the window's board what [play_move] (which
    overwrites them) returns, removes the buttons, and hands the turn
    over when the game has started. *)
Theorem place_disc_agrees (fuel : nat) (loc : location) (player_num : option Z)
    (game_started : bool) (s : App) :
  let b := App_board s in
  let p := default (current_player s) player_num in
  rect b -> valid_cells b -> p = 1 \/ p = 2 -> on_board b loc = true ->
  exists b',
    play_move b loc p = Done b' /\
    _place_disc fuel loc player_num game_started s =
    (let s' := set_board b' (set_buttons [] s) in
     if game_started then _swap_player fuel s' else Ok s').
Proof.
  intros b p Hr Hv Hp Hon.
  destruct (play_move_rect b p loc Hr Hon) as (_ & Hpm & _).
  eexists. split; [exact Hpm|].
  apply place_disc_board; assumption.
Qed.

(** ** [_declare_victory] *)

Lemma count_row_tally (row : list Z) :
  Forall (fun v => v = 0 \/ v = 1 \/ v = 2) row ->
  forall tokens,
    count_row row tokens
    = Done (tokens.1 + tally_row 1 row, tokens.2 + tally_row 2 row).
Proof.
  induction 1 as [|v row Hv _ IH]; intros [w k]; cbn [count_row tally_row fst snd].
  - f_equal. f_equal; lia.
  - destruct Hv as [-> | [-> | ->]]; cbn [Z.eqb Pos.eqb]; rewrite IH; cbn [fst snd];
      f_equal; f_equal; lia.
Qed.

Lemma count_row_invalid (row : list Z) :
  ~ Forall (fun v => v = 0 \/ v = 1 \/ v = 2) row ->
  forall tokens, count_row row tokens = Raise KeyError.
Proof.
  induction row as [|v row IH]; intros Hn tokens; [destruct Hn; constructor|].
  cbn [count_row].
  destruct (Z.eqb_spec v 0) as [H0|H0];
    [apply IH; intros H; apply Hn; constructor; auto|].
  destruct (Z.eqb_spec v 1) as [H1|H1];
    [apply IH; intros H; apply Hn; constructor; auto|].
  destruct (Z.eqb_spec v 2) as [H2|H2];
    [apply IH; intros H; apply Hn; constructor; auto|].
  reflexivity.
Qed.

Lemma count_rows_tally (b : board) :
  valid_cells b ->
  forall tokens,
    count_rows b tokens = Done (tokens.1 + tally 1 b, tokens.2 + tally 2 b).
Proof.
  unfold valid_cells. induction 1 as [|row b Hrow _ IH]; intros [w k];
    cbn [count_rows tally fst snd].
  - f_equal. f_equal; lia.
  - rewrite count_row_tally by assumption. cbn [bind fst snd]. rewrite IH.
    cbn [fst snd]. f_equal. f_equal; lia.
Qed.

Lemma count_rows_invalid (b : board) :
  ~ valid_cells b -> forall tokens, count_rows b tokens = Raise KeyError.
Proof.
  unfold valid_cells. induction b as [|row b IH]; intros Hn tokens;
    [destruct Hn; constructor|].
  cbn [count_rows].
  destruct (decide (Forall (fun v => v = 0 \/ v = 1 \/ v = 2) row)) as [Hrow|Hrow].
  - rewrite count_row_tally by assumption. cbn [bind]. apply IH.
    intros H. apply Hn. constructor; assumption.
  - rewrite count_row_invalid by assumption. reflexivity.
Qed.

Lemma declare_victory_valid (s : App) :
  valid_cells (App_board s) ->
  _declare_victory s =
  Ok (set_top_banner (victory_text (tally 1 (App_board s)) (tally 2 (App_board s))) s).
Proof.
  intros Hv. unfold _declare_victory. rewrite count_rows_tally by assumption.
  cbn [lift rbind fst snd]. rewrite !Z.add_0_l. unfold victory_text.
  destruct (_ <? _); [reflexivity|]. destruct (_ <? _); reflexivity.
Qed.

(** X17: [_declare_victory] counts what the engine's [get_state_value]
    counts: on a board of cells 0, 1 and 2 the banner names the colour
    with more discs (or a tie) and the greater count, and nothing else
    changes; a cell with any other value raises [KeyError]. *)
Theorem declare_victory_spec (s : App) :
  let b := App_board s in
  (valid_cells b ->
   _declare_victory s =
   Ok (set_top_banner (victory_text (get_state_value b 1) (get_state_value b 2)) s)) /\
  (~ valid_cells b -> _declare_victory s = Fail (Engine KeyError)).
Proof.
  intros b. split.
  - intros Hv. rewrite !get_state_value_tally. apply declare_victory_valid, Hv.
  - intros Hn. unfold _declare_victory. fold b.
    rewrite count_rows_invalid by assumption. reflexivity.
Qed.

(** ** [_set_player] and [_swap_player] *)

Lemma PLAYERS_valid (q : Z) :
  q = 1 \/ q = 2 -> exists name, PLAYERS q = Done name.
Proof. intros [-> | ->]; eexists; reflexivity. Qed.

Lemma other_valid (p : Z) : p = 1 \/ p = 2 -> (other p = 1 \/ other p = 2) /\ other p <> p.
Proof. intros [-> | ->]; cbn; lia. Qed.

Lemma seat_index (s : App) (q : Z) (p : seat) :
  0 <= q -> seat_of s q = Some p ->
  exists seats, App_players s = Some seats /\ py_index seats q = Done p.
Proof.
  unfold seat_of. intros Hq Hs. destruct (App_players s) as [seats|]; [|discriminate].
  exists seats. split; [reflexivity|]. cbn in Hs.
  rewrite py_index_nonneg by assumption. rewrite Hs. reflexivity.
Qed.

Lemma set_player_unfold (fuel : nat) (player_id : Z) (s : App) :
  _set_player (S fuel) player_id s =
  let s := set_current_player player_id s in
  let+ valid_moves := lift (_get_valid_moves (App_board s) player_id) in
  match valid_moves with
  | [] =>
      let+ moves1 := lift (_get_valid_moves (App_board s) 1) in
      match moves1 with
      | _ :: _ => _swap_player fuel s
      | [] =>
          let+ moves2 := lift (_get_valid_moves (App_board s) 2) in
          match moves2 with
          | _ :: _ => _swap_player fuel s
          | [] => _declare_victory s
          end
      end
  | _ :: _ =>
      let+ seats :=
        match App_players s with
        | Some seats => Ok seats
        | None => Fail AttributeError
        end in
      let+ player := lift (py_index seats player_id) in
      match player with
      | HumanPlayer =>
          let+ name := lift (PLAYERS (current_player s)) in
          let s := set_top_banner (name +:+ "'s turn") s in
          Ok (set_buttons (buttons s ++ valid_moves) s)
      | _ =>
          let+ name := lift (PLAYERS (current_player s)) in
          let s := set_top_banner (name +:+ " player is thinking...") s in
          Ok (schedule s)
      end
  end.
Proof. reflexivity. Qed.

(** The side that is asked to move and has a move is announced. *)
Lemma set_player_moves (fuel : nat) (q : Z) (s : App) (p : seat) (name : string)
    (m : location) (ms : list location) :
  rect (App_board s) -> 0 <= q ->
  filter (legal_move (App_board s) q) (coords (App_board s)) = m :: ms ->
  seat_of s q = Some p -> PLAYERS q = Done name ->
  _set_player (S fuel) q s = Ok (announce q p name (m :: ms) s).
Proof.
  intros Hr Hq Hm Hseat Hname. rewrite set_player_unfold. cbv zeta.
  cbn [set_current_player App_board current_player App_players].
  rewrite App_get_valid_moves_eq, available_moves_rect, Hm by assumption.
  cbn [lift rbind].
  destruct (seat_index s q p Hq Hseat) as (seats & -> & Hidx). cbn [rbind].
  rewrite Hidx, Hname. cbn [lift rbind]. unfold announce.
  destruct p; reflexivity.
Qed.

Lemma set_player_cases (fuel : nat) (p : Z) (s : App) :
  in_play s -> p = 1 \/ p = 2 ->
  match mover (App_board s) p with
  | None =>
      _set_player (S (S fuel)) p s = _declare_victory (set_current_player p s)
  | Some q =>
      (q = 1 \/ q = 2) /\
      exists seat name moves,
        seat_of s q = Some seat /\ PLAYERS q = Done name /\ moves <> [] /\
        filter (legal_move (App_board s) q) (coords (App_board s)) = moves /\
        _set_player (S (S fuel)) p s = Ok (announce q seat name moves s)
  end.
Proof.
  intros (Hr & Hv & Hseats) Hp. unfold mover.
  destruct (filter (legal_move (App_board s) p) (coords (App_board s)))
    as [|m ms] eqn:Hm.
  - rewrite set_player_unfold. cbv zeta. unfold _swap_player.
    cbn [set_current_player App_board current_player].
    rewrite !App_get_valid_moves_eq, !available_moves_rect by assumption.
    rewrite Hm. cbn [lift rbind].
    assert (Hpass : forall q (m' : location) ms',
              q = 1 \/ q = 2 ->
              filter (legal_move (App_board s) q) (coords (App_board s)) = m' :: ms' ->
              (q = 1 \/ q = 2) /\
              exists seat name moves,
                seat_of s q = Some seat /\ PLAYERS q = Done name /\ moves <> [] /\
                filter (legal_move (App_board s) q) (coords (App_board s)) = moves /\
                _set_player (S fuel) q (set_current_player p s)
                = Ok (announce q seat name moves s)).
    { intros q m' ms' Hq Hmo. split; [exact Hq|].
      destruct (Hseats q Hq) as (seat & Hseat & _).
      destruct (PLAYERS_valid q Hq) as (name & Hname).
      exists seat, name, (m' :: ms'). split; [exact Hseat|]. split; [exact Hname|].
      split; [discriminate|]. split; [exact Hmo|].
      rewrite (set_player_moves fuel q (set_current_player p s) seat name m' ms');
        [reflexivity|exact Hr|lia|exact Hmo|exact Hseat|exact Hname]. }
    destruct Hp as [-> | ->]; cbn [other Z.eqb Pos.eqb].
    + rewrite Hm. cbn [lift rbind].
      destruct (filter (legal_move (App_board s) 2) (coords (App_board s)))
        as [|m' ms'] eqn:Hmo; [reflexivity|].
      apply (Hpass 2 m' ms'); [right; reflexivity|exact Hmo].
    + destruct (filter (legal_move (App_board s) 1) (coords (App_board s)))
        as [|m' ms'] eqn:Hmo; [rewrite Hm; reflexivity|].
      apply (Hpass 1 m' ms'); [left; reflexivity|exact Hmo].
  - split; [exact Hp|].
    destruct (Hseats p Hp) as (seat & Hseat & _).
    destruct (PLAYERS_valid p Hp) as (name & Hname).
    exists seat, name, (m :: ms). split; [exact Hseat|]. split; [exact Hname|].
    split; [discriminate|]. split; [exact Hm|].
    apply set_player_moves; (assumption || lia).
Qed.

Lemma announce_fields (q : Z) (p : seat) (name : string) (moves : list location)
    (s : App) :
  App_board (announce q p name moves s) = App_board s /\
  App_players (announce q p name moves s) = App_players s /\
  current_player (announce q p name moves s) = q.
Proof. destruct p; repeat split; reflexivity. Qed.

Lemma set_player_ok (fuel : nat) (p : Z) (s : App) :
  in_play s -> p = 1 \/ p = 2 ->
  exists s',
    _set_player (S (S fuel)) p s = Ok s' /\
    App_board s' = App_board s /\ App_players s' = App_players s.
Proof.
  intros Hplay Hp. pose proof (set_player_cases fuel p s Hplay Hp) as Hcases.
  destruct (mover (App_board s) p) as [q|].
  - destruct Hcases as (_ & seat & name & moves & _ & _ & _ & _ & Hset).
    exists (announce q seat name moves s). split; [exact Hset|].
    destruct (announce_fields q seat name moves s) as (? & ? & _). auto.
  - destruct Hplay as (_ & Hv & _).
    rewrite Hcases, declare_victory_valid by exact Hv.
    eexists. split; [reflexivity|]. split; reflexivity.
Qed.

(** The engine calls a position terminal exactly when the window finds
    nobody to move. *)
Lemma terminal_mover (b : board) (p : Z) :
  rect b -> p = 1 \/ p = 2 ->
  _is_state_terminal b
  = Done (match mover b p with None => true | Some _ => false end).
Proof.
  intros Hr Hp. rewrite is_state_terminal_rect by assumption. f_equal.
  assert (Hfull : tally 0 b = 0 -> forall q, filter (legal_move b q) (coords b) = []).
  { intros Ht q. destruct (filter (legal_move b q) (coords b)) as [|m ms] eqn:Hm;
      [reflexivity|].
    destruct (moves_need_empty b q) as [c Hc]; [rewrite Hm; discriminate|].
    exfalso. exact (proj1 (tally_zero 0 b) Ht c Hc). }
  unfold mover. destruct (Z.eqb_spec (tally 0 b) 0) as [Ht|Ht].
  - rewrite !Hfull by assumption. reflexivity.
  - destruct Hp as [-> | ->]; cbn [other Z.eqb Pos.eqb];
      destruct (filter (legal_move b 1) (coords b)),
               (filter (legal_move b 2) (coords b)); reflexivity.
Qed.

(** X18: [_set_player] for player 1 or 2 on a window in play: two levels of
    calls are enough.  The board and the seats stay.  If the player has
    a move the turn is the player's; if only the other side has one the
    turn passes to it; if neither has, the game is over (the engine's
    [_is_state_terminal] agrees) and the banner shows the result.  The
    side to move gets a button for each of its moves when it is a
    person, and a scheduled call of [_do_computer_turn] otherwise. *)
Theorem set_player_spec (fuel : nat) (p : Z) (s : App) :
  in_play s -> p = 1 \/ p = 2 ->
  let b := App_board s in
  exists s',
    _set_player (S (S fuel)) p s = Ok s' /\
    App_board s' = b /\ App_players s' = App_players s /\
    match mover b p with
    | None =>
        _is_state_terminal b = Done true /\
        current_player s' = p /\ buttons s' = buttons s /\
        scheduled s' = scheduled s /\
        top_banner s' = victory_text (get_state_value b 1) (get_state_value b 2)
    | Some q =>
        _is_state_terminal b = Done false /\
        current_player s' = q /\
        (q = p \/ (q = other p /\ _get_valid_moves b p = Done [])) /\
        exists moves,
          _get_valid_moves b q = Done moves /\ moves <> [] /\
          match seat_of s q with
          | Some HumanPlayer =>
              buttons s' = buttons s ++ moves /\ scheduled s' = scheduled s
          | _ => buttons s' = buttons s /\ scheduled s' = S (scheduled s)
          end
    end.
Proof.
  intros Hplay Hp b. pose proof Hplay as (Hr & Hv & Hseats).
  pose proof (set_player_cases fuel p s Hplay Hp) as Hcases.
  pose proof (terminal_mover b p Hr Hp) as Hterm. fold b in Hcases.
  assert (Hwho : forall q, mover b p = Some q ->
            q = p \/ (q = other p /\ _get_valid_moves b p = Done [])).
  { unfold mover. intros q. rewrite App_get_valid_moves_eq, available_moves_rect
      by assumption.
    destruct (filter (legal_move b p) (coords b)); [|intros [= <-]; left; reflexivity].
    destruct (filter (legal_move b (other p)) (coords b)); [discriminate|].
    intros [= <-]. right. split; reflexivity. }
  destruct (mover b p) as [q|].
  - destruct Hcases as (Hq & seat & name & moves & Hseat & Hname & Hne & Hmoves & Hset).
    exists (announce q seat name moves s). split; [exact Hset|].
    split; [destruct seat; reflexivity|]. split; [destruct seat; reflexivity|].
    split; [exact Hterm|]. split; [destruct seat; reflexivity|].
    split; [apply Hwho; reflexivity|].
    exists moves. split.
    { rewrite App_get_valid_moves_eq, available_moves_rect by assumption.
      f_equal. exact Hmoves. }
    split; [exact Hne|]. rewrite Hseat. destruct seat; split; reflexivity.
  - rewrite Hcases, declare_victory_valid by exact Hv.
    eexists. split; [reflexivity|]. rewrite !get_state_value_tally.
    repeat (split; [reflexivity|]). split; [exact Hterm|].
    repeat (split; [reflexivity|]). reflexivity.
Qed.

(** ** [_do_computer_turn] *)

Lemma in_play_board (s s' : App) :
  in_play s -> App_players s' = App_players s ->
  rect (App_board s') -> valid_cells (App_board s') -> in_play s'.
Proof.
  intros (_ & _ & Hseats) Hp Hr Hv. split; [exact Hr|]. split; [exact Hv|].
  intros q Hq. unfold seat_of. rewrite Hp. apply Hseats, Hq.
Qed.

Lemma swap_player_other (fuel : nat) (s : App) :
  _swap_player fuel s = _set_player fuel (other (current_player s)) s.
Proof. unfold _swap_player, other. destruct (current_player s =? 1); reflexivity. Qed.

(** A legal move through [_place_disc]: the board becomes the engine's
    [after], the buttons go, the turn is handed over. *)
Lemma place_disc_legal (fuel : nat) (m : location) (s : App) :
  let b := App_board s in
  let q := current_player s in
  rect b -> valid_cells b -> q = 1 \/ q = 2 ->
  on_board b m = true -> cell b m = Some 0 ->
  _place_disc fuel m None true s =
  _set_player fuel (other q) (set_board (after b q m) (set_buttons [] s)).
Proof.
  intros b q Hr Hv Hq Hon H0.
  rewrite (place_disc_board fuel m None true s Hr Hv Hq Hon). cbv zeta.
  cbn [default]. fold b. fold q.
  rewrite flipped_put by (auto; right; left; assumption).
  rewrite swap_player_other. reflexivity.
Qed.

Section ComputerTurn.

Context {G : Type}.
Variable so : G -> nat -> list nat * G.
Hypothesis so_perm : forall g n, Permutation (so g n).1 (seq 0 n).

Lemma do_computer_turn_step (fuel : nat) (s : App) (g : G) (cp : ComputerPlayer)
    (name : string) :
  let b := App_board s in
  let q := current_player s in
  in_play s -> q = 1 \/ q = 2 ->
  seat_of s q = Some (Computer cp) -> PLAYERS q = Done name ->
  filter (legal_move b q) (coords b) <> [] ->
  tally 0 b <= Z.of_nat fuel ->
  exists m g',
    m ∈ filter (legal_move b q) (coords b) /\
    _do_computer_turn so fuel s g =
    let+ s' := _set_player fuel (other q)
                 (set_board (after b q m)
                    (set_buttons []
                       (set_top_banner (name +:+ " player is thinking...") s))) in
    Ok (s', g').
Proof.
  intros b q Hplay Hq Hseat Hname Hmoves Hf.
  pose proof Hplay as (Hr & Hv & Hseats).
  destruct (Hseats q Hq) as (p & Hp & Hid). rewrite Hseat in Hp.
  injection Hp as <-. specialize (Hid cp eq_refl).
  destruct (seat_index s q (Computer cp) ltac:(lia) Hseat) as (seats & Hsts & Hidx).
  destruct (get_best_move_rect so so_perm fuel b q (difficulty_level cp) Hr Hq Hf g)
    as (sc & _ & Hbm).
  destruct (Hbm g) as [g' Hg].
  pose proof (choose_spec (len b) sc (filter (legal_move b q) (coords b))) as Hfb.
  unfold first_best in Hfb.
  destruct (choose (len b) sc (filter (legal_move b q) (coords b)) (None, NegInf))
    as [[m|] sm]; cbn [fst snd] in *; [|destruct Hfb as [Hnil _]; contradiction].
  destruct Hfb as (_ & i & Hi & _).
  assert (Hm : m ∈ filter (legal_move b q) (coords b))
    by (apply list_elem_of_lookup; eauto).
  exists m, g'. split; [exact Hm|].
  apply legal_move_on_board in Hm as [Hon [H0 _]].
  unfold _do_computer_turn. rewrite Hsts. cbn [rbind]. fold q. rewrite Hidx.
  cbn [lift rbind]. unfold pick_move. fold b.
  rewrite Othello_init_copy by (eapply on_board_nonempty; eassumption). cbn [bind].
  rewrite Hid, Hg. cbn [lift rbind].
  rewrite App_is_on_board_eq, is_on_board_eq, Hon. cbn [lift rbind negb].
  destruct (py_index_cell b m Hr Hon) as (row & v & Hrow & Hv' & Hc).
  rewrite Hrow. cbn [lift rbind]. rewrite Hv'. cbn [lift rbind].
  assert (v = 0) as -> by congruence. cbn [Z.eqb negb].
  rewrite Hname. cbn [lift rbind].
  rewrite place_disc_legal; [reflexivity|assumption|assumption|exact Hq| |]; assumption.
Qed.

End ComputerTurn.

Lemma in_play_after (s s2 : App) (q : Z) (m : location) :
  in_play s -> q = 1 \/ q = 2 ->
  App_players s2 = App_players s -> App_board s2 = after (App_board s) q m ->
  in_play s2.
Proof.
  intros Hplay Hq Hp Hb. pose proof Hplay as (Hr & Hv & _).
  apply (in_play_board s s2 Hplay Hp); rewrite Hb;
    [apply rect_after|apply valid_cells_after]; assumption.
Qed.

Lemma mover_none (b : board) (p p' : Z) :
  p = 1 \/ p = 2 -> p' = 1 \/ p' = 2 -> mover b p = None -> mover b p' = None.
Proof.
  unfold mover. intros [-> | ->] [-> | ->]; cbn [other Z.eqb Pos.eqb];
    destruct (filter (legal_move b 1) (coords b)),
             (filter (legal_move b 2) (coords b)); congruence.
Qed.

(** X19: When [_set_player] has scheduled the turn of a computer player (the
    player to move is 1 or 2, sits on a computer seat and has a move),
    [_do_computer_turn] goes through: [pick_move] answers with an
    available move, both assertions hold, the move is played as the
    engine's [play_move] plays it, one empty cell is filled, and the
    turn is handed to the other side with [_set_player]. *)
Theorem computer_turn_safe :
  forall (G : Type) (so : G -> nat -> list nat * G) (fuel : nat) (s : App) (g : G)
         (cp : ComputerPlayer),
    (forall g n, Permutation (so g n).1 (seq 0 n)) ->
    let b := App_board s in
    let q := current_player s in
    in_play s -> q = 1 \/ q = 2 ->
    seat_of s q = Some (Computer cp) ->
    (exists moves, _get_valid_moves b q = Done moves /\ moves <> []) ->
    get_state_value b 0 <= Z.of_nat (S (S fuel)) ->
    exists m b' s2 s' g',
      on_board b m = true /\ cell b m = Some 0 /\
      play_move b m q = Done b' /\
      get_state_value b' 0 = get_state_value b 0 - 1 /\
      App_board s2 = b' /\ buttons s2 = [] /\ in_play s2 /\
      _set_player (S (S fuel)) (other q) s2 = Ok s' /\
      App_board s' = b' /\ in_play s' /\
      _do_computer_turn so (S (S fuel)) s g = Ok (s', g').
Proof.
  intros G so fuel s g cp Hso b q Hplay Hq Hseat (moves & Hmoves & Hne) Hf.
  pose proof Hplay as (Hr & Hv & Hseats).
  rewrite get_state_value_tally in Hf.
  rewrite App_get_valid_moves_eq, available_moves_rect in Hmoves by assumption.
  injection Hmoves as Hmoves. rewrite <- Hmoves in Hne.
  destruct (PLAYERS_valid q Hq) as (name & Hname).
  destruct (do_computer_turn_step so Hso (S (S fuel)) s g cp name Hplay Hq Hseat Hname
              Hne Hf) as (m & g' & Hm & Hturn).
  fold b in Hm, Hturn. fold q in Hm, Hturn.
  apply legal_move_on_board in Hm as [Hon [H0 _]].
  set (s2 := set_board (after b q m)
               (set_buttons [] (set_top_banner (name +:+ " player is thinking...") s)))
    in *.
  assert (Hplay2 : in_play s2) by (apply (in_play_after s s2 q m); auto).
  destruct (other_valid q Hq) as [Ho _].
  destruct (set_player_ok fuel (other q) s2 Hplay2 Ho) as (s' & Hset & Hb' & Hp').
  exists m, (after b q m), s2, s', g'.
  split; [exact Hon|]. split; [exact H0|].
  split; [apply play_move_legal; assumption|].
  split; [rewrite !get_state_value_tally; apply tally_after; (assumption || lia)|].
  split; [reflexivity|]. split; [reflexivity|]. split; [exact Hplay2|].
  split; [exact Hset|]. split; [exact Hb'|].
  split; [apply (in_play_after s s' q m); auto; rewrite Hp'; reflexivity|].
  rewrite Hturn, Hset. reflexivity.
Qed.

(** ** A game between two computer players *)

Section ComputerGame.

Context {G : Type}.
Variable so : G -> nat -> list nat * G.
Hypothesis so_perm : forall g n, Permutation (so g n).1 (seq 0 n).
Variable fuel : nat.

Lemma game_ends_from (k : nat) :
  forall (s : App) (g : G),
    tally 0 (App_board s) = Z.of_nat k -> (k <= S (S fuel))%nat ->
    in_play s -> computers s ->
    current_player s = 1 \/ current_player s = 2 ->
    filter (legal_move (App_board s) (current_player s)) (coords (App_board s)) <> [] ->
    scheduled s = 1%nat -> buttons s = [] ->
    exists (n : nat) s' g',
      (1 <= n <= k)%nat /\
      fire_n so (S (S fuel)) n (s, g) = Ok (s', g') /\
      scheduled s' = 0%nat /\ buttons s' = [] /\
      rect (App_board s') /\ mover (App_board s') 1 = None /\
      top_banner s' = victory_text (tally 1 (App_board s')) (tally 2 (App_board s')).
Proof.
  induction k as [|k IH]; intros s g Hk Hfuel Hplay Hcomp Hq Hmoves Hsched Hbuttons.
  { exfalso. destruct (moves_need_empty _ _ Hmoves) as [c Hc].
    exact (proj1 (tally_zero 0 (App_board s)) Hk c Hc). }
  pose proof Hplay as (Hr & Hv & Hseats).
  set (b := App_board s) in *. set (q := current_player s) in *.
  set (s0 := {| App_board := b; current_player := q; App_players := App_players s;
                buttons := buttons s; top_banner := top_banner s;
                scheduled := 0%nat |}).
  assert (Hplay0 : in_play s0) by (apply (in_play_board s s0); auto).
  destruct (Hcomp q Hq) as [cp Hseat].
  destruct (PLAYERS_valid q Hq) as (name & Hname).
  destruct (do_computer_turn_step so so_perm (S (S fuel)) s0 g cp name Hplay0 Hq Hseat
              Hname Hmoves ltac:(cbn [s0 App_board]; lia)) as (m & g' & Hm & Hturn).
  cbn [s0 App_board current_player] in Hm, Hturn.
  apply legal_move_on_board in Hm as [Hon [H0 _]].
  set (s2 := set_board (after b q m)
               (set_buttons [] (set_top_banner (name +:+ " player is thinking...") s0)))
    in *.
  assert (Hplay2 : in_play s2) by (apply (in_play_after s s2 q m); auto).
  destruct (other_valid q Hq) as [Ho _].
  assert (Hfire : fire so (S (S fuel)) (s, g)
                  = let+ s' := _set_player (S (S fuel)) (other q) s2 in Ok (s', g')).
  { unfold fire. cbn [fst snd]. rewrite Hsched. exact Hturn. }
  assert (Htally : tally 0 (after b q m) = Z.of_nat k)
    by (rewrite tally_after by (auto; lia); lia).
  pose proof (set_player_cases fuel (other q) s2 Hplay2 Ho) as Hcases.
  cbn [s2 set_board App_board] in Hcases.
  destruct (mover (after b q m) (other q)) as [q'|] eqn:Hmover.
  - destruct Hcases as (Hq' & seat & name' & moves' & Hseat' & Hname' & Hne' & Hmoves' & Hset).
    destruct (Hcomp q' Hq') as [cp' Hcp'].
    assert (seat = Computer cp') as -> by (unfold seat_of in *; cbn in Hseat'; congruence).
    set (s1 := announce q' (Computer cp') name' moves' s2) in *.
    destruct (IH s1 g') as (n & s' & g'' & Hn & Hrun & Hrest).
    + exact Htally.
    + lia.
    + apply (in_play_after s s1 q m); auto.
    + intros q0 Hq0. exact (Hcomp q0 Hq0).
    + exact Hq'.
    + cbn [s1 announce schedule set_top_banner set_current_player App_board
             current_player s2 set_board]. rewrite Hmoves'. exact Hne'.
    + cbn. reflexivity.
    + cbn. reflexivity.
    + exists (S n), s', g''. split; [lia|]. split; [|exact Hrest].
      cbn [fire_n]. rewrite Hfire, Hset. cbn [rbind]. exact Hrun.
  - rewrite declare_victory_valid in Hcases by (destruct Hplay2 as (_ & Hv2 & _); exact Hv2).
    eexists 1%nat, _, g'. split; [lia|]. split.
    { cbn [fire_n]. rewrite Hfire, Hcases. cbn [rbind]. reflexivity. }
    cbn. split; [reflexivity|]. split; [reflexivity|].
    split; [apply rect_after; assumption|].
    split; [exact (mover_none _ _ 1 Ho ltac:(left; reflexivity) Hmover)|reflexivity].
Qed.

End ComputerGame.

(** X20: A game between two computer players comes to its end: from a window
    in play where a computer player's turn has been scheduled, running
    the scheduled calls of [_do_computer_turn] one after the other stops
    after at most as many calls as there are empty cells, with no call
    left scheduled, no side able to move, and the result in the
    banner.  No call raises an exception on the way. *)
Theorem computer_game_ends :
  forall (G : Type) (so : G -> nat -> list nat * G) (fuel : nat) (s : App) (g : G),
    (forall g n, Permutation (so g n).1 (seq 0 n)) ->
    let b := App_board s in
    in_play s -> computers s ->
    current_player s = 1 \/ current_player s = 2 ->
    (exists moves, _get_valid_moves b (current_player s) = Done moves /\ moves <> []) ->
    scheduled s = 1%nat -> buttons s = [] ->
    get_state_value b 0 <= Z.of_nat (S (S fuel)) ->
    exists (n : nat) s' g',
      Z.of_nat n <= get_state_value b 0 /\
      fire_n so (S (S fuel)) n (s, g) = Ok (s', g') /\
      scheduled s' = 0%nat /\ buttons s' = [] /\
      _is_state_terminal (App_board s') = Done true /\
      top_banner s'
      = victory_text (get_state_value (App_board s') 1) (get_state_value (App_board s') 2).
Proof.
  intros G so fuel s g Hso b Hplay Hcomp Hq (moves & Hmoves & Hne) Hsched Hbuttons Hf.
  pose proof Hplay as (Hr & _).
  rewrite get_state_value_tally in Hf |- *.
  rewrite App_get_valid_moves_eq, available_moves_rect in Hmoves by assumption.
  injection Hmoves as Hmoves. rewrite <- Hmoves in Hne.
  pose proof (tally_nonneg 0 b) as Hnn.
  destruct (game_ends_from so Hso fuel (Z.to_nat (tally 0 b)) s g)
    as (n & s' & g' & Hn & Hrun & Hs & Hb & Hr' & Hmover & Hbanner);
    try assumption; try (fold b; lia).
  exists n, s', g'. split; [lia|]. split; [exact Hrun|].
  split; [exact Hs|]. split; [exact Hb|]. split.
  - rewrite (terminal_mover _ 1 Hr' ltac:(left; reflexivity)), Hmover. reflexivity.
  - rewrite !get_state_value_tally. exact Hbanner.
Qed.

(** ** Opening the window *)

Lemma confined_replicate (m : Z) (n w : nat) : confined m (replicate n (replicate w 0)).
Proof.
  intros c v Hon Hc Hv. apply on_board_replicate in Hon as [Hx Hy].
  rewrite cell_replicate in Hc by assumption. congruence.
Qed.

Lemma confined_put (m : Z) (b : board) (loc : location) (v : Z) :
  0 <= m -> in_block m loc -> confined m b -> confined m (put b loc v).
Proof.
  intros Hm Hloc Hb c w Hon Hc Hw. destruct (decide (c = loc)) as [->|Hne];
    [exact Hloc|].
  rewrite on_board_put in Hon. apply (Hb c w Hon); [|exact Hw].
  rewrite <- Hc. symmetry. destruct Hloc as [Hx Hy].
  apply on_board_spec in Hon. apply cell_put_ne; tauto || lia.
Qed.

(** A disc placed among discs that all sit on one block of four cells
    flips nothing: the second cell of any line from the block is off
    it. *)
Lemma no_flips_confined (m : Z) (b : board) (loc : location) (p : Z) :
  rect b -> p <> 0 -> confined m b -> in_block m loc -> settled b p loc ->
  offsets ≫= contribution b loc p = [].
Proof.
  intros Hr Hp Hb Hloc Hs.
  destruct (offsets ≫= contribution b loc p) as [|c l] eqn:Hfl; [reflexivity|].
  exfalso.
  assert (Hc : c ∈ offsets ≫= contribution b loc p) by (rewrite Hfl; left).
  destruct (flipped_elem b p loc c Hr Hs Hc) as [_ (d & n & k & Hd & Hsw & _)].
  destruct Hsw as (Hn & Hrun & Hon & Hend).
  assert (H2 : in_block m (ahead loc d 2)).
  { destruct (decide (n = 2)) as [->|Hn2].
    - apply (Hb _ p Hon Hend Hp).
    - destruct (Hrun 2 ltac:(lia)) as (Hon2 & v & Hv & Hv0 & _).
      apply (Hb _ v Hon2 Hv Hv0). }
  apply compass_cases in Hd as (Hx & Hy & Hne).
  destruct Hloc as [Hlx Hly], H2 as [H2x H2y]. unfold ahead in *.
  cbn [fst snd] in *. lia.
Qed.

(** One of the four calls [_place_disc(.., .., False)] of the
    constructor. *)
Lemma place_disc_opening (fuel : nat) (m : Z) (loc : location) (p : Z) (s : App) :
  let b := App_board s in
  rect b -> valid_cells b -> confined m b -> 0 <= m -> in_block m loc ->
  on_board b loc = true -> p = 1 \/ p = 2 ->
  _place_disc fuel loc (Some p) false s
  = Ok (set_board (put b loc p) (set_buttons [] s)).
Proof.
  intros b Hr Hv Hb Hm Hloc Hon Hp.
  rewrite (place_disc_board fuel loc (Some p) false s Hr Hv Hp Hon). cbv zeta.
  cbn [default]. change (id p) with p. fold b.
  rewrite (no_flips_confined m); [reflexivity|apply rect_put; assumption|lia| | |].
  - apply confined_put; assumption.
  - exact Hloc.
  - right; right. apply cell_put_eq; assumption.
Qed.

(** Black can open at the left of the white disc of the top row of the
    centre. *)
Lemma start_board_move (width : Z) :
  width mod 2 = 0 -> 4 <= width ->
  (width / 2 - 2, width / 2 - 1)
  ∈ filter (legal_move (start_board width) 2) (coords (start_board width)).
Proof.
  intros He Hge.
  destruct (start_board_spec width He ltac:(lia))
    as (_ & _ & Hr & _ & Hon & Hcells & _).
  cbv zeta in *. set (b := start_board width) in *. set (m := width / 2 - 1).
  assert (Hm : 1 <= m /\ m + 1 < width).
  { unfold m. pose proof (Z.div_mod width 2 ltac:(lia)). lia. }
  replace (width / 2 - 2) with (m - 1) by (unfold m; lia).
  assert (Hin : forall x y, 0 <= x < width -> 0 <= y < width -> on_board b (x, y) = true).
  { intros x y Hx Hy. apply Hon. cbn [fst snd]. lia. }
  assert (Hcell : forall x y, 0 <= x < width -> 0 <= y < width ->
                         cell b (x, y) = Some (start_cell width (x, y))).
  { intros x y Hx Hy. apply Hcells, Hin; assumption. }
  assert (Hval : start_cell width (m - 1, m) = 0 /\ start_cell width (m, m) = 1 /\
                 start_cell width (m + 1, m) = 2).
  { unfold start_cell. fold m.
    repeat split; repeat (destruct (decide _) as [?|?]); try reflexivity; exfalso;
      rewrite ?pair_eq_iff in *; lia. }
  destruct Hval as (Hv0 & Hv1 & Hv2).
  apply list_elem_of_filter. split; [|apply elem_of_coords, Hin; lia].
  split; [rewrite Hcell by lia; f_equal; exact Hv0|].
  assert (Hel : ahead (m - 1, m) (1, 0) 1
                ∈ offsets ≫= contribution b (m - 1, m) 2).
  { apply list_elem_of_bind. exists (1, 0). split; [|apply list_elem_of_In; vm_compute; tauto].
    apply (sandwich_contribution b 2 (m - 1, m) (1, 0) 2 1 Hr); [lia| |  |lia].
    - unfold compass. cbn [fst snd]. repeat split; try lia. discriminate.
    - unfold sandwich, ahead. cbn [fst snd]. split; [lia|]. split; [|split].
      + intros j Hj. assert (j = 1) as -> by lia.
        replace (m - 1 + 1 * 1) with m by lia. replace (m + 1 * 0) with m by lia.
        split; [apply Hin; lia|]. exists 1. split; [rewrite Hcell by lia; f_equal; exact Hv1|].
        split; lia.
      + replace (m - 1 + 2 * 1) with (m + 1) by lia. replace (m + 2 * 0) with m by lia.
        apply Hin; lia.
      + replace (m - 1 + 2 * 1) with (m + 1) by lia. replace (m + 2 * 0) with m by lia.
        rewrite Hcell by lia. f_equal. exact Hv2. }
  intros Hnil. rewrite Hnil in Hel. inversion Hel.
Qed.

Lemma App_init_start (fuel : nat) (p1 p2 : seat) (grid_size : Z) :
  grid_size mod 2 = 0 -> 4 <= grid_size ->
  (forall cp, p1 = Computer cp -> player_ID cp = 1) ->
  (forall cp, p2 = Computer cp -> player_ID cp = 2) ->
  let b := start_board grid_size in
  let moves := filter (legal_move b 2) (coords b) in
  let s := {| App_board := b; current_player := 0;
              App_players := Some [NoPlayer; p1; p2]; buttons := [];
              top_banner := ""; scheduled := 0 |} in
  moves <> [] /\ in_play s /\
  App_init (S (S fuel)) (Some [p1; p2]) grid_size = Ok (announce 2 p2 "Black" moves s).
Proof.
  intros He Hge Hp1 Hp2 b moves s.
  destruct (start_board_spec grid_size He ltac:(lia))
    as (_ & _ & Hr & Hv & Hon & _).
  cbv zeta in Hr, Hv, Hon. fold b in Hr, Hv, Hon.
  assert (Hmoves : moves <> []).
  { intros Hnil. pose proof (start_board_move grid_size He Hge) as Hin.
    fold b in Hin. fold moves in Hin. rewrite Hnil in Hin. inversion Hin. }
  assert (Hplay : in_play s).
  { split; [exact Hr|]. split; [exact Hv|].
    intros q [-> | ->]; [exists p1|exists p2]; split; [reflexivity|exact Hp1
                                                      |reflexivity|exact Hp2]. }
  split; [exact Hmoves|]. split; [exact Hplay|].
  unfold App_init. rewrite Z.quot_div_nonneg by lia.
  set (n := Z.to_nat grid_size). set (m := grid_size / 2 - 1).
  assert (Hm : 0 <= m /\ m + 1 < grid_size).
  { unfold m. pose proof (Z.div_mod grid_size 2 ltac:(lia)). lia. }
  assert (Hn : Z.of_nat n = grid_size) by (unfold n; lia).
  set (b0 := replicate n (replicate n 0)).
  assert (Hin0 : forall x y, 0 <= x < grid_size -> 0 <= y < grid_size ->
                        on_board b0 (x, y) = true).
  { intros x y Hx Hy. apply on_board_replicate. cbn [fst snd]. lia. }
  assert (Hv0 : valid_cells b0).
  { unfold valid_cells, b0. apply Forall_replicate, Forall_replicate. auto. }
  pose proof (rect_replicate n n 0) as Hr0. fold b0 in Hr0.
  pose proof (confined_replicate m n n) as Hc0. fold b0 in Hc0.
  assert (Hblock : in_block m (m, m) /\ in_block m (m + 1, m + 1) /\
                   in_block m (m, m + 1) /\ in_block m (m + 1, m))
    by (unfold in_block; cbn [fst snd]; lia).
  destruct Hblock as (Hb1 & Hb2 & Hb3 & Hb4).
  rewrite (place_disc_opening _ m (m, m) 1); cbn [App_board];
    [|assumption|assumption|assumption|lia|assumption|apply Hin0; lia|auto].
  cbn [rbind].
  rewrite (place_disc_opening _ m (m + 1, m + 1) 1); cbn [App_board set_board set_buttons];
    [|apply rect_put; assumption|apply valid_cells_put; auto
     |apply confined_put; (assumption || lia)|lia|assumption
     |rewrite on_board_put; apply Hin0; lia|auto].
  cbn [rbind].
  rewrite (place_disc_opening _ m (m, m + 1) 2); cbn [App_board set_board set_buttons];
    [|repeat apply rect_put; assumption|repeat (apply valid_cells_put; auto)
     |repeat (apply confined_put; try (assumption || lia))|lia|assumption
     |rewrite !on_board_put; apply Hin0; lia|auto].
  cbn [rbind].
  rewrite (place_disc_opening _ m (m + 1, m) 2); cbn [App_board set_board set_buttons];
    [|repeat apply rect_put; assumption|repeat (apply valid_cells_put; auto)
     |repeat (apply confined_put; try (assumption || lia))|lia|assumption
     |rewrite !on_board_put; apply Hin0; lia|auto].
  cbn [rbind].
  change (_set_player (S (S fuel)) 2 s = Ok (announce 2 p2 "Black" moves s)).
  subst moves.
  destruct (filter (legal_move b 2) (coords b)) as [|mv mvs] eqn:Hmv; [contradiction|].
  apply set_player_moves; [exact Hr|lia|exact Hmv|reflexivity|reflexivity].
Qed.

(** X21: [App.__init__] with one seat per colour, on an even grid of side 4
    or more (below 2^53, where [int(grid_size/2)] is exact): the four
    opening discs flip nothing, so the window starts on the board the
    engine's constructor builds for the same width; black is to move
    and has a move; a person gets the buttons of black's moves, any
    other seat gets its turn scheduled. *)
Theorem App_init_spec (fuel : nat) (p1 p2 : seat) (grid_size : Z) :
  grid_size mod 2 = 0 -> 4 <= grid_size < 2 ^ 53 ->
  (forall cp, p1 = Computer cp -> player_ID cp = 1) ->
  (forall cp, p2 = Computer cp -> player_ID cp = 2) ->
  exists s0 moves,
    App_init (S (S fuel)) (Some [p1; p2]) grid_size = Ok s0 /\
    Othello_start grid_size = Done (App_board s0) /\
    in_play s0 /\ current_player s0 = 2 /\
    _get_valid_moves (App_board s0) 2 = Done moves /\ moves <> [] /\
    match p2 with
    | HumanPlayer =>
        buttons s0 = moves /\ scheduled s0 = 0%nat /\ top_banner s0 = "Black's turn"
    | _ =>
        buttons s0 = [] /\ scheduled s0 = 1%nat /\
        top_banner s0 = "Black player is thinking..."
    end.
Proof.
  intros He [Hge _] Hp1 Hp2.
  destruct (App_init_start fuel p1 p2 grid_size He Hge Hp1 Hp2) as (Hmoves & Hplay & Hinit).
  destruct (start_board_spec grid_size He ltac:(lia)) as (Hstart & _ & Hr & _).
  cbv zeta in *.
  set (b := start_board grid_size) in *.
  set (moves := filter (legal_move b 2) (coords b)) in *.
  set (s := {| App_board := b; current_player := 0;
               App_players := Some [NoPlayer; p1; p2]; buttons := [];
               top_banner := ""; scheduled := 0 |}) in *.
  destruct (announce_fields 2 p2 "Black" moves s) as (Hb & Hp & Hq).
  exists (announce 2 p2 "Black" moves s), moves.
  split; [exact Hinit|]. split; [rewrite Hb; exact Hstart|].
  split; [apply (in_play_board s); [exact Hplay|exact Hp|rewrite Hb; apply Hplay
                                   |rewrite Hb; apply Hplay]|].
  split; [exact Hq|].
  split; [rewrite Hb, App_get_valid_moves_eq; apply available_moves_rect, Hr|].
  split; [exact Hmoves|].
  destruct p2; repeat split; reflexivity.
Qed.

Lemma App_init_spec_witness :
  exists s0 moves,
    App_init 2 (Some [HumanPlayer; Computer black_cp]) 8 = Ok s0 /\
    Othello_start 8 = Done (App_board s0) /\
    in_play s0 /\ current_player s0 = 2 /\
    _get_valid_moves (App_board s0) 2 = Done moves /\ moves <> [] /\
    buttons s0 = [] /\ scheduled s0 = 1%nat /\
    top_banner s0 = "Black player is thinking...".
Proof.
  apply (App_init_spec 0 HumanPlayer (Computer black_cp) 8);
    [reflexivity|lia|discriminate|intros cp [= <-]; reflexivity].
Defined.

(** X22: A whole game between two computer players, from the constructor to
    the banner: on an even grid of side 4 or more, with each computer
    player on the seat of its identifier, the window opens, and running
    the scheduled turns one after the other ends the game after at most
    as many turns as the board has empty cells at the start, without any
    exception. *)
Theorem computer_match :
  forall (G : Type) (so : G -> nat -> list nat * G) (fuel : nat)
         (cp1 cp2 : ComputerPlayer) (grid_size : Z) (g : G),
    (forall g n, Permutation (so g n).1 (seq 0 n)) ->
    grid_size mod 2 = 0 -> 4 <= grid_size < 2 ^ 53 ->
    player_ID cp1 = 1 -> player_ID cp2 = 2 ->
    grid_size * grid_size - 4 <= Z.of_nat (S (S fuel)) ->
    exists s0 (n : nat) s' g',
      App_init (S (S fuel)) (Some [Computer cp1; Computer cp2]) grid_size = Ok s0 /\
      Z.of_nat n <= grid_size * grid_size - 4 /\
      fire_n so (S (S fuel)) n (s0, g) = Ok (s', g') /\
      scheduled s' = 0%nat /\ buttons s' = [] /\
      _is_state_terminal (App_board s') = Done true /\
      top_banner s'
      = victory_text (get_state_value (App_board s') 1) (get_state_value (App_board s') 2).
Proof.
  intros G so fuel cp1 cp2 grid_size g Hso He [Hge _] Hid1 Hid2 Hf.
  destruct (App_init_start fuel (Computer cp1) (Computer cp2) grid_size He Hge)
    as (Hmoves & Hplay & Hinit);
    [intros cp [= <-]; exact Hid1|intros cp [= <-]; exact Hid2|].
  destruct (start_board_spec grid_size He ltac:(lia))
    as (_ & _ & Hr & _ & _ & _ & _ & _ & Ht0).
  cbv zeta in *.
  set (b := start_board grid_size) in *.
  set (moves := filter (legal_move b 2) (coords b)) in *.
  set (s := {| App_board := b; current_player := 0;
               App_players := Some [NoPlayer; Computer cp1; Computer cp2]; buttons := [];
               top_banner := ""; scheduled := 0 |}) in *.
  set (s0 := announce 2 (Computer cp2) "Black" moves s) in *.
  destruct (game_ends_from so Hso fuel (Z.to_nat (grid_size * grid_size - 4)) s0 g)
    as (n & s' & g' & Hn & Hrun & Hs & Hb & Hr' & Hmover & Hbanner).
  - cbn. fold b. lia.
  - lia.
  - apply (in_play_board s s0 Hplay); [reflexivity|exact Hr|apply Hplay].
  - intros q [-> | ->]; eexists; reflexivity.
  - right. reflexivity.
  - exact Hmoves.
  - reflexivity.
  - reflexivity.
  - exists s0, n, s', g'. split; [exact Hinit|]. split; [lia|]. split; [exact Hrun|].
    split; [exact Hs|]. split; [exact Hb|]. split.
    + rewrite (terminal_mover _ 1 Hr' ltac:(left; reflexivity)), Hmover. reflexivity.
    + rewrite !get_state_value_tally. exact Hbanner.
Qed.

Lemma computer_match_witness :
  exists s0 (n : nat) s' g',
    App_init 12 (Some [Computer white_cp; Computer black_cp]) 4 = Ok s0 /\
    Z.of_nat n <= 4 * 4 - 4 /\
    fire_n id_order 12 n (s0, tt) = Ok (s', g') /\
    scheduled s' = 0%nat /\ buttons s' = [] /\
    _is_state_terminal (App_board s') = Done true /\
    top_banner s'
    = victory_text (get_state_value (App_board s') 1) (get_state_value (App_board s') 2).
Proof.
  apply (computer_match unit id_order 10 white_cp black_cp 4 tt id_order_perm);
    [reflexivity|lia|reflexivity|reflexivity|lia].
Defined.

(** ** The window at concrete states *)

Lemma in_play_window4 : in_play window4.
Proof.
  split; [exact rect_start4|]. split; [exact valid_cells_start4|].
  intros q [-> | ->]; eexists; (split; [reflexivity|]); intros cp [= <-]; reflexivity.
Qed.

(** X15: The window's [_is_on_board], [_get_flipped] and [_get_valid_moves]
    are the engine's [is_on_board], [get_flipped] and
    [_get_available_moves]: on every board, coordinate and player the
    two copies of the rules give the same outcome. *)
Theorem App_rules_agree (b : board) (loc : location) (player : Z) :
  _is_on_board b loc = is_on_board b loc /\
  _get_flipped b loc player = get_flipped b loc player /\
  _get_valid_moves b player = _get_available_moves b player.
Proof.
  split; [apply App_is_on_board_eq|].
  split; [apply App_get_flipped_eq|apply App_get_valid_moves_eq].
Qed.

Lemma place_disc_agrees_witness :
  exists b',
    play_move start4 (0, 1) 2 = Done b' /\
    _place_disc 2 (0, 1) None true window4 =
    (let s' := set_board b' (set_buttons [] window4) in
     if true then _swap_player 2 s' else Ok s').
Proof.
  apply (place_disc_agrees 2 (0, 1) None true window4);
    [exact rect_start4|exact valid_cells_start4|right; reflexivity|reflexivity].
Defined.

Lemma declare_victory_spec_witness :
  _declare_victory window4 = Ok (set_top_banner "tie game, with 2 tokens!" window4).
Proof.
  exact (proj1 (declare_victory_spec window4) valid_cells_start4).
Defined.

Lemma set_player_spec_witness :
  exists s',
    _set_player 2 2 window4 = Ok s' /\
    App_board s' = start4 /\ App_players s' = App_players window4 /\
    match mover start4 2 with
    | None =>
        _is_state_terminal start4 = Done true /\
        current_player s' = 2 /\ buttons s' = buttons window4 /\
        scheduled s' = scheduled window4 /\
        top_banner s' = victory_text (get_state_value start4 1) (get_state_value start4 2)
    | Some q =>
        _is_state_terminal start4 = Done false /\
        current_player s' = q /\
        (q = 2 \/ (q = other 2 /\ _get_valid_moves start4 2 = Done [])) /\
        exists moves,
          _get_valid_moves start4 q = Done moves /\ moves <> [] /\
          match seat_of window4 q with
          | Some HumanPlayer =>
              buttons s' = buttons window4 ++ moves /\ scheduled s' = scheduled window4
          | _ => buttons s' = buttons window4 /\ scheduled s' = S (scheduled window4)
          end
    end.
Proof.
  apply (set_player_spec 0 2 window4 in_play_window4). right. reflexivity.
Defined.

Lemma computer_turn_safe_witness :
  exists m b' s2 s' g',
    on_board start4 m = true /\ cell start4 m = Some 0 /\
    play_move start4 m 2 = Done b' /\
    get_state_value b' 0 = get_state_value start4 0 - 1 /\
    App_board s2 = b' /\ buttons s2 = [] /\ in_play s2 /\
    _set_player 12 (other 2) s2 = Ok s' /\
    App_board s' = b' /\ in_play s' /\
    _do_computer_turn id_order 12 window4 tt = Ok (s', g').
Proof.
  apply (computer_turn_safe unit id_order 10 window4 tt black_cp id_order_perm
           in_play_window4).
  - right. reflexivity.
  - reflexivity.
  - eexists. split; [vm_compute; reflexivity|discriminate].
  - vm_compute. discriminate.
Defined.

Lemma computer_game_ends_witness :
  exists (n : nat) s' g',
    Z.of_nat n <= get_state_value start4 0 /\
    fire_n id_order 12 n (window4, tt) = Ok (s', g') /\
    scheduled s' = 0%nat /\ buttons s' = [] /\
    _is_state_terminal (App_board s') = Done true /\
    top_banner s'
    = victory_text (get_state_value (App_board s') 1) (get_state_value (App_board s') 2).
Proof.
  apply (computer_game_ends unit id_order 10 window4 tt id_order_perm in_play_window4).
  - intros q [-> | ->]; eexists; reflexivity.
  - right. reflexivity.
  - eexists. split; [vm_compute; reflexivity|discriminate].
  - reflexivity.
  - reflexivity.
  - vm_compute. discriminate.
Defined.

(** ** Any game *)

(** [_set_player] on a window in play with nothing pending leaves the
    window ready for the next event. *)
Lemma hand_over (fuel : nat) (p : Z) (s : App) :
  in_play s -> seated s -> p = 1 \/ p = 2 ->
  (current_player s = 1 \/ current_player s = 2) ->
  scheduled s = 0%nat -> buttons s = [] ->
  exists s',
    _set_player (S (S fuel)) p s = Ok s' /\ ready s' /\ App_board s' = App_board s.
Proof.
  intros Hplay Hseated Hp Hcur Hsched Hbuttons.
  pose proof Hplay as (Hr & Hv & Hseats).
  pose proof (set_player_cases fuel p s Hplay Hp) as Hcases.
  destruct (mover (App_board s) p) as [q|] eqn:Hmover.
  - destruct Hcases as (Hq & seat & name & moves & Hseat & Hname & Hne & Hmoves & Hset).
    exists (announce q seat name moves s). split; [exact Hset|].
    destruct (announce_fields q seat name moves s) as (Hb & Hpl & Hc).
    split; [|exact Hb].
    assert (Hplay' : in_play (announce q seat name moves s))
      by (apply (in_play_board s); [exact Hplay|exact Hpl|rewrite Hb; exact Hr
                                   |rewrite Hb; exact Hv]).
    assert (Hseat_eq : forall q0, seat_of (announce q seat name moves s) q0 = seat_of s q0)
      by (intros q0; unfold seat_of; rewrite Hpl; reflexivity).
    split; [exact Hplay'|]. split.
    { intros q0 Hq0. rewrite Hseat_eq. apply Hseated, Hq0. }
    split; [rewrite Hc; exact Hq|]. cbv zeta. rewrite Hb, Hc, Hmoves, Hseat_eq, Hseat.
    right. destruct (Hseated q Hq) as [Hh|[cp Hcp]]; rewrite Hseat in *.
    + left. injection Hh as ->. cbn. rewrite Hsched, Hbuttons. auto.
    + right. injection Hcp as ->. cbn. rewrite Hsched, Hbuttons. eauto 6.
  - rewrite declare_victory_valid in Hcases by exact Hv.
    eexists. split; [exact Hcases|]. split; [|reflexivity].
    split; [apply (in_play_board s); auto|]. split; [exact Hseated|].
    split; [cbn; exact Hp|]. left. cbn. rewrite Hsched, Hbuttons.
    split; [reflexivity|]. split; [reflexivity|].
    exact (mover_none _ _ 1 Hp ltac:(left; reflexivity) Hmover).
Qed.

Section AnyGame.

Context {G : Type}.
Variable so : G -> nat -> list nat * G.
Hypothesis so_perm : forall g n, Permutation (so g n).1 (seq 0 n).
Variable fuel : nat.

Lemma handle_ready (e : event) (s : App) (g : G) :
  ready s -> tally 0 (App_board s) <= Z.of_nat (S (S fuel)) ->
  exists s' g',
    handle so (S (S fuel)) e (s, g) = Ok (s', g') /\ ready s' /\
    tally 0 (App_board s') <= tally 0 (App_board s).
Proof.
  intros Hready Hf. pose proof Hready as (Hplay & Hseated & Hq & Hstate).
  pose proof Hplay as (Hr & Hv & Hseats). cbv zeta in Hstate.
  set (b := App_board s) in *. set (q := current_player s) in *.
  assert (Hidle : exists s' g', Ok (s, g) = Ok (s', g') /\ ready s' /\
                                tally 0 (App_board s') <= tally 0 b)
    by (exists s, g; split; [reflexivity|]; split; [exact Hready|fold b; lia]).
  assert (Hmove : forall (m : location) (s1 : App),
            m ∈ filter (legal_move b q) (coords b) ->
            App_board s1 = b -> current_player s1 = q ->
            App_players s1 = App_players s -> scheduled s1 = 0%nat ->
            exists s',
              _place_disc (S (S fuel)) m None true s1 = Ok s' /\ ready s' /\
              tally 0 (App_board s') <= tally 0 b).
  { intros m s1 Hm Hb1 Hq1 Hp1 Hs1.
    apply legal_move_on_board in Hm as [Hon [H0 _]].
    rewrite place_disc_legal; rewrite ?Hb1, ?Hq1; try assumption.
    set (s2 := set_board (after b q m) (set_buttons [] s1)).
    assert (Hplay2 : in_play s2) by (apply (in_play_after s s2 q m); auto).
    destruct (other_valid q Hq) as [Ho _].
    destruct (hand_over fuel (other q) s2) as (s' & Hset & Hready' & Hb');
      try assumption; try reflexivity.
    - intros q0 Hq0. unfold seat_of. cbn [s2 set_board set_buttons App_players].
      rewrite Hp1. apply Hseated, Hq0.
    - cbn. rewrite Hq1. exact Hq.
    - exists s'. split; [exact Hset|]. split; [exact Hready'|].
      rewrite Hb'. cbn [s2 set_board App_board].
      rewrite tally_after by (auto; lia). lia. }
  destruct e as [m|]; cbn [handle fst snd].
  - destruct (decide (m ∈ buttons s)) as [Hin|_]; [|exact Hidle].
    destruct Hstate as [(_ & Hb & _)|[(_ & _ & Hs & Hb)|(_ & _ & _ & Hb)]];
      try (rewrite Hb in Hin; inversion Hin; fail).
    rewrite Hb in Hin. unfold press.
    destruct (Hmove m s Hin eq_refl eq_refl eq_refl Hs) as (s' & -> & Hready' & Hle).
    cbn [rbind]. eauto.
  - unfold fire. cbn [fst snd].
    destruct Hstate as [(Hs & _)|[(_ & _ & Hs & _)|(Hne & [cp Hcp] & Hs & Hb)]];
      rewrite Hs; try exact Hidle.
    set (s0 := {| App_board := App_board s; current_player := current_player s;
                  App_players := App_players s; buttons := buttons s;
                  top_banner := top_banner s; scheduled := 0 |}).
    assert (Hplay0 : in_play s0) by (apply (in_play_board s s0); auto).
    destruct (PLAYERS_valid q Hq) as (name & Hname).
    destruct (do_computer_turn_step so so_perm (S (S fuel)) s0 g cp name Hplay0 Hq Hcp
                Hname Hne Hf) as (m & g' & Hm & ->).
    cbn [s0 App_board current_player] in Hm |- *. fold b. fold q.
    apply legal_move_on_board in Hm as [Hon [H0 _]].
    set (s2 := set_board (after b q m) _).
    assert (Hplay2 : in_play s2) by (apply (in_play_after s s2 q m); auto).
    destruct (other_valid q Hq) as [Ho _].
    destruct (hand_over fuel (other q) s2) as (s' & Hset & Hready' & Hb');
      try assumption; try reflexivity; try exact Hq;
      try (intros q0 Hq0; exact (Hseated q0 Hq0)).
    rewrite Hset. cbn [rbind]. exists s', g'. split; [reflexivity|].
    split; [exact Hready'|]. rewrite Hb'. cbn [s2 set_board App_board].
    rewrite tally_after by (auto; lia). lia.
Qed.

Lemma play_ready (events : list event) :
  forall (s : App) (g : G),
    ready s -> tally 0 (App_board s) <= Z.of_nat (S (S fuel)) ->
    exists s' g',
      play so (S (S fuel)) events (s, g) = Ok (s', g') /\ ready s' /\
      tally 0 (App_board s') <= tally 0 (App_board s).
Proof.
  induction events as [|e events IH]; intros s g Hready Hf.
  - exists s, g. split; [reflexivity|]. split; [exact Hready|lia].
  - destruct (handle_ready e s g Hready Hf) as (s1 & g1 & Hh & Hready1 & Hle1).
    destruct (IH s1 g1 Hready1 ltac:(lia)) as (s' & g' & Hp & Hready' & Hle').
    exists s', g'. cbn [play]. rewrite Hh. cbn [rbind].
    split; [exact Hp|]. split; [exact Hready'|lia].
Qed.

End AnyGame.

(** X23: The window never raises in play: from a state between two events
    (game over, or a person to move with its buttons, or a computer
    player to move with its turn scheduled) any sequence of button
    presses and timer expiries is handled without exception and leads to
    such a state again; the number of empty cells never grows. *)
Theorem window_never_raises :
  forall (G : Type) (so : G -> nat -> list nat * G) (fuel : nat)
         (events : list event) (s : App) (g : G),
    (forall g n, Permutation (so g n).1 (seq 0 n)) ->
    ready s -> get_state_value (App_board s) 0 <= Z.of_nat (S (S fuel)) ->
    exists s' g',
      play so (S (S fuel)) events (s, g) = Ok (s', g') /\ ready s' /\
      get_state_value (App_board s') 0 <= get_state_value (App_board s) 0.
Proof.
  intros G so fuel events s g Hso Hready Hf. rewrite !get_state_value_tally in *.
  setoid_rewrite get_state_value_tally. apply play_ready; assumption.
Qed.

Lemma ready_window4 : ready window4.
Proof.
  split; [exact in_play_window4|]. split.
  { intros q [-> | ->]; right; eexists; reflexivity. }
  split; [right; reflexivity|]. cbv zeta. right. right.
  split; [vm_compute; discriminate|]. split; [eexists; reflexivity|].
  split; reflexivity.
Qed.

Lemma window_never_raises_witness :
  exists s' g',
    play id_order 12 [Tick; Press (0, 0); Tick; Tick] (window4, tt) = Ok (s', g') /\
    ready s' /\
    get_state_value (App_board s') 0 <= get_state_value (App_board window4) 0.
Proof.
  apply (window_never_raises unit id_order 10 [Tick; Press (0, 0); Tick; Tick] window4 tt
           id_order_perm ready_window4).
  vm_compute. discriminate.
Defined.

(** The constructor leaves the window ready. *)
Lemma App_init_ready (fuel : nat) (p1 p2 : seat) (grid_size : Z) :
  grid_size mod 2 = 0 -> 4 <= grid_size ->
  (p1 = HumanPlayer \/ exists cp, p1 = Computer cp /\ player_ID cp = 1) ->
  (p2 = HumanPlayer \/ exists cp, p2 = Computer cp /\ player_ID cp = 2) ->
  exists s0,
    App_init (S (S fuel)) (Some [p1; p2]) grid_size = Ok s0 /\ ready s0 /\
    App_board s0 = start_board grid_size.
Proof.
  intros He Hge Hp1 Hp2.
  destruct (App_init_start fuel p1 p2 grid_size He Hge) as (Hmoves & Hplay & Hinit).
  { intros cp ->. destruct Hp1 as [?|(cp' & [= <-] & Hid)]; [discriminate|exact Hid]. }
  { intros cp ->. destruct Hp2 as [?|(cp' & [= <-] & Hid)]; [discriminate|exact Hid]. }
  cbv zeta in *.
  set (b := start_board grid_size) in *.
  set (moves := filter (legal_move b 2) (coords b)) in *.
  set (s := {| App_board := b; current_player := 0;
               App_players := Some [NoPlayer; p1; p2]; buttons := [];
               top_banner := ""; scheduled := 0 |}) in *.
  destruct (announce_fields 2 p2 "Black" moves s) as (Hb & Hp & Hq).
  exists (announce 2 p2 "Black" moves s). split; [exact Hinit|]. split; [|exact Hb].
  split; [apply (in_play_board s); [exact Hplay|exact Hp|rewrite Hb; apply Hplay
                                   |rewrite Hb; apply Hplay]|].
  split.
  { intros q Hq0. unfold seat_of. rewrite Hp. cbn.
    destruct Hq0 as [-> | ->]; cbn;
      [destruct Hp1 as [->|(cp & -> & _)]|destruct Hp2 as [->|(cp & -> & _)]]; eauto. }
  split; [rewrite Hq; right; reflexivity|]. cbv zeta. rewrite Hb, Hq. fold moves.
  right. destruct Hp2 as [->|(cp & -> & _)]; [left|right]; cbn; eauto 6.
Qed.

(** X24: From the constructor on, whoever plays: with a person or a computer
    player (on the seat of its identifier) for each colour, on an even
    grid of side 4 or more, the window opens and then handles every
    sequence of button presses and timer expiries without raising. *)
Theorem game_never_raises :
  forall (G : Type) (so : G -> nat -> list nat * G) (fuel : nat) (p1 p2 : seat)
         (grid_size : Z),
    (forall g n, Permutation (so g n).1 (seq 0 n)) ->
    grid_size mod 2 = 0 -> 4 <= grid_size < 2 ^ 53 ->
    (p1 = HumanPlayer \/ exists cp, p1 = Computer cp /\ player_ID cp = 1) ->
    (p2 = HumanPlayer \/ exists cp, p2 = Computer cp /\ player_ID cp = 2) ->
    grid_size * grid_size - 4 <= Z.of_nat (S (S fuel)) ->
    exists s0,
      App_init (S (S fuel)) (Some [p1; p2]) grid_size = Ok s0 /\
      forall (events : list event) (g : G),
        exists s' g',
          play so (S (S fuel)) events (s0, g) = Ok (s', g') /\ ready s'.
Proof.
  intros G so fuel p1 p2 grid_size Hso He [Hge _] Hp1 Hp2 Hf.
  destruct (App_init_ready fuel p1 p2 grid_size He Hge Hp1 Hp2) as (s0 & Hinit & Hready & Hb).
  exists s0. split; [exact Hinit|]. intros events g.
  destruct (start_board_spec grid_size He ltac:(lia))
    as (_ & _ & _ & _ & _ & _ & _ & _ & Ht0).
  cbv zeta in Ht0.
  destruct (play_ready so Hso fuel events s0 g Hready) as (s' & g' & Hp & Hr' & _).
  - rewrite Hb, Ht0. exact Hf.
  - eauto.
Qed.

Lemma game_never_raises_witness :
  exists s0,
    App_init 62 (Some [Computer white_cp; HumanPlayer]) 8 = Ok s0 /\
    forall (events : list event) (g : unit),
      exists s' g',
        play id_order 62 events (s0, g) = Ok (s', g') /\ ready s'.
Proof.
  apply (game_never_raises unit id_order 60 (Computer white_cp) HumanPlayer 8
           id_order_perm); [reflexivity|lia| |left; reflexivity|lia].
  right. exists white_cp. split; reflexivity.
Defined.

(** * The command line *)

Lemma rbind_Ok {A B : Type} (m : result A) (k : A -> result B) (r : B) :
  rbind m k = Ok r -> exists a, m = Ok a /\ k a = Ok r.
Proof. destruct m; cbn; intros H; try discriminate. eauto. Qed.

Lemma rstrip_spec (chars : list Ascii.ascii) (s : string) :
  exists suffix,
    s = rstrip chars s +:+ suffix /\ all_in chars suffix /\
    forall c, last_char (rstrip chars s) = Some c -> c ∉ chars.
Proof.
  induction s as [|c s (suffix & Hs & Hall & Hlast)].
  - exists EmptyString. repeat split. discriminate.
  - cbn [rstrip]. destruct (rstrip chars s) as [|c' r] eqn:Hr.
    + change (s = suffix) in Hs. subst suffix.
      destruct (bool_decide_reflect (c ∈ chars)) as [Hc|Hc].
      * exists (String c s). repeat split; [assumption|assumption|discriminate].
      * exists s. repeat split; [assumption|]. intros c0 [= <-]. exact Hc.
    + exists suffix. split; [rewrite Hs at 1; reflexivity|]. split; [exact Hall|].
      intros c0 Hc0. apply Hlast. cbn [last_char] in Hc0 |- *.
      destruct (last_char r); exact Hc0.
Qed.

Lemma index_first (x : string) (pre rest : list string) :
  x ∉ pre -> index x (pre ++ x :: rest) = Ok (length pre).
Proof.
  induction pre as [|a pre IH]; intros Hx; cbn [index app length].
  - rewrite bool_decide_true by reflexivity. reflexivity.
  - rewrite bool_decide_false by (intros ->; apply Hx; left).
    rewrite IH by (intros H; apply Hx; right; exact H). reflexivity.
Qed.

Lemma arg_after_first (x a : string) (pre rest : list string) :
  x ∉ pre -> arg_after x (pre ++ x :: a :: rest) = Ok a.
Proof.
  intros Hx. unfold arg_after. rewrite index_first by assumption. cbn [rbind].
  rewrite py_index_nonneg by lia.
  replace (Z.to_nat (Z.of_nat (length pre) + 1)) with (length pre + 1)%nat by lia.
  rewrite lookup_app_r by lia.
  replace (length pre + 1 - length pre)%nat with 1%nat by lia. reflexivity.
Qed.

Lemma arg_after_last (x : string) (pre : list string) :
  x ∉ pre -> arg_after x (pre ++ [x]) = Fail (Engine IndexError).
Proof.
  intros Hx. unfold arg_after. rewrite index_first by assumption. cbn [rbind].
  rewrite py_index_nonneg by lia.
  rewrite lookup_ge_None_2; [reflexivity|]. rewrite length_app. cbn [length]. lia.
Qed.

(** X25: Without any of its options on the command line (whatever else is
    there) [parse_command_line_args] answers with the defaults: no help,
    a person against the default computer player, level 4 for both, no
    colours. *)
Theorem parse_defaults (int : string -> option Z) (args : list string) :
  (forall o, o ∈ options -> o ∉ args) ->
  parse_command_line_args int args
  = Ok (false, (None, Some "othelloplayer"), (4, 4), None).
Proof.
  intros Hno.
  assert (Hopt : forall o, In o options -> bool_decide (o ∈ args) = false).
  { intros o Ho. apply bool_decide_false, Hno, list_elem_of_In, Ho. }
  unfold parse_command_line_args.
  rewrite !Hopt by (cbn; tauto). reflexivity.
Qed.

Lemma parse_defaults_witness :
  parse_command_line_args (fun _ => None) ["-1"; "fast"]
  = Ok (false, (None, Some "othelloplayer"), (4, 4), None).
Proof.
  apply (parse_defaults (fun _ => None) ["-1"; "fast"]).
  intros o Ho Hin. apply list_elem_of_In in Ho, Hin. cbn in Ho, Hin.
  repeat (destruct Ho as [<-|Ho]; [intuition discriminate|]). exact Ho.
Defined.

(** X26: An option that wants a value and stands last raises [IndexError]:
    [-f] always, [-l] when there is no [-f], [-c] when there is neither
    [-f] nor [-l]. *)
Theorem parse_dangling_option (int : string -> option Z) (pre : list string) :
  ("-f" ∉ pre -> parse_command_line_args int (pre ++ ["-f"]) = Fail (Engine IndexError)) /\
  ("-f" ∉ pre -> "-l" ∉ pre ->
   parse_command_line_args int (pre ++ ["-l"]) = Fail (Engine IndexError)) /\
  ("-f" ∉ pre -> "-l" ∉ pre -> "-c" ∉ pre ->
   parse_command_line_args int (pre ++ ["-c"]) = Fail (Engine IndexError)).
Proof.
  assert (Hin : forall x y : string, x <> y -> x ∉ pre -> x ∉ pre ++ [y]).
  { intros x y Hxy Hx H. apply elem_of_app in H as [H|H]; [contradiction|].
    apply list_elem_of_singleton in H. contradiction. }
  split; [|split].
  - intros Hf. unfold parse_command_line_args.
    rewrite (bool_decide_true ("-f" ∈ pre ++ ["-f"]))
      by (apply elem_of_app; right; left).
    rewrite arg_after_last by assumption. reflexivity.
  - intros Hf Hl. unfold parse_command_line_args.
    rewrite (bool_decide_false ("-f" ∈ pre ++ ["-l"])) by (apply Hin; [discriminate|assumption]).
    cbn [rbind].
    rewrite (bool_decide_true ("-l" ∈ pre ++ ["-l"]))
      by (apply elem_of_app; right; left).
    rewrite arg_after_last by assumption. reflexivity.
  - intros Hf Hl Hc. unfold parse_command_line_args.
    rewrite (bool_decide_false ("-f" ∈ pre ++ ["-c"])) by (apply Hin; [discriminate|assumption]).
    cbn [rbind].
    rewrite (bool_decide_false ("-l" ∈ pre ++ ["-c"])) by (apply Hin; [discriminate|assumption]).
    cbn [rbind].
    rewrite (bool_decide_true ("-c" ∈ pre ++ ["-c"]))
      by (apply elem_of_app; right; left).
    rewrite arg_after_last by assumption. reflexivity.
Qed.

Lemma parse_dangling_option_witness :
  parse_command_line_args (fun _ => None) ["-0"; "-f"] = Fail (Engine IndexError).
Proof.
  apply (proj1 (parse_dangling_option (fun _ => None) ["-0"])).
  intros H. apply list_elem_of_In in H. cbn in H. intuition discriminate.
Defined.

(** X27: The name given with [-f] loses every trailing [.], [p] and [y], not
    only a final [.py]: the file name the players are loaded from is the
    argument after the first [-f] cut before its longest suffix made of
    these three characters (so [happy.py] becomes [ha]). *)
Theorem parse_ai_file (int : string -> option Z) (pre rest : list string)
    (name : string) (print_help : bool) (players : option string * option string)
    (levels : Z * Z) (colors : option (list string)) :
  "-f" ∉ pre ->
  parse_command_line_args int (pre ++ "-f" :: name :: rest)
  = Ok (print_help, players, levels, colors) ->
  exists file suffix,
    name = file +:+ suffix /\ all_in ["."; "p"; "y"]%char suffix /\
    (forall c, last_char file = Some c -> c ∉ ["."; "p"; "y"]%char) /\
    (players = (Some file, Some file) \/ players = (None, None) \/
     players = (None, Some file)).
Proof.
  intros Hf Hparse. unfold parse_command_line_args in Hparse.
  rewrite (bool_decide_true ("-f" ∈ pre ++ "-f" :: name :: rest)) in Hparse
    by (apply elem_of_app; right; left).
  rewrite arg_after_first in Hparse by assumption. cbn [rbind] in Hparse.
  destruct (rstrip_spec ["."; "p"; "y"]%char name) as (suffix & Hname & Hall & Hlast).
  exists (rstrip ["."; "p"; "y"]%char name), suffix.
  split; [exact Hname|]. split; [exact Hall|]. split; [exact Hlast|].
  apply rbind_Ok in Hparse as (lv0 & _ & Hparse).
  apply rbind_Ok in Hparse as (cl0 & _ & Hparse).
  injection Hparse as _ <- _ _.
  destruct (bool_decide _); [left; reflexivity|].
  destruct (bool_decide _); [right; left; reflexivity|right; right; reflexivity].
Qed.

Lemma parse_ai_file_witness :
  exists file suffix,
    "happy.py" = file +:+ suffix /\ all_in ["."; "p"; "y"]%char suffix /\
    (forall c, last_char file = Some c -> c ∉ ["."; "p"; "y"]%char) /\
    ((@None string, Some "ha") = (Some file, Some file) \/
     (@None string, Some "ha") = (None, None) \/
     (@None string, Some "ha") = (None, Some file)).
Proof.
  apply (parse_ai_file (fun _ => None) [] [] "happy.py" false (None, Some "ha") (4, 4) None);
    [apply not_elem_of_nil|vm_compute; reflexivity].
Defined.

(** * [to_string] *)

Lemma pretty_N_char_not_newline (n : N) : pretty_N_char n <> newline.
Proof.
  unfold pretty_N_char. destruct n as [|p]; [discriminate|].
  do 4 (try destruct p as [p|p|]); discriminate.
Qed.

Lemma count_newline_go (x : N) :
  forall s, count_char newline (pretty_N_go x s) = count_char newline s.
Proof.
  induction (N.lt_wf_0 x) as [x _ IH]. intros s.
  destruct (decide (x = 0%N)) as [->|Hx]; [rewrite pretty_N_go_0; reflexivity|].
  rewrite pretty_N_go_step by lia.
  rewrite IH by (apply N.div_lt; lia). cbn [count_char].
  rewrite bool_decide_false by apply pretty_N_char_not_newline. reflexivity.
Qed.

(** The decimal form of an integer has no line feed. *)
Lemma count_newline_str (z : Z) : count_char newline (str z) = 0%nat.
Proof.
  assert (HN : forall n : N, count_char newline (pretty n) = 0%nat).
  { intros n. unfold pretty, pretty_N. destruct (decide (n = 0%N)); [reflexivity|].
    apply count_newline_go. }
  unfold str. destruct z as [|p|p]; [reflexivity|apply (HN (N.pos p))|].
  change (pretty (Z.neg p)) with (String "-"%char (pretty (N.pos p))).
  cbn [count_char]. rewrite bool_decide_false by discriminate. apply (HN (N.pos p)).
Qed.

Lemma let_pair_fst {A B C : Type} (p : A * B) (k : A -> C) :
  (let '(a, _) := p in k a) = k p.1.
Proof. destruct p; reflexivity. Qed.

Lemma append_cons (c : Ascii.ascii) (s t : string) :
  String c s +:+ t = String c (s +:+ t).
Proof. reflexivity. Qed.

Lemma append_nil_r (s : string) : s +:+ EmptyString = s.
Proof.
  induction s as [|c s IH]; [reflexivity|]. rewrite append_cons, IH. reflexivity.
Qed.

Lemma string_app_assoc (s t u : string) : (s +:+ t) +:+ u = s +:+ (t +:+ u).
Proof.
  induction s as [|c s IH]; [reflexivity|]. rewrite !append_cons, IH. reflexivity.
Qed.

Lemma count_char_app (c : Ascii.ascii) (s t : string) :
  count_char c (s +:+ t) = (count_char c s + count_char c t)%nat.
Proof.
  induction s as [|x s IH]; [reflexivity|]. rewrite append_cons.
  cbn [count_char]. rewrite IH. lia.
Qed.

Lemma last_char_app (s t : string) (x : Ascii.ascii) :
  last_char t = Some x -> last_char (s +:+ t) = Some x.
Proof.
  intros Ht. induction s as [|c s IH]; [exact Ht|].
  rewrite append_cons. cbn [last_char]. rewrite IH. reflexivity.
Qed.

Lemma drop_last_snoc (s : string) (x : Ascii.ascii) :
  drop_last (s +:+ String x EmptyString) = s.
Proof.
  induction s as [|c s IH]; [reflexivity|].
  rewrite append_cons. cbn [drop_last]. rewrite IH.
  destruct s; reflexivity.
Qed.

Lemma last_char_snoc (s : string) (x : Ascii.ascii) :
  last_char (s +:+ String x EmptyString) = Some x.
Proof.
  apply last_char_app. reflexivity.
Qed.

(** A line under construction: text without line feed, then a space. *)
Lemma line_fold (row : list Z) :
  forall pre : string,
    count_char newline pre = 0%nat ->
    exists pre',
      foldl (fun line cell => line +:+ (str cell +:+ " ")) (pre +:+ " ") row
      = pre' +:+ " " /\
      count_char newline pre' = 0%nat.
Proof.
  induction row as [|cell row IH]; intros pre Hpre; [exists pre; auto|].
  cbn [foldl]. rewrite <- string_app_assoc.
  apply IH. rewrite !count_char_app, Hpre, count_newline_str. reflexivity.
Qed.

Lemma rows_fold (b : board) :
  let step := fun '(output, i) (row : list Z) =>
                let line :=
                  foldl (fun line cell => line +:+ (str cell +:+ " ")) (str i +:+ " ") row in
                (output +:+ (drop_last line +:+ String newline EmptyString), i + 1) in
  forall (output : string) (i : Z),
    exists text,
      (foldl step (output, i) b).1 = output +:+ text /\
      count_char newline text = length b /\
      (b = [] -> text = EmptyString) /\
      (b <> [] -> last_char text = Some newline).
Proof.
  intros step. induction b as [|row b IH]; intros output i.
  - exists EmptyString. cbn [foldl fst length]. rewrite append_nil_r.
    split; [reflexivity|]. split; [reflexivity|]. split; [reflexivity|congruence].
  - cbn [foldl].
    destruct (line_fold row (str i) (count_newline_str i)) as (pre & Hline & Hpre).
    assert (Hstep : step (output, i) row
                    = (output +:+ (pre +:+ String newline EmptyString), i + 1)).
    { unfold step. cbv beta iota zeta. rewrite Hline, drop_last_snoc. reflexivity. }
    rewrite Hstep.
    destruct (IH (output +:+ (pre +:+ String newline EmptyString)) (i + 1))
      as (text & Htext & Hcount & Hnil & Hlast).
    rewrite Htext.
    exists ((pre +:+ String newline EmptyString) +:+ text).
    split; [apply string_app_assoc|]. split; [|split; [discriminate|]].
    + rewrite !count_char_app, Hpre, Hcount. cbn [count_char length].
      rewrite bool_decide_true by reflexivity. lia.
    + intros _. destruct b as [|row' b'].
      * rewrite (Hnil eq_refl), append_nil_r. apply last_char_snoc.
      * apply last_char_app, Hlast. discriminate.
Qed.

(** X28: [to_string] raises [IndexError] when the board is empty (a board the
    constructor never builds) and only then; otherwise it returns a text
    of exactly one line more than the board has rows (the line of the
    column numbers comes first), the last line feed being the last
    character. *)
Theorem to_string_lines (b : board) :
  match b with
  | [] => to_string b = Raise IndexError
  | _ :: _ =>
      exists text,
        to_string b = Done text /\
        count_char newline text = S (length b) /\
        last_char text = Some newline
  end.
Proof.
  destruct b as [|row0 b]; [reflexivity|].
  set (header :=
         drop_last (foldl (fun output i => output +:+ (str i +:+ " ")) "  "
                          (range 0 (length row0)))
         +:+ String newline EmptyString).
  assert (Hheader : count_char newline header = 1%nat).
  { unfold header.
    destruct (line_fold (range 0 (length row0)) " " eq_refl) as (pre & Hfold & Hpre).
    change (" " +:+ " ") with "  " in Hfold. rewrite Hfold, drop_last_snoc.
    rewrite count_char_app, Hpre. reflexivity. }
  destruct (rows_fold (row0 :: b) header 0) as (text & Hfold & Hcount & _ & Hlast).
  exists (header +:+ text). split; [|split].
  - rewrite <- Hfold. exact (let_pair_fst _ Done).
  - rewrite count_char_app, Hheader, Hcount. reflexivity.
  - apply last_char_app, Hlast. discriminate.
Qed.
